(** * as-smithy: payload codec and block protocol of the .as editors

    A shallow embedding of the scanning, decoding, parsing and export code of
    [WaveEditor.tsx], [EnvironmentEditor.tsx] and the wave editor with
    [parseWaves], followed by the properties of that code.

    JavaScript strings are sequences of UTF-16 code units; they are modelled
    as lists of code units ([N]).  Byte buffers ([Uint8Array]) are lists of
    [N] below 256. *)

From Stdlib Require Import String Ascii DecimalString.
From Stdlib Require Import List NArith Arith Bool Lia Sorted Permutation.
Import ListNotations.

Set Implicit Arguments.

(** ** Code units and strings *)

Definition char := N.
Definition jsstring := list char.
Definition bytes := list N.

Definition str (s : string) : jsstring :=
  map N_of_ascii (list_ascii_of_string s).

Definition ceq (a b : char) : bool := N.eqb a b.

Local Open Scope N_scope.

Definition in_range (lo hi c : N) : bool := (N.leb lo c && N.leb c hi)%bool.

Definition is_digit (c : char) : bool := in_range 48 57 c.
Definition is_upper (c : char) : bool := in_range 65 90 c.
Definition is_lower (c : char) : bool := in_range 97 122 c.

(** [\w] is [[A-Za-z0-9_]]. *)
Definition is_word (c : char) : bool :=
  is_upper c || is_lower c || is_digit c || ceq c 95.

(** [\s], which is also the set removed by [String.prototype.trim]:
    TAB, LF, VT, FF, CR, SPACE, NBSP, U+1680, U+2000..U+200A, U+2028, U+2029,
    U+202F, U+205F, U+3000 and U+FEFF. *)
Definition is_space (c : char) : bool :=
  in_range 9 13 c || ceq c 32 || ceq c 160 || ceq c 5760 ||
  in_range 8192 8202 c || ceq c 8232 || ceq c 8233 || ceq c 8239 ||
  ceq c 8287 || ceq c 12288 || ceq c 65279.

(** [.] without the [s] flag: anything but LF, CR, U+2028, U+2029. *)
Definition is_dot (c : char) : bool :=
  negb (ceq c 10 || ceq c 13 || ceq c 8232 || ceq c 8233).

Definition star : char := 42.
Definition is_star (c : char) : bool := ceq c star.

(** A pattern letter under the [i] flag (no [u] flag): only the two ASCII
    cases of the letter canonicalize to it. *)
Definition ci (x : char) (c : char) : bool :=
  ceq c x ||
  (if is_lower x then ceq c (x - 32) else if is_upper x then ceq c (x + 32) else false).

Local Close Scope N_scope.

Fixpoint seq_eqb (a b : jsstring) : bool :=
  match a, b with
  | [], [] => true
  | x :: a', y :: b' => ceq x y && seq_eqb a' b'
  | _, _ => false
  end.

(** [s.startsWith(p)] *)
Fixpoint startsWith (s p : jsstring) {struct p} : bool :=
  match p, s with
  | [], _ => true
  | x :: p', y :: s' => ceq x y && startsWith s' p'
  | _ :: _, [] => false
  end.

(** [s.endsWith(p)] *)
Definition endsWith (s p : jsstring) : bool :=
  (length p <=? length s) && seq_eqb (skipn (length s - length p) s) p.

(** [s.includes(p)] *)
Fixpoint includes (s p : jsstring) : bool :=
  startsWith s p ||
  match s with
  | [] => false
  | _ :: s' => includes s' p
  end.

Fixpoint trimStart (s : jsstring) : jsstring :=
  match s with
  | c :: s' => if is_space c then trimStart s' else s
  | [] => []
  end.

Definition trimEnd (s : jsstring) : jsstring := rev (trimStart (rev s)).

(** [s.trim()] *)
Definition trim (s : jsstring) : jsstring := trimEnd (trimStart s).

(** [s.split(/\r?\n/)]: a separator is LF, together with the CR right before
    it when there is one. [cur] holds the current piece, reversed. *)
Fixpoint split_from (cur : jsstring) (s : jsstring) : list jsstring :=
  match s with
  | [] => [rev cur]
  | c :: s' =>
      if ceq c 10%N then rev cur :: split_from [] s'
      else if ceq c 13%N then
        match s' with
        | d :: s'' => if ceq d 10%N then rev cur :: split_from [] s''
                      else split_from (c :: cur) s'
        | [] => split_from (c :: cur) s'
        end
      else split_from (c :: cur) s'
  end.

Definition split_lines (s : jsstring) : list jsstring := split_from [] s.

(** [parts.join(sep)] *)
Fixpoint join (sep : jsstring) (parts : list jsstring) : jsstring :=
  match parts with
  | [] => []
  | [p] => p
  | p :: rest => p ++ sep ++ join sep rest
  end.

(** Decimal rendering of a number inside a template literal. *)
Definition decimal (n : nat) : jsstring :=
  str (NilZero.string_of_uint (Nat.to_uint n)).

(** ** Regular expressions

    The fragment of the JavaScript regular expressions the editors use:
    classes, concatenation, alternation, [r?], greedy [[class]{min,}] (which
    covers [*], [+] and [{64,}]), capturing groups, back-references and the
    anchors [^] and [$] (without the [m] flag).  Matching is by backtracking,
    leftmost first, greedy, as in the language. *)

Inductive regex : Type :=
| Eps
| Cls (p : char -> bool)
| Cat (r1 r2 : regex)
| Alt (r1 r2 : regex)
| Opt (r : regex)
| Rep (min : nat) (p : char -> bool)
| Grp (n : nat) (r : regex)
| Ref (n : nat)
| Bos
| Eos.

Notation "a +++ b" := (Cat a b) (at level 60, right associativity).

(** Captures, most recent first. *)
Definition captures := list (nat * jsstring).

Fixpoint get_cap (n : nat) (g : captures) : option jsstring :=
  match g with
  | [] => None
  | (m, w) :: g' => if n =? m then Some w else get_cap n g'
  end.

Section Matcher.
Variable R : Type.

(** Greedy repetition of a class: take as many characters as possible,
    then give them back one at a time until the rest of the pattern
    matches, never going below [min]. [count] is what was taken so far. *)
Fixpoint rep_greedy (p : char -> bool) (min count pos : nat) (s : jsstring)
         (k : nat -> jsstring -> option R) : option R :=
  match s with
  | c :: t =>
      if p c then
        match rep_greedy p min (S count) (S pos) t k with
        | Some r => Some r
        | None => if min <=? count then k pos s else None
        end
      else if min <=? count then k pos s else None
  | [] => if min <=? count then k pos s else None
  end.

(** [rmatch r pos s g k]: match [r] at offset [pos], where [s] is the text
    from [pos] on, then continue with [k]. *)
Fixpoint rmatch (r : regex) (pos : nat) (s : jsstring) (g : captures)
         (k : nat -> jsstring -> captures -> option R) : option R :=
  match r with
  | Eps => k pos s g
  | Cls p =>
      match s with
      | c :: t => if p c then k (S pos) t g else None
      | [] => None
      end
  | Cat r1 r2 =>
      rmatch r1 pos s g (fun pos' s' g' => rmatch r2 pos' s' g' k)
  | Alt r1 r2 =>
      match rmatch r1 pos s g k with
      | Some x => Some x
      | None => rmatch r2 pos s g k
      end
  | Opt r1 =>
      match rmatch r1 pos s g k with
      | Some x => Some x
      | None => k pos s g
      end
  | Rep min p => rep_greedy p min 0 pos s (fun pos' s' => k pos' s' g)
  | Grp n r1 =>
      rmatch r1 pos s g
             (fun pos' s' g' => k pos' s' ((n, firstn (pos' - pos) s) :: g'))
  | Ref n =>
      match get_cap n g with
      | Some w =>
          if startsWith s w then k (pos + length w) (skipn (length w) s) g
          else None
      | None => k pos s g
      end
  | Bos => if pos =? 0 then k pos s g else None
  | Eos => match s with [] => k pos s g | _ :: _ => None end
  end.
End Matcher.

Record MatchResult := {
  m_index : nat;          (* offset of the match *)
  m_end : nat;            (* offset just after the match *)
  m_groups : captures
}.

Definition match_at (r : regex) (pos : nat) (s : jsstring) : option MatchResult :=
  rmatch r pos s []
         (fun e _ g => Some {| m_index := pos; m_end := e; m_groups := g |}).

(** Leftmost match at or after [pos]; [s] is the text from [pos] on. *)
Fixpoint search (r : regex) (pos : nat) (s : jsstring) : option MatchResult :=
  match match_at r pos s with
  | Some m => Some m
  | None =>
      match s with
      | _ :: t => search r (S pos) t
      | [] => None
      end
  end.

(** [r.exec(s)] with [r.lastIndex = lastIndex] for a global [r]; for a
    non-global one [lastIndex] is 0. *)
Definition exec (r : regex) (s : jsstring) (lastIndex : nat) : option MatchResult :=
  if lastIndex <=? length s then search r lastIndex (skipn lastIndex s) else None.

(** [r.test(s)] for a non-global [r] *)
Definition test (r : regex) (s : jsstring) : bool :=
  match exec r s 0 with Some _ => true | None => false end.

(** [m[n]] for [n >= 1]; an unset group is the empty string here, the
    patterns below set every group they read. *)
Definition group (m : MatchResult) (n : nat) : jsstring :=
  match get_cap n (m_groups m) with Some w => w | None => [] end.

(** [s.replace(r, repl)] for a non-global [r] and a replacement text without
    [$] patterns. *)
Definition replace_first (r : regex) (repl s : jsstring) : jsstring :=
  match exec r s 0 with
  | Some m => firstn (m_index m) s ++ repl ++ skipn (m_end m) s
  | None => s
  end.

(** [s.replace(/[class]/g, "")] and [s.replace(/[class]+/g, "")] *)
Definition remove_all (p : char -> bool) (s : jsstring) : jsstring :=
  filter (fun c => negb (p c)) s.

Definition lit (w : string) : regex :=
  fold_right (fun c r => Cls (ceq c) +++ r) Eps (str w).

Definition lit_i (w : string) : regex :=
  fold_right (fun c r => Cls (ci c) +++ r) Eps (str w).

Fixpoint alts (rs : list regex) : regex :=
  match rs with
  | [] => Eps
  | [r] => r
  | r :: rs' => Alt r (alts rs')
  end.


(** ** Platform functions used by the codec *)

Local Open Scope N_scope.

(** *** [atob]: the forgiving base64 decoding of the HTML standard *)

Definition is_ascii_ws (c : char) : bool :=
  ceq c 9 || ceq c 10 || ceq c 12 || ceq c 13 || ceq c 32.

Definition b64_value (c : char) : option N :=
  if is_upper c then Some (c - 65)
  else if is_lower c then Some (c - 97 + 26)
  else if is_digit c then Some (c - 48 + 52)
  else if ceq c 43 then Some 62
  else if ceq c 47 then Some 63
  else None.

Fixpoint sextets (s : jsstring) : option (list N) :=
  match s with
  | [] => Some []
  | c :: s' =>
      match b64_value c, sextets s' with
      | Some v, Some vs => Some (v :: vs)
      | _, _ => None
      end
  end.

(** Four sextets make three bytes; a tail of three makes two bytes and a
    tail of two makes one, the spare bits being dropped. *)
Fixpoint b64_bytes (v : list N) : bytes :=
  match v with
  | a :: b :: c :: d :: v' =>
      let n := a * 262144 + b * 4096 + c * 64 + d in
      (n / 65536) :: ((n / 256) mod 256) :: (n mod 256) :: b64_bytes v'
  | [a; b; c] =>
      let n := a * 4096 + b * 64 + c in
      [n / 1024; (n / 4) mod 256]
  | [a; b] => [(a * 64 + b) / 16]
  | _ => []
  end.

Definition strip_padding (s : jsstring) : jsstring :=
  match rev s with
  | 61 :: 61 :: r => rev r
  | 61 :: r => rev r
  | _ => s
  end.

(** [None] stands for the [InvalidCharacterError] exception. *)
Definition atob (data : jsstring) : option bytes :=
  let d := remove_all is_ascii_ws data in
  let d := if (length d mod 4 =? 0)%nat then strip_padding d else d in
  if (length d mod 4 =? 1)%nat then None
  else match sextets d with
       | Some v => Some (b64_bytes v)
       | None => None
       end.

(** *** [btoa] on a binary string *)

Definition b64_digit (v : N) : char :=
  if v <? 26 then 65 + v
  else if v <? 52 then 97 + (v - 26)
  else if v <? 62 then 48 + (v - 52)
  else if v =? 62 then 43 else 47.

Fixpoint btoa (b : bytes) : jsstring :=
  match b with
  | x :: y :: z :: b' =>
      let n := x * 65536 + y * 256 + z in
      b64_digit (n / 262144) :: b64_digit ((n / 4096) mod 64) ::
      b64_digit ((n / 64) mod 64) :: b64_digit (n mod 64) :: btoa b'
  | [x; y] =>
      let n := x * 1024 + y * 4 in
      [b64_digit (n / 4096); b64_digit ((n / 64) mod 64); b64_digit (n mod 64); 61]
  | [x] =>
      let n := x * 16 in
      [b64_digit (n / 64); b64_digit (n mod 64); 61; 61]
  | [] => []
  end.

(** *** [new TextDecoder().decode]: the UTF-8 decoder of the Encoding
    standard in its default, non-fatal mode *)

Record Utf8State := {
  u_cp : N; u_seen : N; u_needed : N; u_lower : N; u_upper : N
}.

Definition utf8_init : Utf8State :=
  {| u_cp := 0; u_seen := 0; u_needed := 0; u_lower := 0x80; u_upper := 0xBF |}.

Inductive token := CodePoint (c : N) | Malformed.

(** A byte met when no sequence is open. *)
Definition utf8_lead (b : N) : Utf8State * list token :=
  if b <=? 0x7F then (utf8_init, [CodePoint b])
  else if in_range 0xC2 0xDF b then
    ({| u_cp := N.land b 0x1F; u_seen := 0; u_needed := 1;
        u_lower := 0x80; u_upper := 0xBF |}, [])
  else if in_range 0xE0 0xEF b then
    ({| u_cp := N.land b 0xF; u_seen := 0; u_needed := 2;
        u_lower := if b =? 0xE0 then 0xA0 else 0x80;
        u_upper := if b =? 0xED then 0x9F else 0xBF |}, [])
  else if in_range 0xF0 0xF4 b then
    ({| u_cp := N.land b 0x7; u_seen := 0; u_needed := 3;
        u_lower := if b =? 0xF0 then 0x90 else 0x80;
        u_upper := if b =? 0xF4 then 0x8F else 0xBF |}, [])
  else (utf8_init, [Malformed]).

(** A byte out of the expected range ends the open sequence with an error
    and is then read again as a lead byte. *)
Definition utf8_step (st : Utf8State) (b : N) : Utf8State * list token :=
  if u_needed st =? 0 then utf8_lead b
  else if negb (in_range (u_lower st) (u_upper st) b) then
    let (st', out) := utf8_lead b in (st', Malformed :: out)
  else
    let c := N.lor (N.shiftl (u_cp st) 6) (N.land b 0x3F) in
    if u_seen st + 1 =? u_needed st then (utf8_init, [CodePoint c])
    else ({| u_cp := c; u_seen := u_seen st + 1; u_needed := u_needed st;
             u_lower := 0x80; u_upper := 0xBF |}, []).

Fixpoint utf8_run (st : Utf8State) (bs : bytes) : list token :=
  match bs with
  | [] => if u_needed st =? 0 then [] else [Malformed]
  | b :: bs' => let (st', out) := utf8_step st b in out ++ utf8_run st' bs'
  end.

(** The bytes are valid UTF-8 when the decoder meets no error; a fatal
    decoder would throw exactly otherwise. *)
Definition valid_utf8 (bs : bytes) : bool :=
  forallb (fun t => match t with CodePoint _ => true | Malformed => false end)
          (utf8_run utf8_init bs).

Definition utf16 (c : N) : jsstring :=
  if c <? 0x10000 then [c]
  else [0xD800 + (c - 0x10000) / 1024; 0xDC00 + (c - 0x10000) mod 1024].

Definition replacement (t : token) : N :=
  match t with CodePoint c => c | Malformed => 0xFFFD end.

Definition skip_bom (cps : list N) : list N :=
  match cps with
  | 0xFEFF :: rest => rest
  | _ => cps
  end.

(** Errors become U+FFFD, a leading byte order mark is dropped, and the
    code points are written as UTF-16. It never throws. *)
Definition TextDecoder_decode (out : bytes) : jsstring :=
  flat_map utf16 (skip_bom (map replacement (utf8_run utf8_init out))).

Local Close Scope N_scope.

(** ** The obfuscation mask *)

(** [collectStarIndices], with the loop variable [cleanPos] as an argument *)
Fixpoint collectStarIndices_from (cleanPos : nat) (s : jsstring) : list nat :=
  match s with
  | [] => []
  | c :: s' =>
      if is_star c then cleanPos :: collectStarIndices_from cleanPos s'
      else if is_space c then collectStarIndices_from cleanPos s'
      else collectStarIndices_from (S cleanPos) s'
  end.

Definition collectStarIndices (s : jsstring) : list nat :=
  collectStarIndices_from 0 s.

(** [arr.splice(pos, 0, x)]; a [pos] past the end appends. *)
Definition splice_insert (pos : nat) (x : char) (arr : jsstring) : jsstring :=
  firstn pos arr ++ x :: skipn pos arr.

Fixpoint insert_desc (x : nat) (l : list nat) : list nat :=
  match l with
  | [] => [x]
  | y :: l' => if y <? x then x :: l else y :: insert_desc x l'
  end.

(** [.sort((a, b) => b - a)] *)
Definition sort_desc (l : list nat) : list nat := fold_right insert_desc [] l.

Definition reinsertStars (b64 : jsstring) (starPositions : list nat) : jsstring :=
  match starPositions with
  | [] => b64
  | _ :: _ =>
      let sorted := sort_desc (filter (fun n => n <=? length b64) starPositions) in
      fold_left (fun arr pos => splice_insert pos star arr) sorted b64
  end.

(** [inner.replace(/[\s\*]/g, "")] *)
Definition strip_mask (inner : jsstring) : jsstring :=
  remove_all (fun c => is_space c || is_star c) inner.

(** ** The compression adapter *)

(** The three inflaters of the compression library; [None] stands for a
    thrown exception. *)
Record Pako := {
  inflate : bytes -> option bytes;
  inflateRaw : bytes -> option bytes;
  ungzip : bytes -> option bytes
}.

Inductive Framing := Zlib | RawDeflate | Gzip.

Inductive DecodeError :=
| Thrown              (* the message of the exception base64ToBytes threw *)
| UnableToInflate.    (* "Unable to inflate with zlib/raw/gzip." *)

Inductive DecodeResult :=
| Ok (text : jsstring)
| Fail (error : DecodeError).

Definition base64ToBytes (b64 : jsstring) : option bytes :=
  let cleaned := remove_all is_space b64 in
  atob cleaned.

Definition bytesToBase64 (b : bytes) : jsstring := btoa b.

Section Codec.
Variable pako : Pako.

Definition tries (b : bytes) : list (Framing * (unit -> option bytes)) :=
  [ (Zlib, fun _ => inflate pako b);
    (RawDeflate, fun _ => inflateRaw pako b);
    (Gzip, fun _ => ungzip pako b) ].

(** The [for (const t of tries)] loop; the first component lists the
    framings that were called. *)
Fixpoint run_tries (ts : list (Framing * (unit -> option bytes)))
  : list Framing * option jsstring :=
  match ts with
  | [] => ([], None)
  | (f, t) :: ts' =>
      match t tt with
      | Some out => ([f], Some (TextDecoder_decode out))
      | None => let (log, r) := run_tries ts' in (f :: log, r)
      end
  end.

Definition decodeZlibBase64_traced (input : jsstring)
  : list Framing * DecodeResult :=
  match base64ToBytes input with
  | None => ([], Fail Thrown)
  | Some b =>
      let (log, r) := run_tries (tries b) in
      (log, match r with
            | Some text => Ok text
            | None => Fail UnableToInflate
            end)
  end.

Definition decodeZlibBase64 (input : jsstring) : DecodeResult :=
  snd (decodeZlibBase64_traced input).

End Codec.

(** ** The block scanner *)

Record BlockMatch := {
  index : nat;
  quote : jsstring;
  innerStart : nat;
  innerEnd : nat;
  original : jsstring;
  cleanedB64 : jsstring;
  starsAt : list nat;
  decodedText : option jsstring;
  likely : bool   (* likelyWaves, likelyEnvironment *)
}.

Definition WAVY_HINTS : list jsstring :=
  map str ["AddBloon"; "FollowBezier"; "CreateTrain"; "Wave"; "Bloon"; "AddWave"]%string.

Definition ENV_HINTS : list jsstring :=
  map str ["var "; "const "; "let "; "this."; "Environment"; "Config"; "Setting"]%string.

Definition is_quote (c : char) : bool := ceq c 34%N || ceq c 39%N.

(** [[A-Za-z0-9+/=\s\*]] *)
Definition is_payload (c : char) : bool :=
  is_upper c || is_lower c || is_digit c || ceq c 43%N || ceq c 47%N ||
  ceq c 61%N || is_space c || is_star c.

(** The pattern of [parseBlocks]: group 1 is a double or a single quote,
    groups 2 and 3 are [[A-Za-z0-9+/=\s\*]{64,}], then comes [\1]. *)
Definition rx : regex :=
  Grp 1 (Cls is_quote) +++ Grp 2 (Grp 3 (Rep 64 is_payload)) +++ Ref 1.

(** Truthiness of an optional string: [undefined] and the empty string are
    falsy. *)
Definition truthy (o : option jsstring) : bool :=
  match o with
  | Some (_ :: _) => true
  | _ => false
  end.

Section Scanner.
Variable pako : Pako.
Variable HINTS : list jsstring.

Definition block_of (idx : nat) (m : MatchResult) : BlockMatch :=
  let quote := group m 1 in
  let inner := group m 2 in
  let innerStart := m_index m + 1 in
  let innerEnd := innerStart + length inner in
  let cleaned := strip_mask inner in
  let starsAt := collectStarIndices inner in
  let decoded :=
    match decodeZlibBase64 pako cleaned with
    | Ok text => Some text
    | Fail _ => None
    end in
  let likely :=
    truthy decoded &&
    existsb (fun h => match decoded with
                      | Some d => includes d h
                      | None => false
                      end) HINTS in
  {| index := idx; quote := quote; innerStart := innerStart;
     innerEnd := innerEnd; original := inner; cleanedB64 := cleaned;
     starsAt := starsAt; decodedText := decoded; likely := likely |}.

(** The [while ((m = rx.exec(content)) !== null)] loop; [lastIndex] is the
    state of the global regular expression. Every match is at least 66
    characters long, so [lastIndex] grows and the fuel given by
    [parseBlocks] is never used up (see [exec_loop_fuel]). *)
Fixpoint exec_loop (fuel : nat) (content : jsstring) (lastIndex idx : nat)
  : list BlockMatch :=
  match fuel with
  | 0 => []
  | S fuel' =>
      match exec rx content lastIndex with
      | None => []
      | Some m => block_of idx m :: exec_loop fuel' content (m_end m) (S idx)
      end
  end.

Definition parseBlocks (content : jsstring) : list BlockMatch :=
  exec_loop (S (length content)) content 0 0.

(** What [onOpenFile] does with the blocks it found. *)
Inductive OpenOutcome :=
| NoBlocksFound                              (* toast "No blocks found" *)
| Opened (blk : BlockMatch) (txt : jsstring) (* block selected, text shown *)
| DecodeFailed.                              (* toast "Decode failed" *)

Definition select_block (found : list BlockMatch) : option BlockMatch :=
  let preferred := find (fun b => likely b && truthy (decodedText b)) found in
  match preferred with
  | Some b => Some b
  | None => find (fun b => truthy (decodedText b)) found
  end.

Definition open_found (found : list BlockMatch) : OpenOutcome :=
  match found with
  | [] => NoBlocksFound
  | _ :: _ =>
      match select_block found with
      | Some firstDecodable =>
          Opened firstDecodable
                 (match decodedText firstDecodable with
                  | Some txt => txt
                  | None => []
                  end)
      | None => DecodeFailed
      end
  end.

Definition onOpenFile (text : jsstring) : OpenOutcome :=
  open_found (parseBlocks text).
End Scanner.

(** ** Export *)

(** [/\.as$/i] *)
Definition rx_as : regex :=
  Cls (ceq 46%N) +++ Cls (ci 97%N) +++ Cls (ci 115%N) +++ Eos.

(** The download name; [replacement] is ["_edited.as"] in the wave editors
    and ["_env_edited.as"] in the environment editor, [generic] is ["waves"]
    or ["environment"]. *)
Definition suggested (replacement generic : string) (fileName : jsstring) : jsstring :=
  if endsWith fileName (str ".as") then replace_first rx_as (str replacement) fileName
  else (match fileName with [] => str generic | _ :: _ => fileName end)
         ++ str "_edited.as".

Definition suggested_wave : jsstring -> jsstring := suggested "_edited.as" "waves".
Definition suggested_env : jsstring -> jsstring := suggested "_env_edited.as" "environment".

(** The string surgery of [exportEdited]: the mask is put back on the new
    base64 text, which replaces [[innerStart, innerEnd)] of the file. *)
Definition splice (fileContent : jsstring) (blk : BlockMatch) (reB64 : jsstring) : jsstring :=
  let finalB64 :=
    match starsAt blk with
    | [] => reB64
    | _ :: _ => reinsertStars reB64 (starsAt blk)
    end in
  let before := firstn (innerStart blk) fileContent in
  let after := skipn (innerEnd blk) fileContent in
  before ++ finalB64 ++ after.

Inductive ExportOutcome :=
| NothingToExport                       (* toast "Nothing to export" *)
| NoSuchBlock                           (* silent return *)
| Exported (newContent name : jsstring).

Section ExportFile.
(** [pako.deflate] and [new TextEncoder().encode] *)
Variable deflate : bytes -> bytes.
Variable TextEncoder_encode : jsstring -> bytes.
(** [suggested_wave] or [suggested_env] *)
Variable name_of : jsstring -> jsstring.

Definition encodeZlibBase64 (text : jsstring) : bytes :=
  let utf8 := TextEncoder_encode text in
  let deflated := deflate utf8 in
  deflated.

Definition exportEdited (fileName fileContent : jsstring)
           (blocks : list BlockMatch) (selectedBlockIdx : option nat)
           (blockText : jsstring) : ExportOutcome :=
  match fileContent, selectedBlockIdx with
  | [], _ | _, None => NothingToExport
  | _ :: _, Some sel =>
      match find (fun b => index b =? sel) blocks with
      | None => NoSuchBlock
      | Some blk =>
          let deflated := encodeZlibBase64 blockText in
          let reB64 := bytesToBase64 deflated in
          Exported (splice fileContent blk reB64) (name_of fileName)
      end
  end.
End ExportFile.

(** ** A reference decompressor for stored blocks

    The compression library is a parameter of the codec. To run the codec on
    concrete files, this module gives the part of RFC 1950, 1951 and 1952
    that needs no Huffman decoding: streams made of stored blocks only, with
    nothing after the trailer.  On such a stream the library returns the same
    bytes; everywhere else these functions answer [None], which says nothing
    about the library. *)

Module Reference.
Local Open Scope N_scope.

Definition le16 (lo hi : N) : N := lo + 256 * hi.

Definition be32 (a b c d : N) : N := ((a * 256 + b) * 256 + c) * 256 + d.

(** Blocks with BTYPE = 00: a header byte, LEN, its complement NLEN and
    LEN literal bytes. Returns the output and what follows the final
    block. *)
Fixpoint stored_blocks (fuel : nat) (b : bytes) : option (bytes * bytes) :=
  match fuel with
  | O => None
  | S fuel' =>
      match b with
      | hdr :: l0 :: l1 :: n0 :: n1 :: rest =>
          let len := le16 l0 l1 in
          if ((hdr / 2) mod 4 =? 0) && (len + le16 n0 n1 =? 65535)
             && (N.to_nat len <=? length rest)%nat then
            let data := firstn (N.to_nat len) rest in
            let rest' := skipn (N.to_nat len) rest in
            if hdr mod 2 =? 1 then Some (data, rest')
            else
              match stored_blocks fuel' rest' with
              | Some (out, r) => Some (data ++ out, r)
              | None => None
              end
          else None
      | _ => None
      end
  end.

Definition stored (b : bytes) : option (bytes * bytes) :=
  stored_blocks (S (length b)) b.

Definition adler32 (data : bytes) : N :=
  let '(a, b) :=
    fold_left (fun '(a, b) x =>
                 let a' := (a + x) mod 65521 in (a', (b + a') mod 65521))
              data (1, 0) in
  b * 65536 + a.

Definition crc32_byte (crc x : N) : N :=
  Nat.iter 8 (fun c => if N.odd c then N.lxor (N.shiftr c 1) 0xEDB88320
                       else N.shiftr c 1)
           (N.lxor crc x).

Definition crc32 (data : bytes) : N :=
  N.lxor (fold_left crc32_byte data 0xFFFFFFFF) 0xFFFFFFFF.

Definition inflateRaw (b : bytes) : option bytes :=
  match stored b with
  | Some (out, []) => Some out
  | _ => None
  end.

(** RFC 1950: CMF and FLG (deflate, window up to 32K, no preset
    dictionary, check bits), the blocks, Adler-32 of the output. *)
Definition inflate (b : bytes) : option bytes :=
  match b with
  | cmf :: flg :: body =>
      if (cmf mod 16 =? 8) && (cmf / 16 <=? 7)
         && ((cmf * 256 + flg) mod 31 =? 0) && ((flg / 32) mod 2 =? 0) then
        match stored body with
        | Some (out, [a3; a2; a1; a0]) =>
            if be32 a3 a2 a1 a0 =? adler32 out then Some out else None
        | _ => None
        end
      else None
  | _ => None
  end.

(** RFC 1952 with FLG = 0: the ten byte header, the blocks, CRC-32 and
    length of the output. *)
Definition ungzip (b : bytes) : option bytes :=
  match b with
  | 0x1F :: 0x8B :: 8 :: 0 :: _ :: _ :: _ :: _ :: _ :: _ :: body =>
      match stored body with
      | Some (out, [c0; c1; c2; c3; s0; s1; s2; s3]) =>
          if (be32 c3 c2 c1 c0 =? crc32 out)
             && (be32 s3 s2 s1 s0 =? N.of_nat (length out) mod 4294967296)
          then Some out else None
      | _ => None
      end
  | _ => None
  end.

Definition pako : Pako :=
  Build_Pako inflate inflateRaw ungzip.
End Reference.

(** ** The wave parser *)

Fixpoint mapi_from (A B : Type) (i : nat) (f : A -> nat -> B) (l : list A) : list B :=
  match l with
  | [] => []
  | x :: l' => f x i :: mapi_from (S i) f l'
  end.

(** [l.map((x, i) => f(x, i))] *)
Definition mapi (A B : Type) (f : A -> nat -> B) (l : list A) : list B :=
  mapi_from 0 f l.

Module WaveParser.

Record Event := { index : nat; type : jsstring; content : jsstring }.

Record Wave := { w_index : nat; w_content : jsstring; events : list Event }.

Definition eventType (line : jsstring) : jsstring :=
  if includes line (str "AddBloon") then str "AddBloon"
  else if includes line (str "FollowBezier") then str "FollowBezier"
  else if includes line (str "CreateTrain") then str "CreateTrain"
  else str "Unknown".

(** [/^Wave\s*\d+/i] *)
Definition rx_wave : regex :=
  Bos +++ lit_i "Wave" +++ Rep 0 is_space +++ Rep 1 is_digit.

Definition isWaveStart (line : jsstring) (index : nat) : bool :=
  includes line (str "AddWave") ||
  includes line (str "CreateTrain") ||
  test rx_wave (trim line) ||
  (includes line (str "(") && includes line (str ")") && (index =? 0)).

Definition orphan_event (orphanLine : jsstring) (orphanIndex : nat) : Event :=
  {| index := orphanIndex; type := eventType orphanLine; content := orphanLine |}.

(** The three variables of the [forEach] loop. *)
Record LoopState := {
  waves : list Wave;
  currentWave : option Wave;
  orphanedLines : list jsstring
}.

Definition initial : LoopState :=
  {| waves := []; currentWave := None; orphanedLines := [] |}.

Definition is_null (A : Type) (o : option A) : bool :=
  match o with None => true | Some _ => false end.

(** The body of the [forEach] callback. *)
Definition step (st : LoopState) (line : jsstring) (index : nat) : LoopState :=
  if isWaveStart line index then
    let st1 :=
      if (0 <? length (orphanedLines st)) && is_null (currentWave st) then
        {| waves := waves st ++
                    [ {| w_index := length (waves st);
                         w_content := str "Wave " ++ decimal (length (waves st) + 1);
                         events := mapi orphan_event (orphanedLines st) |} ];
           currentWave := currentWave st;
           orphanedLines := [] |}
      else st in
    let waves2 :=
      match currentWave st1 with
      | Some w => waves st1 ++ [w]
      | None => waves st1
      end in
    {| waves := waves2;
       currentWave := Some {| w_index := length waves2; w_content := line; events := [] |};
       orphanedLines := orphanedLines st1 |}
  else
    match currentWave st with
    | Some w =>
        {| waves := waves st;
           currentWave :=
             Some {| w_index := w_index w; w_content := w_content w;
                     events := events w ++
                               [ {| index := length (events w);
                                    type := eventType line;
                                    content := line |} ] |};
           orphanedLines := orphanedLines st |}
    | None =>
        {| waves := waves st; currentWave := None;
           orphanedLines := orphanedLines st ++ [line] |}
    end.

Fixpoint forEach_from (i : nat) (lines : list jsstring) (st : LoopState) : LoopState :=
  match lines with
  | [] => st
  | line :: rest => forEach_from (S i) rest (step st line i)
  end.

(** What follows the loop. *)
Definition finish (st : LoopState) : list Wave :=
  let waves1 :=
    if (0 <? length (orphanedLines st)) && (length (waves st) =? 0)
       && is_null (currentWave st) then
      waves st ++ [ {| w_index := 0; w_content := str "Wave 1";
                       events := mapi orphan_event (orphanedLines st) |} ]
    else waves st in
  match currentWave st with
  | Some w => waves1 ++ [w]
  | None => waves1
  end.

Definition parse_lines (lines : list jsstring) : list Wave :=
  finish (forEach_from 0 lines initial).

Definition non_blank (line : jsstring) : bool :=
  match trim line with [] => false | _ :: _ => true end.

Definition parseWaves (decodedText : jsstring) : list Wave :=
  let lines := filter non_blank (split_lines decodedText) in
  parse_lines lines.

End WaveParser.

(** ** The declaration parser *)

Module EnvParser.

Inductive VarType := TString | TNumber | TBoolean | TArray | TObject.

Record EnvironmentVariable := {
  name : jsstring;
  value : jsstring;
  type : VarType;
  category : jsstring;
  rawLine : jsstring
}.

(** [\s*[:=]\s*(.+);?], the end of the three patterns *)
Definition tail : regex :=
  Rep 0 is_space +++ Cls (fun c => ceq c 58%N || ceq c 61%N) +++ Rep 0 is_space +++
  Grp 2 (Rep 1 is_dot) +++ Opt (Cls (ceq 59%N)).

Definition patterns : list regex :=
  [ alts [lit "var"; lit "const"; lit "let"] +++ Rep 1 is_space +++
      Grp 1 (Rep 1 is_word) +++ tail;               (* var/const/let declarations *)
    lit "this." +++ Grp 1 (Rep 1 is_word) +++ tail; (* this. assignments *)
    Grp 1 (Rep 1 is_word) +++ tail ].               (* general assignments *)

(** [/^(true|false)$/i] *)
Definition rx_boolean : regex :=
  Bos +++ Grp 1 (Alt (lit_i "true") (lit_i "false")) +++ Eos.

(** [/^-?\d+(\.\d+)?$/] *)
Definition rx_number : regex :=
  Bos +++ Opt (Cls (ceq 45%N)) +++ Rep 1 is_digit +++
  Opt (Grp 1 (Cls (ceq 46%N) +++ Rep 1 is_digit)) +++ Eos.

Definition type_of (cleanValue : jsstring) : VarType :=
  if test rx_boolean cleanValue then TBoolean
  else if test rx_number cleanValue then TNumber
  else if startsWith cleanValue (str "[") && endsWith cleanValue (str "]") then TArray
  else if startsWith cleanValue (str "{") && endsWith cleanValue (str "}") then TObject
  else TString.

Definition any_i (words : list string) : regex := alts (map lit_i words).

Definition category_of (name : jsstring) : jsstring :=
  if test (any_i ["speed"; "velocity"; "rate"; "time"; "delay"]%string) name
  then str "Performance"
  else if test (any_i ["color"; "rgb"; "hex"; "alpha"]%string) name
  then str "Visual"
  else if test (any_i ["sound"; "audio"; "volume"; "music"]%string) name
  then str "Audio"
  else if test (any_i ["width"; "height"; "size"; "scale"; "position"; "x"; "y"; "z"]%string) name
  then str "Layout"
  else if test (any_i ["health"; "damage"; "score"; "points"; "lives"]%string) name
  then str "Game"
  else if test (any_i ["debug"; "test"; "dev"; "log"]%string) name
  then str "Debug"
  else str "General".

(** [value.replace(/[;,]/g, '').trim()] *)
Definition cleanValue_of (value : jsstring) : jsstring :=
  trim (remove_all (fun c => ceq c 59%N || ceq c 44%N) value).

(** The [for (const pattern of patterns)] loop with its [break]. *)
Fixpoint first_match (ps : list regex) (trimmedLine : jsstring)
  : option EnvironmentVariable :=
  match ps with
  | [] => None
  | pattern :: ps' =>
      match exec pattern trimmedLine 0 with
      | Some m =>
          let name := group m 1 in
          let value := group m 2 in
          let cleanValue := cleanValue_of value in
          Some {| name := name; value := cleanValue; type := type_of cleanValue;
                  category := category_of name; rawLine := trimmedLine |}
      | None => first_match ps' trimmedLine
      end
  end.

(** The body of [lines.forEach]: the record the line adds, if any. *)
Definition parse_line (line : jsstring) : option EnvironmentVariable :=
  let trimmedLine := trim line in
  match trimmedLine with
  | [] => None
  | _ :: _ =>
      if startsWith trimmedLine (str "//") || startsWith trimmedLine (str "/*")
      then None
      else first_match patterns trimmedLine
  end.

Definition parseEnvironmentVariables (decodedText : jsstring)
  : list EnvironmentVariable :=
  let lines := split_lines decodedText in
  flat_map (fun line => match parse_line line with
                        | Some v => [v]
                        | None => []
                        end) lines.

(** [handleSaveVar] on the state [(environmentVars, editingVar)] *)
Definition handleSaveVar (environmentVars : list EnvironmentVariable)
           (editingVar : option EnvironmentVariable)
  : list EnvironmentVariable * option EnvironmentVariable :=
  match editingVar with
  | None => (environmentVars, editingVar)
  | Some e =>
      let newVars :=
        map (fun v => if seq_eqb (name v) (name e) then e else v) environmentVars in
      (newVars, None)
  end.

(** The text [exportEdited] rebuilds from the records. *)
Definition envText (environmentVars : list EnvironmentVariable) : jsstring :=
  join (str "
") (map (fun variable =>
             if includes (rawLine variable) (str "var ") then
               str "var " ++ name variable ++ str " = " ++ value variable ++ str ";"
             else if includes (rawLine variable) (str "const ") then
               str "const " ++ name variable ++ str " = " ++ value variable ++ str ";"
             else if includes (rawLine variable) (str "this.") then
               str "this." ++ name variable ++ str " = " ++ value variable ++ str ";"
             else name variable ++ str " = " ++ value variable ++ str ";")
          environmentVars).

End EnvParser.


(** ** Notions used to state the properties *)

(** A character that is neither whitespace nor the mask. *)
Definition plain (c : char) : bool := negb (is_space c || is_star c).

Definition no_space (c : char) : bool := negb (is_space c).

(** The longest prefix of characters of a class, and what follows it. *)
Fixpoint span (p : char -> bool) (s : jsstring) : jsstring * jsstring :=
  match s with
  | c :: t => if p c then let (a, r) := span p t in (c :: a, r) else ([], s)
  | [] => ([], [])
  end.

(** The text starts with a literal of the scanner: a quote, a run of at
    least 64 characters of [is_payload] that ends at the same quote.
    Returns the quote, the run and the text after the closing quote. *)
Definition literal_here (s : jsstring) : option (char * jsstring * jsstring) :=
  match s with
  | q :: t =>
      if is_quote q then
        let (inner, r) := span is_payload t in
        if 64 <=? length inner then
          match r with
          | q' :: r' => if ceq q q' then Some (q, inner, r') else None
          | [] => None
          end
        else None
      else None
  | [] => None
  end.

Fixpoint run_length (p : char -> bool) (s : jsstring) : nat :=
  match s with
  | c :: t => if p c then S (run_length p t) else 0
  | [] => 0
  end.

Fixpoint longest_run (p : char -> bool) (s : jsstring) : nat :=
  match s with
  | [] => 0
  | _ :: t => Nat.max (run_length p s) (longest_run p t)
  end.

(** A stretch of host text in which fewer than 64 characters of
    [is_payload] ever follow one another: no literal of the scanner starts
    in it, whatever quotes and short literals it holds. *)
Definition quiet (g : jsstring) : bool := longest_run is_payload g <? 64.

(** A payload literal followed by a quiet stretch. *)
Record Segment := { s_quote : char; s_inner : jsstring; s_gap : jsstring }.

Definition well_formed (seg : Segment) : bool :=
  is_quote (s_quote seg) && forallb is_payload (s_inner seg) &&
  (64 <=? length (s_inner seg)) && quiet (s_gap seg).

Definition render (seg : Segment) : jsstring :=
  s_quote seg :: s_inner seg ++ s_quote seg :: s_gap seg.

(** Host text: a quiet stretch, then payload literals, each followed by a
    quiet stretch. *)
Definition host (g0 : jsstring) (segs : list Segment) : jsstring :=
  g0 ++ flat_map render segs.

(** The first framing, in the order of [tries], that does not throw. *)
Definition first_inflated (pako : Pako) (b : bytes) : option bytes :=
  match inflate pako b with
  | Some out => Some out
  | None =>
      match inflateRaw pako b with
      | Some out => Some out
      | None => ungzip pako b
      end
  end.

(** The body of the loop of [reinsertStars]. *)
Definition ins (arr : jsstring) (pos : nat) : jsstring := splice_insert pos star arr.

(** What [exec] returns for a literal at offset [pos]. *)
Definition rx_result (pos : nat) (q : char) (inner : jsstring) : MatchResult :=
  {| m_index := pos; m_end := pos + length inner + 2;
     m_groups := [(2, inner); (3, inner); (1, [q])] |}.

(** The block is a literal of the file: its fields are the quote, the
    offsets and the content of a quoted run of at least 64 characters of
    [is_payload], together with the clean form and the mask of that run. *)
Definition scanned (content : jsstring) (b : BlockMatch) : Prop :=
  exists pre q rest,
    content = pre ++ q :: original b ++ q :: rest /\
    is_quote q = true /\ quote b = [q] /\
    forallb is_payload (original b) = true /\ 64 <= length (original b) /\
    innerStart b = length pre + 1 /\
    innerEnd b = innerStart b + length (original b) /\
    cleanedB64 b = strip_mask (original b) /\
    starsAt b = collectStarIndices (original b).


(** ** Sample files

    The payload of these files is the zlib stream, in one stored block, of
    the four lines [CreateTrain(1)], [AddBloon(Red)], [AddWave(2)] and
    [AddBloon(Blue)]. *)

(** The payload on one line, with two mask characters. *)
Definition sample_masked : jsstring :=
  str "data = 'eAEB*NgDJ/0NyZWF0ZVRyYWluKDEpCkFkZEJsb29uKFJlZCkKQWRkV2F2ZSgyKQpBZGRCbG9vbihCbHVlKeWJEV0=*';".

(** The same payload broken over two lines, without mask. *)
Definition sample_wrapped : jsstring :=
  str "data = 'eAEBNgDJ/0NyZWF0ZVRyYWluKDEpCkFkZEJsb29uKFJl
ZCkKQWRkV2F2ZSgyKQpBZGRCbG9vbihCbHVlKeWJEV0=';".


(** Two short literals joined by [+], with sixty-three spaces around it. *)
Definition sample_gap : jsstring :=
  str "x = 'a'                               +                                'b';".

(** The block of [sample_masked]. *)
Definition sample_block : BlockMatch :=
  block_of Reference.pako WAVY_HINTS 0
           (rx_result 7 39%N
              (str "eAEB*NgDJ/0NyZWF0ZVRyYWluKDEpCkFkZEJsb29uKFJlZCkKQWRkV2F2ZSgyKQpBZGRCbG9vbihCbHVlKeWJEV0=*")).

(** A file whose only payload is the zlib stream of the empty text (nine
    empty stored blocks). *)
Definition sample_empty : jsstring :=
  str "waves = 'eAEAAAD//wAAAP//AAAA//8AAAD//wAAAP//AAAA//8AAAD//wAAAP//AQAA//8AAAAB';".

(** A file of the environment editor: the payload is the zlib stream of
    three declarations. *)
Definition sample_env : jsstring :=
  str "env = 'eAEBNgDJ/3ZhciBzcGVlZCA9IDM7CnRoaXMuZGVidWcgPSB0cnVlOwpjb25zdCBzaXplcyA9IFsxLDJdO+joEVM=';".

(** A file whose payload is the zlib stream of three lines in Latin-1: the
    byte E9 of the second line is not valid UTF-8. *)
Definition sample_latin1 : jsstring :=
  str "waves = 'eAEBKwDU/0NyZWF0ZVRyYWluKDEpCkFkZEJsb29uKENhZukpCkFkZEJsb29uKFJlZClEqQ6f';".

(** The four lines of the wave example. *)
Definition sample_lines : list jsstring :=
  [str "CreateTrain(1)"; str "AddBloon(Red)"; str "AddWave(2)"; str "AddBloon(Blue)"].

(** Two declaration records and an edited copy of the first, renamed. *)
Definition sample_vars : list EnvParser.EnvironmentVariable :=
  EnvParser.parseEnvironmentVariables (str "var speed = 3;
this.debug = true;").

Definition sample_renamed : EnvParser.EnvironmentVariable :=
  {| EnvParser.name := str "pace"; EnvParser.value := str "4";
     EnvParser.type := EnvParser.TNumber; EnvParser.category := str "Performance";
     EnvParser.rawLine := str "var speed = 3;" |}.

(** ** Further notions *)

(** [[A-Za-z0-9+/=]] *)
Definition is_base64 (c : char) : bool :=
  is_upper c || is_lower c || is_digit c || ceq c 43%N || ceq c 47%N || ceq c 61%N.

(** Consecutive blocks are apart: the first ends, with its closing quote,
    before the opening quote of the second. *)
Definition apart (a b : BlockMatch) : Prop := innerEnd a + 2 <= innerStart b.

(** The loop of [bytesToBase64]: the binary string grows by chunks of
    [chunkSize] bytes. [String.fromCharCode] keeps the low 16 bits of each
    code. *)
Definition subarray (b : bytes) (i j : nat) : bytes := firstn (j - i) (skipn i b).

Definition fromCharCode (codes : list N) : jsstring :=
  map (fun n => (n mod 65536)%N) codes.

Fixpoint chunk_loop (fuel chunkSize : nat) (b : bytes) (i : nat) (binary : jsstring)
  : jsstring :=
  match fuel with
  | 0 => binary
  | S fuel' =>
      if i <? length b then
        let chunk := subarray b i (i + chunkSize) in
        chunk_loop fuel' chunkSize b (i + chunkSize) (binary ++ fromCharCode chunk)
      else binary
  end.

(** [0x8000] *)
Definition chunkSize : nat := N.to_nat 32768%N.

(** The binary string [bytesToBase64] hands to [btoa]; the loop runs at
    most once per byte. *)
Definition binary_string (b : bytes) : jsstring :=
  chunk_loop (S (length b)) chunkSize b 0 [].

(** An element of a [Uint8Array]. *)
Definition is_byte (x : N) : bool := (x <? 256)%N.

(** The sextets and the padding [btoa] writes. *)
Fixpoint sextets_of (b : bytes) : list N :=
  match b with
  | x :: y :: z :: b' =>
      let n := (x * 65536 + y * 256 + z)%N in
      (n / 262144)%N :: ((n / 4096) mod 64)%N :: ((n / 64) mod 64)%N ::
      (n mod 64)%N :: sextets_of b'
  | [x; y] =>
      let n := (x * 1024 + y * 4)%N in
      [(n / 4096)%N; ((n / 64) mod 64)%N; (n mod 64)%N]
  | [x] =>
      let n := (x * 16)%N in
      [(n / 64)%N; (n mod 64)%N]
  | [] => []
  end.

Fixpoint padding_of (b : bytes) : jsstring :=
  match b with
  | _ :: _ :: _ :: b' => padding_of b'
  | [_; _] => [61%N]
  | [_] => [61%N; 61%N]
  | [] => []
  end.

(** ** Lines of the raw editor *)

(** The text without the CR of its CR LF pairs. *)
Fixpoint normalize_newlines (s : jsstring) : jsstring :=
  match s with
  | [] => []
  | c :: s' =>
      if ceq c 13%N then
        match s' with
        | d :: _ => if ceq d 10%N then normalize_newlines s'
                    else c :: normalize_newlines s'
        | [] => [c]
        end
      else c :: normalize_newlines s'
  end.

(** A character that is neither LF nor CR. *)
Definition no_break (c : char) : bool := negb (ceq c 10%N) && negb (ceq c 13%N).

(** [next[i] = x] on the copy [next] of an array of strings. Writing past
    the end leaves holes before [x]; they stand here as empty strings, which
    is how [join] reads them. *)
Fixpoint array_set (arr : list jsstring) (i : nat) (x : jsstring) : list jsstring :=
  match arr, i with
  | _ :: t, 0 => x :: t
  | [], 0 => [x]
  | a :: t, S i' => a :: array_set t i' x
  | [], S i' => [] :: array_set [] i' x
  end.

(** [applyLineEdit]: the block text it sets, or [None] when no line is
    selected and it returns at once. *)
Definition applyLineEdit (lines : list jsstring) (selectedLine : option nat)
           (lineDraft : jsstring) : option jsstring :=
  match selectedLine with
  | None => None
  | Some i =>
      let next := array_set lines i lineDraft in
      let joined := join [10%N] next in
      Some joined
  end.

(** ** Editing and exporting waves *)

Module WaveEdit.
Import WaveParser.

(** The lines a list of waves stands for: each header, then its events. *)
Definition wave_lines (waves : list Wave) : list jsstring :=
  flat_map (fun wave => w_content wave :: map content (events wave)) waves.

(** The text [exportEdited] rebuilds from the waves. *)
Definition waveText (waves : list Wave) : jsstring :=
  join [10%N]
       (map (fun wave =>
               let waveLines := w_content wave :: map content (events wave) in
               join [10%N] waveLines)
            waves).

(** [l[i] = f(l[i])] for an index in range. *)
Fixpoint list_update (A : Type) (l : list A) (i : nat) (f : A -> A) : list A :=
  match l, i with
  | [], _ => []
  | x :: t, 0 => f x :: t
  | x :: t, S i' => x :: list_update t i' f
  end.

Inductive EditOutcome :=
| NoSelection                       (* silent return *)
| Updated (newWaves : list Wave)    (* setWaves(newWaves) *)
| Threw.                            (* TypeError: the wave or the event is undefined *)

(** [handleApplyEventEdit]: the assignment
    [newWaves[selectedWaveIndex].events[selectedEventIndex].content = eventDraft].
    [newWaves] is a shallow copy: the event that is written is shared with
    the old array, so [Updated] carries the waves as both arrays show them
    after the assignment. *)
Definition handleApplyEventEdit (waves : list Wave)
           (selectedWaveIndex selectedEventIndex : option nat)
           (eventDraft : jsstring) : EditOutcome :=
  match selectedWaveIndex, selectedEventIndex with
  | None, _ | _, None => NoSelection
  | Some i, Some j =>
      match nth_error waves i with
      | None => Threw
      | Some wave =>
          match nth_error (events wave) j with
          | None => Threw
          | Some _ =>
              Updated
                (list_update waves i
                   (fun w =>
                      {| w_index := w_index w; w_content := w_content w;
                         events :=
                           list_update (events w) j
                             (fun e => {| index := index e; type := type e;
                                          content := eventDraft |}) |}))
          end
      end
  end.

(** [handleSelectEvent]: the draft it sets,
    [waves[selectedWaveIndex]?.events[index]?.content || ""]. *)
Definition handleSelectEvent (waves : list Wave) (selectedWaveIndex : option nat)
           (index : nat) : jsstring :=
  match selectedWaveIndex with
  | None => []
  | Some i =>
      match nth_error waves i with
      | None => []
      | Some wave =>
          match nth_error (events wave) index with
          | None => []
          | Some selectedEvent => content selectedEvent
          end
      end
  end.

(** A line with one of the two wave keywords. *)
Definition start_word (line : jsstring) : bool :=
  includes line (str "AddWave") || includes line (str "CreateTrain").

Definition event_ok (e : Event) : Prop :=
  type e = eventType (content e) /\ start_word (content e) = false.

Definition wave_ok (w : Wave) : Prop :=
  map index (events w) = seq 0 (length (events w)) /\ Forall event_ok (events w).

(** The lines the waves of a text stand for: the lines themselves, under
    the header [Wave 1] when the first line opens no wave. *)
Definition expected_lines (lines : list jsstring) : list jsstring :=
  match lines with
  | [] => []
  | l0 :: _ => if isWaveStart l0 0 then lines else str "Wave 1" :: lines
  end.

(** What the loop of [parseWaves] keeps true after the lines [processed]. *)
Definition Inv (processed : list jsstring) (st : LoopState) : Prop :=
  match currentWave st with
  | None =>
      waves st = [] /\ orphanedLines st = processed /\
      Forall (fun l => start_word l = false) processed /\
      match processed with
      | l0 :: _ => isWaveStart l0 0 = false
      | [] => True
      end
  | Some w =>
      orphanedLines st = [] /\
      map w_index (waves st ++ [w]) = seq 0 (length (waves st ++ [w])) /\
      Forall wave_ok (waves st ++ [w]) /\
      wave_lines (waves st ++ [w]) = expected_lines processed
  end.

(** The state of the loop of [parseWaves] had the line [Wave 1] come
    first: the lines kept aside are the events of that wave. *)
Definition adopted (st : LoopState) : LoopState :=
  match currentWave st with
  | None =>
      {| waves := [];
         currentWave := Some {| w_index := 0; w_content := str "Wave 1";
                                events := mapi orphan_event (orphanedLines st) |};
         orphanedLines := [] |}
  | Some _ => st
  end.

(** While no wave is open, no wave is closed either and some line is kept
    aside. *)
Definition waiting (st : LoopState) : Prop :=
  currentWave st = None -> waves st = [] /\ orphanedLines st <> [].

(** The lines that open a wave, [i] being the index of the first line. *)
Fixpoint wave_starts_from (i : nat) (lines : list jsstring) : list jsstring :=
  match lines with
  | [] => []
  | line :: rest =>
      if isWaveStart line i then line :: wave_starts_from (S i) rest
      else wave_starts_from (S i) rest
  end.

End WaveEdit.

(** ** Reopening an exported file *)

(** The blocks of a host text, read off its literals: [idx] is the number
    of the first block and [pos] the offset of its opening quote. *)
Fixpoint host_blocks (pako : Pako) (HINTS : list jsstring) (idx pos : nat)
         (segs : list Segment) : list BlockMatch :=
  match segs with
  | [] => []
  | seg :: rest =>
      block_of pako HINTS idx (rx_result pos (s_quote seg) (s_inner seg))
      :: host_blocks pako HINTS (S idx) (pos + length (render seg)) rest
  end.

(** The block after the text before it changed in length: what was at
    offset [from] is at offset [to]. *)
Definition rebase (from to : nat) (b : BlockMatch) : BlockMatch :=
  {| index := index b; quote := quote b;
     innerStart := innerStart b - from + to;
     innerEnd := innerEnd b - from + to;
     original := original b; cleanedB64 := cleanedB64 b; starsAt := starsAt b;
     decodedText := decodedText b; likely := likely b |}.

(** Two payload literals, the first with a mask, and new base64 text for
    the first. *)
Definition sample_segments : list Segment :=
  [ {| s_quote := 39%N;
       s_inner := str "eAEB*NgDJ/0NyZWF0ZVRyYWluKDEpCkFkZEJsb29uKFJlZCkKQWRkV2F2ZSgyKQpBZGRCbG9vbihCbHVlKeWJEV0=*";
       s_gap := str "; env = " |};
    {| s_quote := 34%N;
       s_inner := str "eAEBNgDJ/3ZhciBzcGVlZCA9IDM7CnRoaXMuZGVidWcgPSB0cnVlOwpjb25zdCBzaXplcyA9IFsxLDJdO+joEVM=";
       s_gap := str ";" |} ].

Definition sample_reB64 : jsstring :=
  str "eAEAAAD//wAAAP//AAAA//8AAAD//wAAAP//AAAA//8AAAD//wAAAP//AQAA//8AAAAB".

(** ** The declarative reading of patterns *)

(** The declarative reading of a pattern: [sem r pos g w rest g'] says that
    [r], at offset [pos] and with the captures [g], can match [w] in front
    of [rest] and leave the captures [g']. *)
Fixpoint sem (r : regex) (pos : nat) (g : captures) (w rest : jsstring)
         (g' : captures) : Prop :=
  match r with
  | Eps => w = [] /\ g' = g
  | Cls p => (exists c, w = [c] /\ p c = true) /\ g' = g
  | Cat r1 r2 =>
      exists w1 w2 g1,
        w = w1 ++ w2 /\ sem r1 pos g w1 (w2 ++ rest) g1 /\
        sem r2 (pos + length w1) g1 w2 rest g'
  | Alt r1 r2 => sem r1 pos g w rest g' \/ sem r2 pos g w rest g'
  | Opt r1 => sem r1 pos g w rest g' \/ (w = [] /\ g' = g)
  | Rep min p => (min <= length w /\ forallb p w = true) /\ g' = g
  | Grp n r1 => exists g1, sem r1 pos g w rest g1 /\ g' = (n, w) :: g1
  | Ref n =>
      match get_cap n g with Some v => w = v | None => w = [] end /\ g' = g
  | Bos => (pos = 0 /\ w = []) /\ g' = g
  | Eos => (w = [] /\ rest = []) /\ g' = g
  end.

(** ** Declarations and their export *)

Module EnvEdit.
Import EnvParser.

(** A declaration inside a line: the name, the sign [:] or [=] and the raw
    value, as the three patterns capture them. *)
Definition declares (line name raw : jsstring) : Prop :=
  exists pre ws1 c ws2 post,
    line = pre ++ name ++ ws1 ++ c :: ws2 ++ raw ++ post /\
    name <> [] /\ forallb is_word name = true /\
    forallb is_space ws1 = true /\ (c = 58%N \/ c = 61%N) /\
    forallb is_space ws2 = true /\
    raw <> [] /\ forallb is_dot raw = true.

(** What the three patterns share, and the first of them. *)
Definition core : regex := Grp 1 (Rep 1 is_word) +++ tail.

Definition declaration : regex :=
  alts [lit "var"; lit "const"; lit "let"] +++ Rep 1 is_space +++ core.

(** A name and a value as the parser leaves them. *)
Definition clean (v : EnvironmentVariable) : Prop :=
  name v <> [] /\ forallb is_word (name v) = true /\
  trim (value v) = value v /\
  forallb (fun c => is_dot c && negb (ceq c 59%N) && negb (ceq c 44%N))
          (value v) = true /\
  type v = type_of (value v) /\ category v = category_of (name v).

(** The line [exportEdited] writes for a record. *)
Definition export_line (variable : EnvironmentVariable) : jsstring :=
  envText [variable].

(** The record is exported with [var] or with [const]. *)
Definition keyworded (v : EnvironmentVariable) : bool :=
  includes (rawLine v) (str "var ") || includes (rawLine v) (str "const ").

(** The record as it is read back from its exported line. *)
Definition reread (v : EnvironmentVariable) : EnvironmentVariable :=
  {| name := name v; value := value v; type := type v; category := category v;
     rawLine := export_line v |}.

End EnvEdit.

(** * Properties *)

(** ** Characters and strings *)

Lemma ceq_eq (a b : char) : ceq a b = true <-> a = b.
Proof. unfold ceq. apply N.eqb_eq. Qed.

Lemma ceq_refl (a : char) : ceq a a = true.
Proof. apply ceq_eq. reflexivity. Qed.

Lemma seq_eqb_eq (a b : jsstring) : seq_eqb a b = true <-> a = b.
Proof.
  revert b. induction a as [|x a IH]; intros [|y b]; simpl; split;
    try congruence; try reflexivity.
  - intros H. apply andb_true_iff in H as [H1 H2].
    apply ceq_eq in H1. apply IH in H2. congruence.
  - intros H. injection H as -> ->.
    rewrite ceq_refl. simpl. apply IH. reflexivity.
Qed.

(** ** The mask *)

Lemma plain_not_star (c : char) : plain c = true -> is_star c = false.
Proof. unfold plain. destruct (is_space c), (is_star c); simpl; congruence. Qed.

Lemma plain_not_space (c : char) : plain c = true -> is_space c = false.
Proof. unfold plain. destruct (is_space c), (is_star c); simpl; congruence. Qed.

Lemma star_not_space : is_space star = false.
Proof. reflexivity. Qed.

Lemma strip_mask_app (a b : jsstring) :
  strip_mask (a ++ b) = strip_mask a ++ strip_mask b.
Proof. unfold strip_mask, remove_all. apply filter_app. Qed.

Lemma strip_mask_plain (s : jsstring) :
  forallb plain s = true -> strip_mask s = s.
Proof.
  unfold strip_mask, remove_all.
  induction s as [|c s IH]; simpl; [reflexivity|].
  intros H. apply andb_true_iff in H as [Hc Hs].
  unfold plain in Hc. rewrite Hc. f_equal. auto.
Qed.

Lemma collect_plain (k : nat) (s : jsstring) :
  forallb plain s = true -> collectStarIndices_from k s = [].
Proof.
  revert k. induction s as [|c s IH]; simpl; intros k H; [reflexivity|].
  apply andb_true_iff in H as [Hc Hs].
  rewrite (plain_not_star _ Hc), (plain_not_space _ Hc). auto.
Qed.

Lemma collect_app (k : nat) (a b : jsstring) :
  collectStarIndices_from k (a ++ b) =
  collectStarIndices_from k a ++
  collectStarIndices_from (k + length (strip_mask a)) b.
Proof.
  revert k. induction a as [|c a IH]; simpl; intros k.
  - now rewrite Nat.add_0_r.
  - unfold strip_mask, remove_all in *. simpl.
    destruct (is_star c) eqn:Hs.
    + rewrite orb_true_r. simpl. now rewrite IH.
    + destruct (is_space c) eqn:Hw; simpl.
      * apply IH.
      * rewrite IH. simpl. now rewrite Nat.add_succ_r.
Qed.

Lemma forallb_firstn (A : Type) (p : A -> bool) (n : nat) (l : list A) :
  forallb p l = true -> forallb p (firstn n l) = true.
Proof.
  revert n. induction l as [|x l IH]; intros [|n]; simpl; auto.
  intros H. apply andb_true_iff in H as [-> H]. simpl. auto.
Qed.

Lemma forallb_skipn (A : Type) (p : A -> bool) (n : nat) (l : list A) :
  forallb p l = true -> forallb p (skipn n l) = true.
Proof.
  revert n. induction l as [|x l IH]; intros [|n]; simpl; auto.
  intros H. apply andb_true_iff in H as [_ H]. auto.
Qed.

(** Inserting at decreasing offsets of a plain text [A] builds a masked
    text whose clean form is [A] and whose mask offsets are those offsets
    in increasing order; what follows [A] is left alone. *)
Lemma insert_descending (D : list nat) :
  forall A B : jsstring,
    forallb plain A = true ->
    StronglySorted ge D ->
    Forall (fun d => d <= length A) D ->
    exists M, fold_left ins D (A ++ B) = M ++ B /\
              strip_mask M = A /\
              collectStarIndices_from 0 M = rev D.
Proof.
  induction D as [|d D IH]; intros A B HA Hs Hb.
  - exists A. simpl. repeat split; auto using strip_mask_plain, collect_plain.
  - inversion Hs as [|? ? Hs' Hge]; subst. inversion Hb as [|? ? Hd Hb']; subst.
    simpl. unfold ins at 2. unfold splice_insert.
    rewrite firstn_app, skipn_app.
    replace (d - length A) with 0 by lia. simpl. rewrite app_nil_r.
    destruct (IH (firstn d A) (star :: skipn d A ++ B)) as (M & HM & Hc & Hi).
    + now apply forallb_firstn.
    + exact Hs'.
    + rewrite length_firstn. rewrite Forall_forall in *. intros x Hx.
      specialize (Hge x Hx). specialize (Hb' x Hx). lia.
    + exists (M ++ star :: skipn d A). repeat split.
      * rewrite <- app_assoc. simpl. exact HM.
      * rewrite strip_mask_app, Hc.
        change (strip_mask (star :: skipn d A)) with (strip_mask (skipn d A)).
        rewrite strip_mask_plain by now apply forallb_skipn.
        apply firstn_skipn.
      * rewrite collect_app, Hi, Hc. simpl.
        rewrite collect_plain by now apply forallb_skipn.
        rewrite length_firstn. now replace (Nat.min d (length A)) with d by lia.
Qed.

Lemma insert_desc_last (x : nat) (l : list nat) :
  Forall (fun y => x <= y) l -> insert_desc x l = l ++ [x].
Proof.
  induction l as [|y l IH]; simpl; intros H; [reflexivity|].
  inversion H; subst.
  destruct (y <? x) eqn:E; [apply Nat.ltb_lt in E; lia|].
  f_equal. auto.
Qed.

Lemma sort_desc_ascending (l : list nat) :
  StronglySorted le l -> sort_desc l = rev l.
Proof.
  induction 1 as [|x l Hs IH Hx]; simpl; [reflexivity|].
  rewrite IH. apply insert_desc_last.
  rewrite Forall_forall in *. intros y Hy. apply Hx. now apply in_rev.
Qed.

Lemma insert_desc_sorted (x : nat) (l : list nat) :
  StronglySorted ge l -> StronglySorted ge (insert_desc x l).
Proof.
  induction 1 as [|y l Hs IH Hy]; simpl.
  - repeat constructor.
  - destruct (y <? x) eqn:E.
    + apply Nat.ltb_lt in E. constructor; [now constructor|].
      constructor; [lia|]. rewrite Forall_forall in *. intros z Hz.
      specialize (Hy z Hz). lia.
    + apply Nat.ltb_ge in E. constructor; [exact IH|].
      clear IH Hs. induction l as [|z l IHl]; simpl.
      * constructor; [lia|constructor].
      * inversion Hy; subst. destruct (z <? x); repeat constructor; auto; lia.
Qed.

Lemma sort_desc_sorted (l : list nat) : StronglySorted ge (sort_desc l).
Proof.
  induction l as [|x l IH]; simpl; [constructor|]. now apply insert_desc_sorted.
Qed.

Lemma insert_desc_In (x y : nat) (l : list nat) :
  In y (insert_desc x l) <-> y = x \/ In y l.
Proof.
  induction l as [|z l IH]; simpl.
  - intuition.
  - destruct (z <? x); simpl; rewrite ?IH; intuition.
Qed.

Lemma sort_desc_In (y : nat) (l : list nat) : In y (sort_desc l) <-> In y l.
Proof.
  induction l as [|x l IH]; simpl; [tauto|].
  rewrite insert_desc_In, IH. intuition.
Qed.

Lemma reinsertStars_fold (S : jsstring) (P : list nat) :
  reinsertStars S P =
  fold_left ins (sort_desc (filter (fun n => n <=? length S) P)) S.
Proof. destruct P; reflexivity. Qed.

(** On a plain text, [reinsertStars] yields a text whose clean form is the
    text itself and whose mask offsets are the offsets that fit, in
    increasing order. *)
Lemma strip_reinsert (S : jsstring) (P : list nat) :
  forallb plain S = true ->
  strip_mask (reinsertStars S P) = S /\
  collectStarIndices (reinsertStars S P) =
  rev (sort_desc (filter (fun n => n <=? length S) P)).
Proof.
  intros HS. rewrite reinsertStars_fold.
  destruct (@insert_descending
              (sort_desc (filter (fun n => n <=? length S) P)) S [] HS)
    as (M & HM & Hc & Hi).
  - apply sort_desc_sorted.
  - rewrite Forall_forall. intros d Hd. apply (proj1 (sort_desc_In _ _)) in Hd.
    apply filter_In in Hd as [_ Hd]. now apply Nat.leb_le.
  - rewrite !app_nil_r in HM. rewrite HM. auto.
Qed.

Lemma filter_all (A : Type) (p : A -> bool) (l : list A) :
  Forall (fun x => p x = true) l -> filter p l = l.
Proof.
  induction 1 as [|x l Hx _ IH]; simpl; [reflexivity|]. now rewrite Hx, IH.
Qed.


Lemma collect_bounds (k : nat) (s : jsstring) :
  Forall (fun n => k <= n <= k + length (strip_mask s))
         (collectStarIndices_from k s).
Proof.
  revert k. induction s as [|c s IH]; simpl; intros k; [constructor|].
  unfold strip_mask, remove_all in *. simpl.
  destruct (is_star c) eqn:Hs.
  - rewrite orb_true_r. simpl. constructor; [lia|apply IH].
  - destruct (is_space c) eqn:Hw; simpl; [apply IH|].
    eapply Forall_impl; [|apply IH]. simpl. intros n Hn. lia.
Qed.

Lemma collect_sorted (k : nat) (s : jsstring) :
  StronglySorted le (collectStarIndices_from k s).
Proof.
  revert k. induction s as [|c s IH]; simpl; intros k; [constructor|].
  destruct (is_star c).
  - constructor; [apply IH|].
    eapply Forall_impl; [|apply collect_bounds]. simpl. intros n Hn. lia.
  - destruct (is_space c); apply IH.
Qed.

(** Putting the mask of a text without whitespace back on its clean form,
    from the last offset to the first, rebuilds the text. *)
Lemma rebuild_from_mask (s : jsstring) :
  forall pre : jsstring,
    forallb no_space s = true ->
    fold_left ins (rev (collectStarIndices_from (length pre) s))
              (pre ++ strip_mask s) = pre ++ s.
Proof.
  induction s as [|c s IH]; intros pre H; simpl; [reflexivity|].
  apply andb_true_iff in H as [Hc Hs].
  unfold no_space in Hc. apply negb_true_iff in Hc.
  unfold strip_mask, remove_all in *. simpl. rewrite Hc. simpl.
  destruct (is_star c) eqn:Hst; simpl.
  - rewrite fold_left_app, IH by assumption. simpl.
    unfold ins, splice_insert.
    rewrite firstn_app, skipn_app, firstn_all, skipn_all, Nat.sub_diag.
    simpl. rewrite app_nil_r.
    apply ceq_eq in Hst. now subst c.
  - specialize (IH (pre ++ [c]) Hs).
    rewrite length_app in IH. simpl in IH. rewrite Nat.add_1_r in IH.
    rewrite <- !app_assoc in IH. exact IH.
Qed.

Lemma reinsert_own_mask (s : jsstring) :
  forallb no_space s = true ->
  reinsertStars (strip_mask s) (collectStarIndices s) = s.
Proof.
  intros H. rewrite reinsertStars_fold. unfold collectStarIndices.
  rewrite filter_all.
  - rewrite sort_desc_ascending by apply collect_sorted.
    apply (rebuild_from_mask s [] H).
  - eapply Forall_impl; [|apply collect_bounds]. simpl.
    intros n Hn. apply Nat.leb_le. lia.
Qed.


(** C6, as the code has it. For a text [S] that holds neither whitespace nor
    the mask character: whatever offsets [P] are given, the clean form of
    [reinsertStars S P] is [S] and its mask offsets are the offsets of [P]
    that do not exceed the length of [S], in increasing order (the others
    are dropped); when [P] is increasing and all its offsets are at most
    the length of [S], stripping gives back [(S, P)]. For every text,
    [reinsertStars] inserts at the offsets sorted from highest to lowest
    and is the identity when [P] is empty. *)
Theorem mask_round_trip :
  (forall (S : jsstring) (P : list nat),
      forallb plain S = true ->
      strip_mask (reinsertStars S P) = S /\
      collectStarIndices (reinsertStars S P) =
      rev (sort_desc (filter (fun n => n <=? length S) P))) /\
  (forall (S : jsstring) (P : list nat),
      forallb plain S = true ->
      StronglySorted le P ->
      Forall (fun n => n <= length S) P ->
      (strip_mask (reinsertStars S P), collectStarIndices (reinsertStars S P))
      = (S, P)) /\
  (forall (S : jsstring) (P : list nat),
      let sorted := sort_desc (filter (fun n => n <=? length S) P) in
      reinsertStars S P =
      fold_left (fun arr pos => splice_insert pos star arr) sorted S /\
      StronglySorted ge sorted /\
      (forall n, In n sorted <-> In n P /\ n <= length S)) /\
  (forall S : jsstring, reinsertStars S [] = S).
Proof.
  split; [|split; [|split]].
  - intros S P HS. now apply strip_reinsert.
  - intros S P HS Hsorted Hvalid.
    destruct (strip_reinsert S P HS) as [-> ->].
    rewrite filter_all.
    + now rewrite sort_desc_ascending, rev_involutive.
    + eapply Forall_impl; [|exact Hvalid]. simpl. intros n Hn. now apply Nat.leb_le.
  - intros S P sorted. split; [apply reinsertStars_fold|]. split.
    + apply sort_desc_sorted.
    + intros n. unfold sorted. rewrite sort_desc_In, filter_In, Nat.leb_le. tauto.
  - reflexivity.
Qed.

Lemma mask_round_trip_witness :
  (strip_mask (reinsertStars (str "QUJD") [1; 1; 4]),
   collectStarIndices (reinsertStars (str "QUJD") [1; 1; 4]))
  = (str "QUJD", [1; 1; 4]).
Proof.
  apply (proj1 (proj2 mask_round_trip) (str "QUJD") [1; 1; 4]).
  - reflexivity.
  - repeat constructor.
  - repeat constructor.
Defined.

(** C6 as stated fails on a text that already holds the mask character:
    with no offsets at all [reinsertStars] returns the text unchanged, and
    stripping it removes its mask character and reports an offset. *)
Lemma mask_round_trip_needs_plain_text :
  (strip_mask (reinsertStars (str "a*b") []),
   collectStarIndices (reinsertStars (str "a*b") []))
  = (str "ab", [1]) /\
  (strip_mask (reinsertStars (str "a*b") []),
   collectStarIndices (reinsertStars (str "a*b") []))
  <> (str "a*b", []).
Proof. split; [reflexivity|discriminate]. Qed.

(** ** The pattern of the scanner *)

Lemma span_spec (p : char -> bool) (s : jsstring) :
  s = fst (span p s) ++ snd (span p s) /\
  forallb p (fst (span p s)) = true /\
  match snd (span p s) with c :: _ => p c = false | [] => True end.
Proof.
  induction s as [|c s IH]; simpl; [auto|].
  destruct (p c) eqn:Hc.
  - destruct (span p s) as [a r]. simpl in *.
    destruct IH as (H1 & H2 & H3). rewrite Hc. repeat split; auto. now f_equal.
  - simpl. rewrite Hc. auto.
Qed.

Lemma span_stop (p : char -> bool) (a r : jsstring) :
  forallb p a = true ->
  match r with c :: _ => p c = false | [] => True end ->
  span p (a ++ r) = (a, r).
Proof.
  induction a as [|c a IH]; simpl; intros Ha Hr.
  - destruct r as [|c r]; simpl; [reflexivity|]. now rewrite Hr.
  - apply andb_true_iff in Ha as [-> Ha]. now rewrite IH.
Qed.

(** When the rest of the pattern cannot start with a character of the
    class, giving characters back never helps: the repetition takes the
    whole run or fails. *)
Lemma rep_greedy_span (R : Type) (p : char -> bool) (min : nat)
      (k : nat -> jsstring -> option R) :
  (forall pos c t, p c = true -> k pos (c :: t) = None) ->
  forall s count pos,
    rep_greedy p min count pos s k =
    if min <=? count + length (fst (span p s))
    then k (pos + length (fst (span p s))) (snd (span p s))
    else None.
Proof.
  intros Hk. induction s as [|c s IH]; intros count pos; simpl.
  - now rewrite !Nat.add_0_r.
  - destruct (p c) eqn:Hc.
    + rewrite IH. destruct (span p s) as [a r]. simpl.
      rewrite !Nat.add_succ_r. simpl.
      destruct (min <=? S (count + length a)); [|].
      * destruct (k (S (pos + length a)) r); [reflexivity|].
        rewrite (Hk pos c s Hc). now destruct (min <=? count).
      * rewrite (Hk pos c s Hc). now destruct (min <=? count).
    + simpl. now rewrite !Nat.add_0_r.
Qed.

Lemma quote_not_payload (q c : char) :
  is_quote q = true -> is_payload c = true -> ceq q c = false.
Proof.
  intros Hq Hc. destruct (ceq q c) eqn:E; [|reflexivity].
  apply ceq_eq in E. subst c.
  unfold is_quote in Hq. apply orb_true_iff in Hq as [H|H];
    apply ceq_eq in H; subst q; discriminate.
Qed.

(** The pattern matches at an offset exactly when a literal starts there. *)
Lemma match_at_rx (pos : nat) (s : jsstring) :
  match_at rx pos s =
  match literal_here s with
  | Some (q, inner, _) => Some (rx_result pos q inner)
  | None => None
  end.
Proof.
  unfold match_at, rx, literal_here. cbn [rmatch].
  destruct s as [|q t]; [reflexivity|].
  destruct (is_quote q) eqn:Hq; [|reflexivity].
  rewrite rep_greedy_span.
  - pose proof (span_spec is_payload t) as (Ht & Ha & Hr).
    destruct (span is_payload t) as [a r]. cbn [fst snd Nat.add] in *.
    destruct (64 <=? length a); [|reflexivity].
    replace (S pos - pos) with 1 by lia.
    replace (S (pos + length a) - S pos) with (length a) by lia.
    cbn [get_cap Nat.eqb firstn length].
    assert (Hf : firstn (length a) t = a).
    { subst t. rewrite firstn_app, firstn_all, Nat.sub_diag. simpl.
      apply app_nil_r. }
    rewrite Hf.
    destruct r as [|q' r]; [reflexivity|]. cbn [startsWith].
    rewrite andb_true_r.
    destruct (ceq q q'); [|reflexivity].
    unfold rx_result. do 2 f_equal. lia.
  - intros p' c t' Hc.
    replace (S pos - pos) with 1 by lia.
    cbn [get_cap Nat.eqb firstn startsWith].
    now rewrite (quote_not_payload _ _ Hq Hc).
Qed.

Lemma quote_is_not_payload (q : char) : is_quote q = true -> is_payload q = false.
Proof.
  intros Hq. destruct (is_payload q) eqn:E; [|reflexivity].
  pose proof (quote_not_payload _ _ Hq E) as H. now rewrite ceq_refl in H.
Qed.

Lemma literal_here_some (s : jsstring) (q : char) (inner rest : jsstring) :
  literal_here s = Some (q, inner, rest) ->
  s = q :: inner ++ q :: rest /\ is_quote q = true /\
  forallb is_payload inner = true /\ 64 <= length inner.
Proof.
  unfold literal_here. destruct s as [|c t]; [discriminate|].
  destruct (is_quote c) eqn:Hq; [|discriminate].
  pose proof (span_spec is_payload t) as (Ht & Ha & _).
  destruct (span is_payload t) as [a r]. simpl in Ht, Ha.
  destruct (64 <=? length a) eqn:Hlen; [|discriminate].
  destruct r as [|q' r]; [discriminate|].
  destruct (ceq c q') eqn:E; [|discriminate].
  intros H. injection H as -> -> ->. apply ceq_eq in E. subst q'.
  apply Nat.leb_le in Hlen. repeat split; auto. now f_equal.
Qed.

Lemma literal_here_intro (q : char) (inner rest : jsstring) :
  is_quote q = true -> forallb is_payload inner = true -> 64 <= length inner ->
  literal_here (q :: inner ++ q :: rest) = Some (q, inner, rest).
Proof.
  intros Hq Hi Hlen. unfold literal_here. rewrite Hq.
  rewrite span_stop; auto using quote_is_not_payload.
  apply Nat.leb_le in Hlen. now rewrite Hlen, ceq_refl.
Qed.

Lemma span_length (p : char -> bool) (s : jsstring) :
  length (fst (span p s)) = run_length p s.
Proof.
  induction s as [|c s IH]; simpl; [reflexivity|].
  destruct (p c); [|reflexivity].
  destruct (span p s). simpl in *. now f_equal.
Qed.

Lemma run_length_stop (p : char -> bool) (g r : jsstring) :
  match r with c :: _ => p c = false | [] => True end ->
  run_length p (g ++ r) = run_length p g.
Proof.
  intros Hr. induction g as [|c g IH]; simpl.
  - destruct r as [|c r]; simpl; [reflexivity|]. now rewrite Hr.
  - now rewrite IH.
Qed.

Lemma run_le_longest (p : char -> bool) (s : jsstring) :
  run_length p s <= longest_run p s.
Proof. destruct s; simpl; [lia|apply Nat.le_max_l]. Qed.

Lemma quiet_tail (c : char) (g : jsstring) : quiet (c :: g) = true -> quiet g = true.
Proof.
  unfold quiet. cbn [longest_run]. rewrite !Nat.ltb_lt. lia.
Qed.

(** No literal starts inside a quiet stretch, even when the stretch runs up
    to the quote of a literal or to the end of the file. *)
Lemma literal_here_quiet (c : char) (g r : jsstring) :
  quiet (c :: g) = true ->
  match r with d :: _ => is_payload d = false | [] => True end ->
  literal_here (c :: g ++ r) = None.
Proof.
  intros Hq Hr. unfold literal_here.
  destruct (is_quote c); [|reflexivity].
  pose proof (span_length is_payload (g ++ r)) as Hl.
  destruct (span is_payload (g ++ r)) as [a r']. simpl in Hl.
  rewrite run_length_stop in Hl by assumption.
  assert (length a < 64) as Hlt.
  { apply quiet_tail in Hq. unfold quiet in Hq. apply Nat.ltb_lt in Hq.
    pose proof (run_le_longest is_payload g). lia. }
  apply Nat.leb_gt in Hlt. now rewrite Hlt.
Qed.

Lemma search_gap_literal (q : char) (inner rest : jsstring) :
  is_quote q = true -> forallb is_payload inner = true -> 64 <= length inner ->
  forall g p,
    quiet g = true ->
    search rx p (g ++ q :: inner ++ q :: rest)
    = Some (rx_result (p + length g) q inner).
Proof.
  intros Hq Hi Hlen. induction g as [|c g IH]; intros p Hg.
  - simpl. destruct inner as [|x inner]; [simpl in Hlen; lia|].
    cbn [search]. rewrite match_at_rx.
    rewrite (literal_here_intro q (x :: inner) rest Hq Hi Hlen).
    now rewrite Nat.add_0_r.
  - cbn [app search]. rewrite match_at_rx.
    rewrite literal_here_quiet; auto using quote_is_not_payload.
    rewrite IH by (eapply quiet_tail; eauto).
    simpl. now rewrite Nat.add_succ_r.
Qed.

Lemma search_gap_end (g : jsstring) :
  forall p, quiet g = true -> search rx p g = None.
Proof.
  induction g as [|c g IH]; intros p Hg.
  - reflexivity.
  - cbn [search]. rewrite match_at_rx.
    pose proof (literal_here_quiet c g [] Hg I) as H.
    rewrite app_nil_r in H. rewrite H.
    apply IH. eapply quiet_tail; eauto.
Qed.

Lemma search_found (r : regex) (s : jsstring) :
  forall pos m,
    search r pos s = Some m ->
    exists pre post, s = pre ++ post /\ match_at r (pos + length pre) post = Some m.
Proof.
  induction s as [|c s IH]; intros pos m; cbn [search].
  - destruct (match_at r pos []) eqn:E; [|discriminate].
    intros H. injection H as ->. exists [], []. simpl. now rewrite Nat.add_0_r.
  - destruct (match_at r pos (c :: s)) eqn:E.
    + intros H. injection H as ->. exists [], (c :: s). simpl.
      now rewrite Nat.add_0_r.
    + intros H. apply IH in H as (pre & post & -> & H).
      exists (c :: pre), post. simpl. now rewrite Nat.add_succ_r.
Qed.

(** A match of the scanner is a literal of the file at or after
    [lastIndex]. *)
Lemma exec_rx_some (content : jsstring) (lastIndex : nat) (m : MatchResult) :
  exec rx content lastIndex = Some m ->
  exists pre q inner rest,
    content = pre ++ q :: inner ++ q :: rest /\ lastIndex <= length pre /\
    is_quote q = true /\ forallb is_payload inner = true /\ 64 <= length inner /\
    m = rx_result (length pre) q inner.
Proof.
  unfold exec. destruct (lastIndex <=? length content) eqn:HL; [|discriminate].
  apply Nat.leb_le in HL. intros H.
  apply search_found in H as (pre & post & Hs & H).
  rewrite match_at_rx in H.
  destruct (literal_here post) as [[[q inner] rest]|] eqn:E; [|discriminate].
  injection H as <-.
  apply literal_here_some in E as (-> & Hq & Hi & Hlen).
  exists (firstn lastIndex content ++ pre), q, inner, rest.
  rewrite length_app, length_firstn, Nat.min_l by assumption.
  repeat split; auto; [|lia].
  rewrite <- app_assoc, <- Hs. symmetry. apply firstn_skipn.
Qed.

Section ScannerFacts.
Variable pako : Pako.
Variable HINTS : list jsstring.

Lemma block_of_scanned (content pre : jsstring) (q : char) (inner rest : jsstring)
      (idx : nat) :
  content = pre ++ q :: inner ++ q :: rest ->
  is_quote q = true -> forallb is_payload inner = true -> 64 <= length inner ->
  scanned content (block_of pako HINTS idx (rx_result (length pre) q inner)).
Proof.
  intros Hc Hq Hi Hlen. exists pre, q, rest. simpl.
  repeat split; auto.
Qed.

Lemma exec_loop_scanned (content : jsstring) (fuel : nat) :
  forall lastIndex idx,
    Forall (fun b => scanned content b /\ lastIndex < innerStart b)
           (exec_loop pako HINTS fuel content lastIndex idx).
Proof.
  induction fuel as [|fuel IH]; intros L idx; simpl; [constructor|].
  destruct (exec rx content L) as [m|] eqn:E; [|constructor].
  apply exec_rx_some in E as (pre & q & inner & rest & Hc & HL & Hq & Hi & Hlen & ->).
  constructor.
  - split; [now apply block_of_scanned with (rest := rest)|]. simpl. lia.
  - eapply Forall_impl; [|apply IH]. simpl. intros b [Hb Hlt]. split; [exact Hb|lia].
Qed.



(** The loop stops by itself: any fuel above the number of characters
    left gives the same blocks. *)
Lemma exec_loop_fuel (content : jsstring) (fuel1 : nat) :
  forall fuel2 lastIndex idx,
    length content < lastIndex + fuel1 ->
    length content < lastIndex + fuel2 ->
    exec_loop pako HINTS fuel1 content lastIndex idx
    = exec_loop pako HINTS fuel2 content lastIndex idx.
Proof.
  induction fuel1 as [|fuel1 IH]; intros fuel2 L idx H1 H2.
  - destruct fuel2 as [|fuel2]; [reflexivity|]. simpl.
    unfold exec. replace (L <=? length content) with false; [reflexivity|].
    symmetry. apply Nat.leb_gt. lia.
  - destruct fuel2 as [|fuel2]; simpl.
    + unfold exec. replace (L <=? length content) with false; [reflexivity|].
      symmetry. apply Nat.leb_gt. lia.
    + destruct (exec rx content L) as [m|] eqn:E; [|reflexivity].
      f_equal.
      apply exec_rx_some in E as (pre & q & inner & rest & Hc & HL & _ & _ & _ & ->).
      simpl. apply IH; lia.
Qed.

Lemma render_length (seg : Segment) :
  length (render seg) = length (s_inner seg) + length (s_gap seg) + 2.
Proof. unfold render. simpl. rewrite length_app. simpl. lia. Qed.

Lemma parseBlocks_fuel (content : jsstring) (fuel : nat) :
  length content < fuel ->
  parseBlocks pako HINTS content = exec_loop pako HINTS fuel content 0 0.
Proof. intros H. apply exec_loop_fuel; simpl; lia. Qed.


End ScannerFacts.



Lemma firstn_skipn_middle (A : Type) (a m r : list A) :
  firstn (length a) (a ++ m ++ r) = a /\
  skipn (length a + length m) (a ++ m ++ r) = r.
Proof.
  split.
  - rewrite firstn_app, firstn_all, Nat.sub_diag. simpl. apply app_nil_r.
  - rewrite app_assoc, <- length_app.
    rewrite skipn_app, skipn_all, Nat.sub_diag. reflexivity.
Qed.

Lemma splice_own_content (content pre : jsstring) (q : char) (rest : jsstring)
      (b : BlockMatch) :
  content = pre ++ q :: original b ++ q :: rest ->
  innerStart b = length pre + 1 ->
  innerEnd b = innerStart b + length (original b) ->
  splice content b (cleanedB64 b) =
  pre ++ q :: reinsertStars (cleanedB64 b) (starsAt b) ++ q :: rest.
Proof.
  intros Hc Hs He. unfold splice. rewrite He, Hs.
  replace (match starsAt b with
           | [] => cleanedB64 b
           | _ :: _ => reinsertStars (cleanedB64 b) (starsAt b)
           end) with (reinsertStars (cleanedB64 b) (starsAt b))
    by (destruct (starsAt b); reflexivity).
  assert (H1 : content = (pre ++ [q]) ++ original b ++ q :: rest).
  { rewrite Hc, <- app_assoc. reflexivity. }
  assert (Hl : length pre + 1 = length (pre ++ [q])).
  { rewrite length_app. reflexivity. }
  rewrite Hl, H1.
  destruct (firstn_skipn_middle (pre ++ [q]) (original b) (q :: rest)) as [-> ->].
  rewrite <- app_assoc. reflexivity.
Qed.

Lemma ins_length (arr : jsstring) (pos : nat) :
  length (ins arr pos) = S (length arr).
Proof.
  unfold ins, splice_insert. rewrite length_app. simpl.
  rewrite <- (firstn_skipn pos arr) at 3. rewrite length_app. lia.
Qed.

Lemma fold_ins_length (D : list nat) :
  forall arr, length (fold_left ins D arr) = length arr + length D.
Proof.
  induction D as [|d D IH]; intros arr; simpl; [lia|].
  rewrite IH, ins_length. lia.
Qed.

Lemma insert_desc_length (x : nat) (l : list nat) :
  length (insert_desc x l) = S (length l).
Proof.
  induction l as [|y l IH]; simpl; [reflexivity|].
  destruct (y <? x); simpl; auto.
Qed.

Lemma sort_desc_length (l : list nat) : length (sort_desc l) = length l.
Proof.
  induction l as [|x l IH]; simpl; [reflexivity|].
  now rewrite insert_desc_length, IH.
Qed.

Lemma reinsertStars_length (b64 : jsstring) (P : list nat) :
  length (reinsertStars b64 P) <= length b64 + length P.
Proof.
  rewrite reinsertStars_fold, fold_ins_length, sort_desc_length.
  pose proof (filter_length_le (fun n => n <=? length b64) P). lia.
Qed.

(** The characters of a text are its clean form, its mask characters and
    its whitespace. *)
Lemma strip_collect_length (s : jsstring) :
  forall k,
    length (strip_mask s) + length (collectStarIndices_from k s)
    + length (filter is_space s) = length s.
Proof.
  unfold strip_mask, remove_all.
  induction s as [|c s IH]; intros k; simpl; [reflexivity|].
  destruct (is_star c) eqn:Hs.
  - apply ceq_eq in Hs. subst c. rewrite star_not_space. simpl.
    specialize (IH k). lia.
  - destruct (is_space c); simpl.
    + specialize (IH k). lia.
    + specialize (IH (S k)). lia.
Qed.

Lemma some_space (s : jsstring) :
  forallb no_space s = false -> 0 < length (filter is_space s).
Proof.
  induction s as [|c s IH]; simpl; [discriminate|].
  unfold no_space at 1. destruct (is_space c); simpl; [lia|exact IH].
Qed.

(** C1, as the code has it. For every file and every block the scanner
    finds in it, putting the mask back on the clean text of the block and
    splicing the result in place of the inner content gives the file back
    unchanged exactly when the inner content holds no whitespace. *)
Theorem reexport_is_identity (pako : Pako) (HINTS : list jsstring)
        (content : jsstring) (b : BlockMatch) :
  In b (parseBlocks pako HINTS content) ->
  (splice content b (cleanedB64 b) = content <->
   forallb no_space (original b) = true).
Proof.
  intros Hin.
  pose proof (exec_loop_scanned pako HINTS content (S (length content)) 0 0) as HF.
  rewrite Forall_forall in HF. destruct (HF b Hin) as [Hb _].
  destruct Hb as (pre & q & rest & Hc & _ & _ & _ & _ & Hs & He & Hcl & Hst).
  rewrite (splice_own_content pre q rest b Hc Hs He), Hcl, Hst.
  split.
  - intros H. destruct (forallb no_space (original b)) eqn:E; [reflexivity|].
    exfalso. apply some_space in E.
    apply (f_equal (@length _)) in H. rewrite Hc in H.
    rewrite !length_app in H. simpl in H. rewrite !length_app in H. simpl in H.
    pose proof (reinsertStars_length (strip_mask (original b))
                                     (collectStarIndices (original b))).
    pose proof (strip_collect_length (original b) 0).
    unfold collectStarIndices in *. lia.
  - intros Hns. rewrite reinsert_own_mask by assumption. symmetry. exact Hc.
Qed.

Lemma reexport_is_identity_witness :
  In sample_block (parseBlocks Reference.pako WAVY_HINTS sample_masked) /\
  starsAt sample_block = [4; 88] /\
  splice sample_masked sample_block (cleanedB64 sample_block) = sample_masked.
Proof.
  split; [vm_compute; left; reflexivity|]. split; [reflexivity|].
  apply (@reexport_is_identity Reference.pako WAVY_HINTS sample_masked sample_block).
  - vm_compute. left. reflexivity.
  - reflexivity.
Defined.

(** C1 as stated fails on a payload that is broken over two lines: the
    scanner takes it as one block, the clean text drops the line break and
    nothing puts it back. *)
Lemma reexport_drops_whitespace :
  exists b,
    parseBlocks Reference.pako WAVY_HINTS sample_wrapped = [b] /\
    decodedText b = Some (str "CreateTrain(1)
AddBloon(Red)
AddWave(2)
AddBloon(Blue)") /\
    splice sample_wrapped b (cleanedB64 b) =
    str "data = 'eAEBNgDJ/0NyZWF0ZVRyYWluKDEpCkFkZEJsb29uKFJlZCkKQWRkV2F2ZSgyKQpBZGRCbG9vbihCbHVlKeWJEV0=';" /\
    splice sample_wrapped b (cleanedB64 b) <> sample_wrapped.
Proof.
  eexists. split; [vm_compute; reflexivity|].
  split; [reflexivity|]. split; [vm_compute; reflexivity|].
  vm_compute. discriminate.
Qed.





Example scanner_takes_a_gap :
  map (fun b => (innerStart b, remove_all is_space (original b)))
      (parseBlocks Reference.pako WAVY_HINTS sample_gap)
  = [(7, str "+")].
Proof. vm_compute. reflexivity. Qed.

(** ** The compression adapter *)

(** C4. [decodeZlibBase64] calls the zlib inflater first, the raw inflater
    only when the first threw, the gzip inflater only when both threw, and
    no other; it returns the text of the first that did not throw, and when
    the three of them threw it returns the error "Unable to inflate", which
    carries no text. Nothing is called when the base64 text is refused. *)
Theorem framings_in_order (pako : Pako) (input : jsstring) :
  decodeZlibBase64_traced pako input =
  match base64ToBytes input with
  | None => ([], Fail Thrown)
  | Some b =>
      match inflate pako b with
      | Some out => ([Zlib], Ok (TextDecoder_decode out))
      | None =>
          match inflateRaw pako b with
          | Some out => ([Zlib; RawDeflate], Ok (TextDecoder_decode out))
          | None =>
              match ungzip pako b with
              | Some out => ([Zlib; RawDeflate; Gzip], Ok (TextDecoder_decode out))
              | None => ([Zlib; RawDeflate; Gzip], Fail UnableToInflate)
              end
          end
      end
  end /\
  decodeZlibBase64 pako input = snd (decodeZlibBase64_traced pako input).
Proof.
  split; [|reflexivity].
  unfold decodeZlibBase64_traced.
  destruct (base64ToBytes input) as [b|]; [|reflexivity].
  unfold tries. cbn [run_tries].
  destruct (inflate pako b); [reflexivity|].
  destruct (inflateRaw pako b); [reflexivity|].
  destruct (ungzip pako b); reflexivity.
Qed.

Lemma decode_first_inflated (pako : Pako) (input : jsstring) :
  decodeZlibBase64 pako input =
  match base64ToBytes input with
  | None => Fail Thrown
  | Some b =>
      match first_inflated pako b with
      | Some out => Ok (TextDecoder_decode out)
      | None => Fail UnableToInflate
      end
  end.
Proof.
  unfold decodeZlibBase64, decodeZlibBase64_traced, first_inflated.
  destruct (base64ToBytes input) as [b|]; [|reflexivity].
  unfold tries. cbn [run_tries].
  destruct (inflate pako b); [reflexivity|].
  destruct (inflateRaw pako b); [reflexivity|].
  destruct (ungzip pako b); reflexivity.
Qed.

(** C3, as the code has it. The decoded value of a block is the text of the
    first framing that decompresses without error, read as UTF-8 with every
    malformed sequence replaced by U+FFFD: a text is returned exactly when
    the base64 text is accepted and some framing decompresses, and bytes
    that are not valid UTF-8 are accepted like any others. *)
Theorem decoding_is_lenient (pako : Pako) (input : jsstring) :
  (forall text,
      decodeZlibBase64 pako input = Ok text <->
      exists b out, base64ToBytes input = Some b /\
                    first_inflated pako b = Some out /\
                    text = TextDecoder_decode out) /\
  (forall b out,
      base64ToBytes input = Some b ->
      first_inflated pako b = Some out ->
      valid_utf8 out = false ->
      decodeZlibBase64 pako input
      = Ok (flat_map utf16 (skip_bom (map replacement (utf8_run utf8_init out))))).
Proof.
  split.
  - intros text. rewrite decode_first_inflated. split.
    + destruct (base64ToBytes input) as [b|]; [|discriminate].
      destruct (first_inflated pako b) as [out|] eqn:E; [|discriminate].
      intros H. injection H as <-. exists b, out. auto.
    + intros (b & out & -> & -> & ->). reflexivity.
  - intros b out Hb Hout _. rewrite decode_first_inflated, Hb, Hout. reflexivity.
Qed.

Lemma decoding_is_lenient_witness :
  decodeZlibBase64 Reference.pako (str "eAEBAQD+//8BAAEA") = Ok [65533%N].
Proof.
  apply (proj2 (decoding_is_lenient Reference.pako (str "eAEBAQD+//8BAAEA"))
               [120; 1; 1; 1; 0; 254; 255; 255; 1; 0; 1; 0]%N [255%N]).
  - reflexivity.
  - reflexivity.
  - reflexivity.
Defined.

(** C3 as stated fails on a zlib stream of the single byte FF, which is not
    valid UTF-8: decoding succeeds and the decoded value is the substituted
    character U+FFFD. In the same way the block of [sample_latin1] is
    decoded, with U+FFFD in the place of the byte E9, and is the block
    [onOpenFile] opens. *)
Lemma invalid_utf8_is_accepted :
  base64ToBytes (str "eAEBAQD+//8BAAEA")
  = Some [120; 1; 1; 1; 0; 254; 255; 255; 1; 0; 1; 0]%N /\
  inflate Reference.pako [120; 1; 1; 1; 0; 254; 255; 255; 1; 0; 1; 0]%N
  = Some [255%N] /\
  valid_utf8 [255%N] = false /\
  decodeZlibBase64 Reference.pako (str "eAEBAQD+//8BAAEA") = Ok [65533%N] /\
  map decodedText (parseBlocks Reference.pako WAVY_HINTS sample_latin1)
  = [Some (str "CreateTrain(1)
AddBloon(Caf" ++ [65533%N] ++ str ")
AddBloon(Red)")] /\
  match onOpenFile Reference.pako WAVY_HINTS sample_latin1 with
  | Opened blk txt => In 65533%N txt
  | _ => False
  end.
Proof.
  repeat split; try (vm_compute; reflexivity).
  vm_compute. tauto.
Qed.

Example decode_wave_text :
  decodeZlibBase64_traced Reference.pako
    (str "eAEBNgDJ/0NyZWF0ZVRyYWluKDEpCkFkZEJsb29uKFJlZCkKQWRkV2F2ZSgyKQpBZGRCbG9vbihCbHVlKeWJEV0=")
  = ([Zlib], Ok (str "CreateTrain(1)
AddBloon(Red)
AddWave(2)
AddBloon(Blue)")).
Proof. vm_compute. reflexivity. Qed.

Example decode_raw_framing :
  decodeZlibBase64_traced Reference.pako
    (str "ATYAyf9DcmVhdGVUcmFpbigxKQpBZGRCbG9vbihSZWQpCkFkZFdhdmUoMikKQWRkQmxvb24oQmx1ZSk=")
  = ([Zlib; RawDeflate],
     Ok (str "CreateTrain(1)
AddBloon(Red)
AddWave(2)
AddBloon(Blue)")).
Proof. vm_compute. reflexivity. Qed.

Example decode_not_deflate :
  decodeZlibBase64_traced Reference.pako (str "AAAAAAAA")
  = ([Zlib; RawDeflate; Gzip], Fail UnableToInflate).
Proof. vm_compute. reflexivity. Qed.

Example decode_not_base64 :
  decodeZlibBase64_traced Reference.pako (str "A") = ([], Fail Thrown).
Proof. vm_compute. reflexivity. Qed.

Example utf8_two_byte_text :
  TextDecoder_decode [72; 195; 169; 33]%N = [72; 233; 33]%N /\
  valid_utf8 [72; 195; 169; 33]%N = true.
Proof. split; reflexivity. Qed.

Example utf8_truncated_text :
  TextDecoder_decode [72; 226; 130]%N = [72; 65533]%N /\
  valid_utf8 [72; 226; 130]%N = false.
Proof. split; reflexivity. Qed.

(** ** The export name *)








Example export_name_level :
  suggested_wave (str "level.as") = str "level_edited.as" /\
  suggested_env (str "level.as") = str "level_env_edited.as" /\
  suggested_wave (str "level.AS") = str "level.AS_edited.as" /\
  suggested_wave (str "level.txt") = str "level.txt_edited.as" /\
  suggested_wave [] = str "waves_edited.as" /\
  suggested_env [] = str "environment_edited.as".
Proof. repeat split; vm_compute; reflexivity. Qed.

(** ** The wave parser *)

Lemma forEach_orphans (lines : list jsstring) :
  forall (i : nat) (st : WaveParser.LoopState),
    WaveParser.currentWave st = None ->
    (forall j line, nth_error lines j = Some line ->
                    WaveParser.isWaveStart line (i + j) = false) ->
    WaveParser.forEach_from i lines st
    = {| WaveParser.waves := WaveParser.waves st;
         WaveParser.currentWave := None;
         WaveParser.orphanedLines := WaveParser.orphanedLines st ++ lines |}.
Proof.
  induction lines as [|line lines IH]; intros i st Hc Hn; simpl.
  - rewrite app_nil_r. destruct st. simpl in Hc. now subst.
  - assert (H0 : WaveParser.isWaveStart line i = false).
    { specialize (Hn 0 line eq_refl). now rewrite Nat.add_0_r in Hn. }
    unfold WaveParser.step at 1. rewrite H0, Hc.
    rewrite IH; simpl.
    + now rewrite <- app_assoc.
    + reflexivity.
    + intros j l Hj. specialize (Hn (S j) l Hj). now rewrite Nat.add_succ_r in Hn.
Qed.

Lemma mapi_from_content (lines : list jsstring) :
  forall i, map WaveParser.content (mapi_from i WaveParser.orphan_event lines) = lines /\
            map WaveParser.index (mapi_from i WaveParser.orphan_event lines)
            = seq i (length lines).
Proof.
  induction lines as [|l lines IH]; intros i; simpl; [auto|].
  destruct (IH (S i)) as [-> ->]. auto.
Qed.

(** C9, as the code has it. The four lines of the example give two waves:
    wave 0 with header [CreateTrain(1)] and wave 1 with header
    [AddWave(2)], each with the single event [AddBloon]. A text that has
    at least one non-blank line and no wave-start line gives exactly one
    wave, numbered 0 and labeled [Wave 1], whose events are the non-blank
    lines, in order and numbered from 0. *)
Theorem wave_parser_examples :
  WaveParser.parse_lines sample_lines
  = [ {| WaveParser.w_index := 0; WaveParser.w_content := str "CreateTrain(1)";
         WaveParser.events :=
           [ {| WaveParser.index := 0; WaveParser.type := str "AddBloon";
                WaveParser.content := str "AddBloon(Red)" |} ] |};
      {| WaveParser.w_index := 1; WaveParser.w_content := str "AddWave(2)";
         WaveParser.events :=
           [ {| WaveParser.index := 0; WaveParser.type := str "AddBloon";
                WaveParser.content := str "AddBloon(Blue)" |} ] |} ] /\
  WaveParser.parseWaves (join [10%N] sample_lines)
  = WaveParser.parse_lines sample_lines /\
  (forall text : jsstring,
      let lines := filter WaveParser.non_blank (split_lines text) in
      lines <> [] ->
      (forall j line, nth_error lines j = Some line ->
                      WaveParser.isWaveStart line j = false) ->
      WaveParser.parseWaves text
      = [ {| WaveParser.w_index := 0; WaveParser.w_content := str "Wave 1";
             WaveParser.events := mapi WaveParser.orphan_event lines |} ] /\
      map WaveParser.content (mapi WaveParser.orphan_event lines) = lines /\
      map WaveParser.index (mapi WaveParser.orphan_event lines)
      = seq 0 (length lines)).
Proof.
  split; [vm_compute; reflexivity|]. split; [vm_compute; reflexivity|].
  intros text lines Hne Hn. split; [|apply mapi_from_content].
  unfold WaveParser.parseWaves. fold lines. unfold WaveParser.parse_lines.
  rewrite forEach_orphans; [|reflexivity|exact Hn].
  unfold WaveParser.finish. simpl.
  destruct lines as [|l lines']; [congruence|]. reflexivity.
Qed.

Lemma wave_parser_examples_witness :
  WaveParser.parseWaves (str "path 3

AddBloon(Red)")
  = [ {| WaveParser.w_index := 0; WaveParser.w_content := str "Wave 1";
         WaveParser.events :=
           mapi WaveParser.orphan_event [str "path 3"; str "AddBloon(Red)"] |} ].
Proof.
  apply (proj2 (proj2 wave_parser_examples) (str "path 3

AddBloon(Red)")).
  - discriminate.
  - intros [|[|[|j]]] line H; try discriminate; injection H as <-; reflexivity.
Defined.

(** C9 as stated fails on a text of blank lines only, such as a single
    line break: it has no wave-start line, for it has no non-blank line at
    all, and the parser returns no wave. *)
Lemma no_wave_without_lines :
  filter WaveParser.non_blank (split_lines [10%N]) = [] /\
  WaveParser.parseWaves [10%N] = [] /\
  WaveParser.parseWaves [10%N] <>
  [ {| WaveParser.w_index := 0; WaveParser.w_content := str "Wave 1";
       WaveParser.events := [] |} ].
Proof. repeat split; discriminate. Qed.

(** ** Saving a declaration record *)

(** C10. Saving the edited record puts it in the place of every record
    whose name is the current name of the edited record and leaves every
    other record as it is, in its place; hence when no record has that name
    the records are returned unchanged. Editing is closed in either case. *)
Theorem save_replaces_by_name (environmentVars : list EnvParser.EnvironmentVariable)
        (editingVar : EnvParser.EnvironmentVariable) :
  let newVars := fst (EnvParser.handleSaveVar environmentVars (Some editingVar)) in
  snd (EnvParser.handleSaveVar environmentVars (Some editingVar)) = None /\
  length newVars = length environmentVars /\
  (forall i v, nth_error environmentVars i = Some v ->
               (EnvParser.name v = EnvParser.name editingVar ->
                nth_error newVars i = Some editingVar) /\
               (EnvParser.name v <> EnvParser.name editingVar ->
                nth_error newVars i = Some v)) /\
  ((forall v, In v environmentVars ->
              EnvParser.name v <> EnvParser.name editingVar) ->
   newVars = environmentVars).
Proof.
  simpl. split; [reflexivity|]. split; [apply length_map|]. split.
  - intros i v Hi. rewrite nth_error_map, Hi. simpl. split; intros Hn.
    + apply seq_eqb_eq in Hn. now rewrite Hn.
    + destruct (seq_eqb (EnvParser.name v) (EnvParser.name editingVar)) eqn:E;
        [|reflexivity].
      apply seq_eqb_eq in E. contradiction.
  - intros Hn. rewrite <- (map_id environmentVars) at 2.
    apply map_ext_in. intros v Hv.
    destruct (seq_eqb (EnvParser.name v) (EnvParser.name editingVar)) eqn:E;
      [|reflexivity].
    apply seq_eqb_eq in E. now apply Hn in Hv.
Qed.

Lemma save_replaces_by_name_witness :
  map EnvParser.name sample_vars = [str "speed"; str "debug"] /\
  fst (EnvParser.handleSaveVar sample_vars (Some sample_renamed)) = sample_vars.
Proof.
  split; [reflexivity|].
  apply (proj2 (proj2 (proj2 (save_replaces_by_name sample_vars sample_renamed)))).
  intros v [<-|[<-|[]]]; discriminate.
Defined.

Example save_without_editing (environmentVars : list EnvParser.EnvironmentVariable) :
  EnvParser.handleSaveVar environmentVars None = (environmentVars, None).
Proof. reflexivity. Qed.

(** ** The declaration parser *)

Lemma In_trimStart (x : char) (s : jsstring) : In x (trimStart s) -> In x s.
Proof.
  induction s as [|c s IH]; simpl; [tauto|].
  destruct (is_space c); simpl; tauto.
Qed.

Lemma In_trim (x : char) (s : jsstring) : In x (trim s) -> In x s.
Proof.
  unfold trim, trimEnd. intros H.
  apply In_trimStart. apply in_rev. apply In_trimStart. now apply in_rev.
Qed.

Lemma cleanValue_has_no_separator (value : jsstring) :
  forallb (fun c => negb (ceq c 59%N || ceq c 44%N)) (EnvParser.cleanValue_of value)
  = true.
Proof.
  apply forallb_forall. intros x Hx. unfold EnvParser.cleanValue_of in Hx.
  apply In_trim in Hx. unfold remove_all in Hx. now apply filter_In in Hx.
Qed.

Lemma first_match_value (ps : list regex) (trimmedLine : jsstring)
      (v : EnvParser.EnvironmentVariable) :
  EnvParser.first_match ps trimmedLine = Some v ->
  exists m, EnvParser.value v = EnvParser.cleanValue_of (group m 2).
Proof.
  induction ps as [|p ps IH]; simpl; [discriminate|].
  destruct (exec p trimmedLine 0) as [m|]; [|exact IH].
  intros H. injection H as <-. now exists m.
Qed.

(** What the code does with the separators: no record ever holds a
    semicolon or a comma in its value. *)
Lemma value_has_no_separator (decodedText : jsstring)
      (v : EnvParser.EnvironmentVariable) :
  In v (EnvParser.parseEnvironmentVariables decodedText) ->
  forallb (fun c => negb (ceq c 59%N || ceq c 44%N)) (EnvParser.value v) = true.
Proof.
  unfold EnvParser.parseEnvironmentVariables. intros H.
  apply in_flat_map in H as (line & _ & H).
  destruct (EnvParser.parse_line line) as [v'|] eqn:E; [|contradiction].
  destruct H as [<-|[]].
  unfold EnvParser.parse_line in E.
  destruct (trim line) as [|c t]; [discriminate|].
  destruct (startsWith (c :: t) (str "//") || startsWith (c :: t) (str "/*"));
    [discriminate|].
  apply first_match_value in E as [m ->].
  apply cleanValue_has_no_separator.
Qed.

(** C5 on the code: the declaration [var a = [1,2];] is matched by the first
    grammar, which captures [[1,2];]; the record gets the value [[12]]: the
    comma inside the brackets is removed together with the final
    semicolon, and the text rebuilt for export is [var a = [12];]. The
    types of the values of the specification are found as stated. *)
Theorem interior_comma_is_removed :
  map (fun v => (EnvParser.name v, EnvParser.value v, EnvParser.type v,
                 EnvParser.rawLine v))
      (EnvParser.parseEnvironmentVariables (str "var a = [1,2];"))
  = [(str "a", str "[12]", EnvParser.TArray, str "var a = [1,2];")] /\
  EnvParser.envText (EnvParser.parseEnvironmentVariables (str "var a = [1,2];"))
  = str "var a = [12];" /\
  option_map (fun m => group m 2)
             (exec (hd Eps EnvParser.patterns) (str "var a = [1,2];") 0)
  = Some (str "[1,2];") /\
  map EnvParser.type_of
      [str "true"; str "42"; str "-3.5"; str "[1,2]"; str "{}"; str "hello"]
  = [EnvParser.TBoolean; EnvParser.TNumber; EnvParser.TNumber;
     EnvParser.TArray; EnvParser.TObject; EnvParser.TString].
Proof. repeat split; vm_compute; reflexivity. Qed.

Example parse_declarations :
  map (fun v => (EnvParser.name v, EnvParser.value v, EnvParser.type v,
                 EnvParser.category v))
      (EnvParser.parseEnvironmentVariables (str "// settings
var speed = 3;
this.debugMode = TRUE
title: hello, world;
  const sizes = {a:1,b:2};

nothing here"))
  = [ (str "speed", str "3", EnvParser.TNumber, str "Performance");
      (str "debugMode", str "TRUE", EnvParser.TBoolean, str "Debug");
      (str "title", str "hello world", EnvParser.TString, str "General");
      (str "sizes", str "{a:1b:2}", EnvParser.TObject, str "Layout") ].
Proof. vm_compute. reflexivity. Qed.

(** ** Opening a file *)

Lemma find_first (A : Type) (p : A -> bool) (l : list A) (x : A) :
  find p l = Some x ->
  exists pre post, l = pre ++ x :: post /\ p x = true /\
                   forall y, In y pre -> p y = false.
Proof.
  induction l as [|a l IH]; simpl; [discriminate|].
  destruct (p a) eqn:E.
  - intros H. injection H as <-. exists [], l. simpl. tauto.
  - intros H. apply IH in H as (pre & post & -> & Hx & Hpre).
    exists (a :: pre), post. simpl. repeat split; auto.
    intros y [<-|Hy]; auto.
Qed.

(** X21. What [onOpenFile] selects, where a block counts as decoded when its
    decoded text is present and not empty: the first block, in the order
    of the file, that is likely and decoded; when there is none, the first
    decoded block; when no block is decoded, none. *)
Lemma select_block_policy (found : list BlockMatch) :
  match select_block found with
  | Some b =>
      exists pre post,
        found = pre ++ b :: post /\ truthy (decodedText b) = true /\
        ((likely b = true /\
          forall x, In x pre -> likely x && truthy (decodedText x) = false) \/
         ((forall x, In x found -> likely x && truthy (decodedText x) = false) /\
          forall x, In x pre -> truthy (decodedText x) = false))
  | None => forall x, In x found -> truthy (decodedText x) = false
  end.
Proof.
  unfold select_block.
  destruct (find (fun b => likely b && truthy (decodedText b)) found) as [b|] eqn:E1.
  - apply find_first in E1 as (pre & post & -> & Hb & Hpre).
    apply andb_true_iff in Hb as [Hl Ht].
    exists pre, post. auto.
  - destruct (find (fun b => truthy (decodedText b)) found) as [b|] eqn:E2.
    + apply find_first in E2 as (pre & post & -> & Hb & Hpre).
      exists pre, post. repeat split; auto. right. split; auto.
      intros x Hx. apply (find_none _ _ E1 x Hx).
    + intros x Hx. apply (find_none _ _ E2 x Hx).
Qed.

Lemma exec_loop_blocks (pako : Pako) (HINTS : list jsstring) (content : jsstring)
      (fuel : nat) :
  forall lastIndex idx,
    Forall (fun b => exists i m, b = block_of pako HINTS i m)
           (exec_loop pako HINTS fuel content lastIndex idx).
Proof.
  induction fuel as [|fuel IH]; intros L idx; simpl; [constructor|].
  destruct (exec rx content L) as [m|]; [|constructor].
  constructor; [eauto|apply IH].
Qed.

(** C7, as the code has it. For every file, with the blocks the scanner
    finds in it: the decoded text of a block is the text its clean payload
    decodes to, and a block is classified when that text is not empty and
    holds a hint. [onOpenFile] opens the first block, in the order of the
    file, that is classified; when no block is classified, the first block
    whose decoded text is not empty; the text shown is that decoded text.
    When blocks are found and none has a non-empty decoded text, it
    reports that decoding failed; when no block is found, that there is
    none. A block that decodes to the empty text counts as not decoded. *)
Theorem auto_open_selection (pako : Pako) (HINTS : list jsstring)
        (text : jsstring) :
  let found := parseBlocks pako HINTS text in
  (forall b, In b found ->
     decodedText b = match decodeZlibBase64 pako (cleanedB64 b) with
                     | Ok t => Some t
                     | Fail _ => None
                     end /\
     likely b = truthy (decodedText b) &&
                existsb (fun h => match decodedText b with
                                  | Some d => includes d h
                                  | None => false
                                  end) HINTS) /\
  match onOpenFile pako HINTS text with
  | NoBlocksFound => found = []
  | Opened blk txt =>
      exists pre post,
        found = pre ++ blk :: post /\
        decodedText blk = Some txt /\ txt <> [] /\
        ((likely blk = true /\ forall x, In x pre -> likely x = false) \/
         ((forall x, In x found -> likely x = false) /\
          forall x, In x pre -> truthy (decodedText x) = false))
  | DecodeFailed =>
      found <> [] /\ forall x, In x found -> truthy (decodedText x) = false
  end.
Proof.
  intros found.
  assert (Hblocks : forall b, In b found ->
            decodedText b = match decodeZlibBase64 pako (cleanedB64 b) with
                            | Ok t => Some t
                            | Fail _ => None
                            end /\
            likely b = truthy (decodedText b) &&
                       existsb (fun h => match decodedText b with
                                         | Some d => includes d h
                                         | None => false
                                         end) HINTS).
  { intros b Hb.
    pose proof (exec_loop_blocks pako HINTS text (S (length text)) 0 0) as HF.
    rewrite Forall_forall in HF. destruct (HF b Hb) as (i & m & ->).
    split; reflexivity. }
  split; [exact Hblocks|].
  assert (Hlikely : forall x, In x found ->
            likely x && truthy (decodedText x) = false -> likely x = false).
  { intros x Hx H. destruct (Hblocks x Hx) as [_ Hl]. rewrite Hl in *.
    destruct (truthy (decodedText x)); [|reflexivity].
    now rewrite andb_true_r in H. }
  unfold onOpenFile, open_found, select_block. fold found.
  destruct found as [|b0 bs] eqn:Ef; [reflexivity|]. rewrite <- Ef in *.
  assert (Hopen : forall blk, truthy (decodedText blk) = true ->
            exists txt, decodedText blk = Some txt /\ txt <> [] /\
                        match decodedText blk with
                        | Some t => t
                        | None => []
                        end = txt).
  { intros blk H. destruct (decodedText blk) as [[|c t]|]; try discriminate.
    exists (c :: t). repeat split. discriminate. }
  destruct (find (fun b => likely b && truthy (decodedText b)) found)
    as [blk|] eqn:E1.
  - apply find_first in E1 as (pre & post & Hf & Hb & Hpre).
    apply andb_true_iff in Hb as [Hl Ht].
    destruct (Hopen blk Ht) as (txt & Hd & Hne & ->).
    exists pre, post. repeat split; auto. left. split; [exact Hl|].
    intros x Hx. apply Hlikely; [|now apply Hpre].
    rewrite Hf. apply in_or_app. now left.
  - destruct (find (fun b => truthy (decodedText b)) found) as [blk|] eqn:E2.
    + apply find_first in E2 as (pre & post & Hf & Ht & Hpre).
      destruct (Hopen blk Ht) as (txt & Hd & Hne & ->).
      exists pre, post. repeat split; auto. right. split; [|exact Hpre].
      intros x Hx. apply Hlikely; [exact Hx|]. apply (find_none _ _ E1 x Hx).
    + split; [rewrite Ef; discriminate|].
      intros x Hx. apply (find_none _ _ E2 x Hx).
Qed.

(** C7 as stated fails on a payload that decodes to the empty text: the
    only payload of [sample_empty] decompresses, in the first framing, to
    the empty text. The block decodes, with the empty text as its decoded
    text, and yet [onOpenFile] selects no block and reports that decoding
    failed. *)
Theorem empty_payload_is_not_opened :
  map (fun b => (index b, cleanedB64 b, decodedText b, likely b))
      (parseBlocks Reference.pako WAVY_HINTS sample_empty)
  = [(0, str "eAEAAAD//wAAAP//AAAA//8AAAD//wAAAP//AAAA//8AAAD//wAAAP//AQAA//8AAAAB",
      Some [], false)] /\
  decodeZlibBase64_traced Reference.pako
    (str "eAEAAAD//wAAAP//AAAA//8AAAD//wAAAP//AAAA//8AAAD//wAAAP//AQAA//8AAAAB")
  = ([Zlib], Ok []) /\
  select_block (parseBlocks Reference.pako WAVY_HINTS sample_empty) = None /\
  onOpenFile Reference.pako WAVY_HINTS sample_empty = DecodeFailed.
Proof. repeat split; vm_compute; reflexivity. Qed.

Example open_sample_masked :
  onOpenFile Reference.pako WAVY_HINTS sample_masked
  = Opened sample_block (str "CreateTrain(1)
AddBloon(Red)
AddWave(2)
AddBloon(Blue)").
Proof. vm_compute. reflexivity. Qed.

Example open_without_blocks :
  onOpenFile Reference.pako WAVY_HINTS (str "x = 'short';") = NoBlocksFound.
Proof. vm_compute. reflexivity. Qed.

Example open_environment_file :
  match onOpenFile Reference.pako ENV_HINTS sample_env with
  | Opened blk txt =>
      (index blk, likely blk,
       map (fun v => (EnvParser.name v, EnvParser.value v))
           (EnvParser.parseEnvironmentVariables txt))
      = (0, true, [(str "speed", str "3"); (str "debug", str "true");
                   (str "sizes", str "[12]")])
  | _ => False
  end.
Proof. vm_compute. reflexivity. Qed.

(** ** Export *)

(** [exportEdited] exports under the suggested name, and only when a file
    is loaded and the selected block exists; the new content is the splice
    of the freshly encoded text. *)
Lemma exportEdited_outcome (deflate : bytes -> bytes)
      (TextEncoder_encode : jsstring -> bytes) (name_of : jsstring -> jsstring)
      (fileName fileContent : jsstring) (blocks : list BlockMatch)
      (selectedBlockIdx : option nat) (blockText newContent name : jsstring) :
  exportEdited deflate TextEncoder_encode name_of fileName fileContent blocks
               selectedBlockIdx blockText = Exported newContent name ->
  name = name_of fileName /\ fileContent <> [] /\
  exists sel blk,
    selectedBlockIdx = Some sel /\ In blk blocks /\ index blk = sel /\
    newContent
    = splice fileContent blk
             (bytesToBase64 (deflate (TextEncoder_encode blockText))).
Proof.
  unfold exportEdited.
  destruct fileContent as [|c fileContent]; [discriminate|].
  destruct selectedBlockIdx as [sel|]; [|discriminate].
  destruct (find (fun b => index b =? sel) blocks) as [blk|] eqn:E; [|discriminate].
  intros H. injection H as <- <-. apply find_some in E as [Hin Hidx].
  apply Nat.eqb_eq in Hidx.
  split; [reflexivity|]. split; [discriminate|]. exists sel, blk. auto.
Qed.

(** * Further properties *)

(** ** The mask *)

Lemma fold_ins_keeps_text (D : list nat) :
  forall arr, remove_all is_star (fold_left ins D arr) = remove_all is_star arr.
Proof.
  induction D as [|d D IH]; intros arr; simpl; [reflexivity|].
  rewrite IH. unfold ins, splice_insert, remove_all.
  rewrite filter_app. simpl.
  replace (is_star star) with true by reflexivity. simpl.
  rewrite <- filter_app. now rewrite firstn_skipn.
Qed.

Lemma reinsert_keeps_text (b64 : jsstring) (starPositions : list nat) :
  remove_all is_star (reinsertStars b64 starPositions) = remove_all is_star b64.
Proof. rewrite reinsertStars_fold. apply fold_ins_keeps_text. Qed.

(** X1. [reinsertStars] only adds mask characters: without its mask
    characters the result is the given text without its own, whatever the
    text and the offsets, and the result is longer than the text by the
    number of offsets that do not exceed its length. *)
Theorem reinsert_only_adds_mask (b64 : jsstring) (starPositions : list nat) :
  remove_all is_star (reinsertStars b64 starPositions) = remove_all is_star b64 /\
  length (reinsertStars b64 starPositions)
  = length b64 + length (filter (fun n => n <=? length b64) starPositions).
Proof.
  rewrite reinsertStars_fold. split.
  - apply fold_ins_keeps_text.
  - now rewrite fold_ins_length, sort_desc_length.
Qed.

(** ** Blocks *)

Lemma strip_mask_base64 (inner : jsstring) :
  forallb is_payload inner = true ->
  forallb is_base64 (strip_mask inner) = true /\
  forallb plain (strip_mask inner) = true.
Proof.
  unfold strip_mask, remove_all. induction inner as [|c inner IH]; simpl; [auto|].
  intros H. apply andb_true_iff in H as [Hc Hi].
  destruct (IH Hi) as [H1 H2].
  destruct (is_space c || is_star c) eqn:E; simpl; [auto|].
  rewrite H1, H2. unfold plain. rewrite E. simpl.
  apply orb_false_iff in E as [Hs Hst].
  unfold is_payload in Hc. rewrite Hs, Hst, !orb_false_r in Hc.
  unfold is_base64. rewrite Hc. auto.
Qed.

(** X2. What the scanner records of a block: the clean text holds only
    characters of the base64 alphabet and [=]; the mask offsets never
    decrease and never exceed the length of the clean text, so that
    [reinsertStars] drops none of them on a text at least as long; and the
    clean text, the mask characters and the whitespace add up to the inner
    content. *)
Theorem block_records (pako : Pako) (HINTS : list jsstring)
        (content : jsstring) (b : BlockMatch) :
  In b (parseBlocks pako HINTS content) ->
  forallb is_base64 (cleanedB64 b) = true /\
  StronglySorted le (starsAt b) /\
  Forall (fun n => n <= length (cleanedB64 b)) (starsAt b) /\
  length (cleanedB64 b) + length (starsAt b)
  + length (filter is_space (original b)) = length (original b) /\
  innerEnd b = innerStart b + length (original b).
Proof.
  intros Hin.
  pose proof (exec_loop_scanned pako HINTS content (S (length content)) 0 0) as HF.
  rewrite Forall_forall in HF. destruct (HF b Hin) as [Hb _].
  destruct Hb as (pre & q & rest & Hc & _ & _ & Hp & _ & Hs & He & Hcl & Hst).
  rewrite Hcl, Hst. unfold collectStarIndices. repeat split.
  - now apply strip_mask_base64.
  - apply collect_sorted.
  - eapply Forall_impl; [|apply collect_bounds]. simpl. intros n Hn. lia.
  - apply strip_collect_length.
  - exact He.
Qed.

Lemma block_records_witness :
  forallb is_base64 (cleanedB64 sample_block) = true /\
  starsAt sample_block = [4; 88] /\ length (cleanedB64 sample_block) = 88.
Proof.
  split; [|split; reflexivity].
  apply (@block_records Reference.pako WAVY_HINTS sample_masked sample_block).
  vm_compute. left. reflexivity.
Defined.

Lemma exec_loop_apart (pako : Pako) (HINTS : list jsstring)
      (content : jsstring) (fuel : nat) :
  forall lastIndex idx,
    StronglySorted apart (exec_loop pako HINTS fuel content lastIndex idx) /\
    Forall (fun b => lastIndex + 1 <= innerStart b /\
                     innerStart b + 64 <= innerEnd b /\
                     innerEnd b < length content)
           (exec_loop pako HINTS fuel content lastIndex idx).
Proof.
  induction fuel as [|fuel IH]; intros L idx; simpl; [split; constructor|].
  destruct (exec rx content L) as [m|] eqn:E; [|split; constructor].
  apply exec_rx_some in E as (pre & q & inner & rest & Hc & HL & Hq & Hi & Hlen & ->).
  destruct (IH (m_end (rx_result (length pre) q inner)) (S idx)) as [Hs Hf].
  simpl in Hs, Hf. split.
  - constructor; [exact Hs|].
    eapply Forall_impl; [|exact Hf]. unfold apart. intros b Hb. cbn in *. lia.
  - constructor.
    + cbn. rewrite Hc, length_app. cbn. rewrite length_app. cbn. lia.
    + eapply Forall_impl; [|exact Hf]. intros b Hb. cbn in *. lia.
Qed.

(** X3. The blocks of a file do not overlap and lie inside it: a block ends
    at least two characters before the next one starts (its closing quote
    and the opening quote of the next lie between them), the inner content
    of a block starts after an opening quote, is at least 64 characters
    long and ends before the end of the file. *)
Theorem blocks_are_apart (pako : Pako) (HINTS : list jsstring) (content : jsstring) :
  StronglySorted apart (parseBlocks pako HINTS content) /\
  Forall (fun b => 1 <= innerStart b /\ innerStart b + 64 <= innerEnd b /\
                   innerEnd b < length content)
         (parseBlocks pako HINTS content).
Proof.
  destruct (exec_loop_apart pako HINTS content (S (length content)) 0 0) as [Hs Hf].
  split; [exact Hs|]. eapply Forall_impl; [|exact Hf]. simpl. tauto.
Qed.

(** ** Export *)

Lemma splice_scanned (content pre : jsstring) (q : char) (rest : jsstring)
      (b : BlockMatch) (reB64 : jsstring) :
  content = pre ++ q :: original b ++ q :: rest ->
  innerStart b = length pre + 1 ->
  innerEnd b = innerStart b + length (original b) ->
  splice content b reB64 =
  pre ++ q :: reinsertStars reB64 (starsAt b) ++ q :: rest.
Proof.
  intros Hc Hs He. unfold splice. rewrite He, Hs.
  replace (match starsAt b with
           | [] => reB64
           | _ :: _ => reinsertStars reB64 (starsAt b)
           end) with (reinsertStars reB64 (starsAt b))
    by (destruct (starsAt b); reflexivity).
  assert (H1 : content = (pre ++ [q]) ++ original b ++ q :: rest).
  { rewrite Hc, <- app_assoc. reflexivity. }
  assert (Hl : length pre + 1 = length (pre ++ [q])).
  { rewrite length_app. reflexivity. }
  rewrite Hl, H1.
  destruct (firstn_skipn_middle (pre ++ [q]) (original b) (q :: rest)) as [-> ->].
  rewrite <- app_assoc. reflexivity.
Qed.

(** X4. Export rewrites the inner content of the selected block and
    nothing else: the file is the text before the block, its opening
    quote, its inner content, the same quote and the text after, and
    whatever new base64 text is spliced in, the result is the same text
    before, the same quotes and the same text after, around the new text
    with the mask of the block put back on it. *)
Theorem export_changes_inner_only (pako : Pako) (HINTS : list jsstring)
        (content : jsstring) (b : BlockMatch) :
  In b (parseBlocks pako HINTS content) ->
  exists pre q rest,
    content = pre ++ q :: original b ++ q :: rest /\
    length pre + 1 = innerStart b /\ quote b = [q] /\
    forall reB64,
      splice content b reB64
      = pre ++ q :: reinsertStars reB64 (starsAt b) ++ q :: rest.
Proof.
  intros Hin.
  pose proof (exec_loop_scanned pako HINTS content (S (length content)) 0 0) as HF.
  rewrite Forall_forall in HF. destruct (HF b Hin) as [Hb _].
  destruct Hb as (pre & q & rest & Hc & _ & Hq & _ & _ & Hs & He & _ & _).
  exists pre, q, rest. repeat split; auto.
  intros reB64. now apply splice_scanned.
Qed.

Lemma export_changes_inner_only_witness :
  exists pre q rest,
    sample_masked = pre ++ q :: original sample_block ++ q :: rest /\
    length pre + 1 = innerStart sample_block /\ quote sample_block = [q] /\
    forall reB64,
      splice sample_masked sample_block reB64
      = pre ++ q :: reinsertStars reB64 (starsAt sample_block) ++ q :: rest.
Proof.
  apply (@export_changes_inner_only Reference.pako WAVY_HINTS sample_masked
                                    sample_block).
  vm_compute. left. reflexivity.
Defined.

(** ** Base64 *)

Lemma list_ind3 (A : Type) (P : list A -> Prop) :
  P [] -> (forall x, P [x]) -> (forall x y, P [x; y]) ->
  (forall x y z l, P l -> P (x :: y :: z :: l)) ->
  forall l, P l.
Proof.
  intros H0 H1 H2 H3.
  assert (H : forall l, P l /\ (forall x, P (x :: l)) /\ (forall x y, P (x :: y :: l))).
  { induction l as [|a l (IH0 & IH1 & IH2)]; auto. }
  intros l. apply H.
Qed.

Lemma firstn_add (A : Type) (i n : nat) (l : list A) :
  firstn (i + n) l = firstn i l ++ firstn n (skipn i l).
Proof.
  revert l. induction i as [|i IH]; intros l; simpl; [reflexivity|].
  destruct l as [|x l]; simpl.
  - now rewrite firstn_nil.
  - now rewrite IH.
Qed.

Lemma chunk_loop_all (size : nat) (b : bytes) (fuel : nat) :
  0 < size ->
  forall i binary,
    length b < i + fuel ->
    binary = fromCharCode (firstn i b) ->
    chunk_loop fuel size b i binary = fromCharCode b.
Proof.
  intros Hsize. induction fuel as [|fuel IH]; intros i binary Hf ->; simpl.
  - rewrite firstn_all2 by lia. reflexivity.
  - destruct (i <? length b) eqn:E.
    + apply IH; [lia|]. unfold subarray, fromCharCode.
      replace (i + size - i) with size by lia.
      now rewrite firstn_add, map_app.
    + apply Nat.ltb_ge in E. now rewrite firstn_all2.
Qed.

Lemma fromCharCode_bytes (b : bytes) :
  forallb is_byte b = true -> fromCharCode b = b.
Proof.
  unfold fromCharCode. induction b as [|x b IH]; simpl; [reflexivity|].
  intros H. apply andb_true_iff in H as [Hx Hb]. rewrite IH by assumption.
  f_equal. apply N.mod_small. unfold is_byte in Hx. apply N.ltb_lt in Hx. lia.
Qed.

(** X5. Cutting the buffer into chunks of 32768 bytes is invisible: for
    every buffer of bytes, of whatever length, the binary string the loop of
    [bytesToBase64] builds is the buffer itself, so that the function is
    the base64 encoding of the whole buffer. *)
Theorem chunks_are_invisible (b : bytes) :
  forallb is_byte b = true ->
  binary_string b = b /\ btoa (binary_string b) = bytesToBase64 b.
Proof.
  intros Hb.
  assert (H : binary_string b = b).
  { unfold binary_string. rewrite chunk_loop_all with (size := chunkSize).
    - now apply fromCharCode_bytes.
    - unfold chunkSize. lia.
    - lia.
    - reflexivity. }
  now rewrite H.
Qed.

Lemma chunks_are_invisible_witness :
  binary_string [120; 1; 255]%N = [120; 1; 255]%N.
Proof. apply (chunks_are_invisible [120; 1; 255]%N). reflexivity. Defined.

Local Open Scope N_scope.

Lemma recompose_sextets (n : N) :
  (n / 262144) * 262144 + ((n / 4096) mod 64) * 4096 + ((n / 64) mod 64) * 64
  + n mod 64 = n.
Proof.
  replace (n / 262144) with (n / 64 / 64 / 64) by (now rewrite !N.Div0.div_div).
  replace (n / 4096) with (n / 64 / 64) by (now rewrite !N.Div0.div_div).
  pose proof (N.Div0.div_mod n 64).
  pose proof (N.Div0.div_mod (n / 64) 64).
  pose proof (N.Div0.div_mod (n / 64 / 64) 64).
  lia.
Qed.

Lemma recompose_sextets3 (n : N) :
  n < 262144 ->
  (n / 4096) * 4096 + ((n / 64) mod 64) * 64 + n mod 64 = n.
Proof.
  intros Hn. pose proof (recompose_sextets n) as H.
  rewrite (N.div_small n 262144) in H by assumption.
  rewrite (N.mod_small (n / 4096) 64) in H; [lia|].
  apply N.Div0.div_lt_upper_bound. lia.
Qed.

Lemma recompose_sextets2 (n : N) : (n / 64) * 64 + n mod 64 = n.
Proof. pose proof (N.Div0.div_mod n 64). lia. Qed.

Lemma split_bytes3 (x y z : N) :
  x < 256 -> y < 256 -> z < 256 ->
  (x * 65536 + y * 256 + z) / 65536 = x /\
  ((x * 65536 + y * 256 + z) / 256) mod 256 = y /\
  (x * 65536 + y * 256 + z) mod 256 = z.
Proof.
  intros Hx Hy Hz. repeat split.
  - symmetry. apply (N.div_unique _ _ _ (y * 256 + z)); lia.
  - replace (x * 65536 + y * 256 + z) with ((x * 256 + y) * 256 + z) by lia.
    rewrite N.div_add_l by lia. rewrite (N.div_small z 256) by lia.
    rewrite N.add_0_r, N.add_comm, N.Div0.mod_add. now apply N.mod_small.
  - replace (x * 65536 + y * 256 + z) with (z + (x * 256 + y) * 256) by lia.
    rewrite N.Div0.mod_add. now apply N.mod_small.
Qed.

Lemma split_bytes2 (x y : N) :
  x < 256 -> y < 256 ->
  (x * 1024 + y * 4) / 1024 = x /\ ((x * 1024 + y * 4) / 4) mod 256 = y.
Proof.
  intros Hx Hy. split.
  - symmetry. apply (N.div_unique _ _ _ (y * 4)); lia.
  - replace (x * 1024 + y * 4) with ((x * 256 + y) * 4) by lia.
    rewrite N.div_mul by lia.
    rewrite N.add_comm, N.Div0.mod_add. now apply N.mod_small.
Qed.

Lemma below_64 (P : N -> bool) :
  forallb P (map N.of_nat (seq 0 64)) = true -> forall v, v < 64 -> P v = true.
Proof.
  intros H v Hv. rewrite forallb_forall in H. apply H.
  rewrite <- (N2Nat.id v). apply in_map. apply in_seq. lia.
Qed.

Lemma b64_value_digit (v : N) : v < 64 -> b64_value (b64_digit v) = Some v.
Proof.
  intros Hv.
  pose proof (below_64 (fun v => match b64_value (b64_digit v) with
                                 | Some w => w =? v
                                 | None => false
                                 end)) as H.
  specialize (H eq_refl v Hv). simpl in H.
  destruct (b64_value (b64_digit v)) as [w|]; [|discriminate].
  apply N.eqb_eq in H. now subst.
Qed.

Lemma b64_digit_alphabet (v : N) :
  is_base64 (b64_digit v) = true /\ ceq (b64_digit v) 61 = false.
Proof.
  destruct (N.lt_ge_cases v 64) as [Hv|Hv].
  - pose proof (below_64 (fun v => is_base64 (b64_digit v)
                                   && negb (ceq (b64_digit v) 61))) as H.
    specialize (H eq_refl v Hv). simpl in H.
    apply andb_true_iff in H as [H1 H2]. now apply negb_true_iff in H2.
  - unfold b64_digit.
    replace (v <? 26) with false by (symmetry; apply N.ltb_ge; lia).
    replace (v <? 52) with false by (symmetry; apply N.ltb_ge; lia).
    replace (v <? 62) with false by (symmetry; apply N.ltb_ge; lia).
    replace (v =? 62) with false by (symmetry; apply N.eqb_neq; lia).
    split; reflexivity.
Qed.

Local Close Scope N_scope.

Lemma btoa_shape (b : bytes) :
  btoa b = map b64_digit (sextets_of b) ++ padding_of b.
Proof.
  induction b as [| | |x y z l IH] using list_ind3; try reflexivity.
  cbn [btoa sextets_of padding_of map app]. now rewrite IH.
Qed.

Lemma btoa_length (b : bytes) : length (btoa b) = 4 * ((length b + 2) / 3).
Proof.
  induction b as [| | |x y z l IH] using list_ind3; try reflexivity.
  cbn [btoa length]. rewrite IH.
  replace (S (S (S (length l))) + 2) with (length l + 2 + 1 * 3) by lia.
  rewrite Nat.div_add by lia. lia.
Qed.

Lemma sextets_of_length (b : bytes) : length (sextets_of b) mod 4 <> 1.
Proof.
  induction b as [| | |x y z l IH] using list_ind3; try (cbn; lia).
  cbn [sextets_of length].
  replace (S (S (S (S (length (sextets_of l))))))
    with (length (sextets_of l) + 1 * 4) by lia.
  now rewrite Nat.Div0.mod_add.
Qed.

Lemma btoa_alphabet (b : bytes) : forallb is_base64 (btoa b) = true.
Proof.
  induction b as [| | |x y z l IH] using list_ind3; cbn [btoa forallb];
    rewrite ?IH;
    repeat match goal with
           | |- context [is_base64 (b64_digit ?v)] =>
               rewrite (proj1 (b64_digit_alphabet v))
           end; reflexivity.
Qed.

Lemma base64_not_space (c : char) :
  is_base64 c = true ->
  is_space c = false /\ is_ascii_ws c = false /\ is_star c = false.
Proof.
  intros H.
  assert (Hr : (43 <= c <= 122)%N).
  { unfold is_base64, is_upper, is_lower, is_digit, in_range, ceq in H.
    repeat match goal with
           | H : (_ || _) = true |- _ => apply orb_true_iff in H as [H|H]
           | H : (_ && _) = true |- _ => apply andb_true_iff in H as [? ?]
           | H : N.leb _ _ = true |- _ => apply N.leb_le in H
           | H : N.eqb _ _ = true |- _ => apply N.eqb_eq in H
           end; lia. }
  assert (Hn : forall lo hi, (hi < 43 \/ 122 < lo)%N -> in_range lo hi c = false).
  { intros lo hi Hb. unfold in_range.
    destruct (N.leb lo c) eqn:E1; [|reflexivity].
    destruct (N.leb c hi) eqn:E2; [|reflexivity].
    apply N.leb_le in E1, E2. lia. }
  assert (He : forall d, (d < 43 \/ 122 < d)%N -> ceq c d = false).
  { intros d Hd. unfold ceq. apply N.eqb_neq. lia. }
  unfold is_space, is_ascii_ws, is_star, star.
  rewrite !Hn by lia. rewrite !He by lia. auto.
Qed.

Lemma remove_none (p : char -> bool) (s : jsstring) :
  forallb (fun c => negb (p c)) s = true -> remove_all p s = s.
Proof.
  unfold remove_all. induction s as [|c s IH]; simpl; [reflexivity|].
  intros H. apply andb_true_iff in H as [-> H]. now rewrite IH.
Qed.

Lemma forallb_impl (A : Type) (p q : A -> bool) (l : list A) :
  (forall x, p x = true -> q x = true) ->
  forallb p l = true -> forallb q l = true.
Proof.
  intros Hpq. induction l as [|x l IH]; simpl; [reflexivity|].
  intros H. apply andb_true_iff in H as [Hx Hl]. now rewrite (Hpq x Hx), IH.
Qed.

Lemma sextets_digits (vs : list N) :
  Forall (fun v => (v < 64)%N) vs -> sextets (map b64_digit vs) = Some vs.
Proof.
  induction 1 as [|v vs Hv _ IH]; simpl; [reflexivity|].
  now rewrite (b64_value_digit Hv), IH.
Qed.

Lemma sextets_of_small (b : bytes) :
  forallb is_byte b = true -> Forall (fun v => (v < 64)%N) (sextets_of b).
Proof.
  unfold is_byte.
  induction b as [|x|x y|x y z l IH] using list_ind3; cbn [sextets_of forallb];
    intros H;
    repeat match goal with
           | H : (_ && _) = true |- _ => apply andb_true_iff in H as [? ?]
           | H : N.ltb _ _ = true |- _ => apply N.ltb_lt in H
           end.
  - constructor.
  - repeat constructor; [apply N.Div0.div_lt_upper_bound; lia|apply N.mod_lt; lia].
  - repeat constructor;
      [apply N.Div0.div_lt_upper_bound; lia|apply N.mod_lt; lia|apply N.mod_lt; lia].
  - repeat (constructor; [try (apply N.mod_lt; lia)|]).
    + apply N.Div0.div_lt_upper_bound. lia.
    + apply IH. assumption.
Qed.

Lemma b64_bytes_sextets (b : bytes) :
  forallb is_byte b = true -> b64_bytes (sextets_of b) = b.
Proof.
  unfold is_byte.
  induction b as [|x|x y|x y z l IH] using list_ind3; cbn [sextets_of forallb];
    intros H;
    repeat match goal with
           | H : (_ && _) = true |- _ => apply andb_true_iff in H as [? ?]
           | H : N.ltb _ _ = true |- _ => apply N.ltb_lt in H
           end.
  - reflexivity.
  - cbn [b64_bytes]. rewrite recompose_sextets2. f_equal. apply N.div_mul. lia.
  - cbn [b64_bytes]. rewrite recompose_sextets3 by lia.
    destruct (@split_bytes2 x y) as [-> ->]; auto.
  - cbn [b64_bytes]. rewrite recompose_sextets.
    destruct (@split_bytes3 x y z) as (-> & -> & ->); auto.
    now rewrite IH.
Qed.

Lemma not_61 (A : Type) (x y : A) (a : N) :
  ceq a 61%N = false ->
  match a with 61%N => x | _ => y end = y.
Proof.
  intros H. destruct a as [|p]; [reflexivity|].
  do 6 (destruct p as [p|p|]; try reflexivity).
  discriminate.
Qed.

Lemma strip_padding_body (body pad : jsstring) :
  forallb (fun c => negb (ceq c 61%N)) body = true ->
  pad = [] \/ pad = [61%N] \/ pad = [61%N; 61%N] ->
  strip_padding (body ++ pad) = body.
Proof.
  intros Hb Hp. unfold strip_padding. rewrite rev_app_distr.
  assert (Hhead : forall c r, rev body = c :: r -> ceq c 61%N = false).
  { intros c r Hr. rewrite forallb_forall in Hb.
    apply negb_true_iff. apply Hb. apply in_rev. rewrite Hr. now left. }
  destruct Hp as [-> | [-> | ->]]; simpl.
  - rewrite app_nil_r. destruct (rev body) as [|c r] eqn:E; [reflexivity|].
    now rewrite (not_61 _ _ c (Hhead c r eq_refl)).
  - destruct (rev body) as [|c r] eqn:E.
    + now rewrite <- (rev_involutive body), E.
    + rewrite (not_61 _ _ c (Hhead c r eq_refl)).
      now rewrite <- E, rev_involutive.
  - apply rev_involutive.
Qed.

Lemma padding_cases (b : bytes) :
  padding_of b = [] \/ padding_of b = [61%N] \/ padding_of b = [61%N; 61%N].
Proof. induction b using list_ind3; cbn [padding_of]; auto. Qed.

Lemma atob_btoa (b : bytes) : forallb is_byte b = true -> atob (btoa b) = Some b.
Proof.
  intros Hb. unfold atob.
  rewrite remove_none.
  2:{ eapply forallb_impl; [|apply btoa_alphabet].
      intros c Hc. now rewrite (proj1 (proj2 (base64_not_space c Hc))). }
  rewrite btoa_length.
  replace (4 * ((length b + 2) / 3) mod 4) with 0
    by (rewrite Nat.mul_comm; now rewrite Nat.Div0.mod_mul).
  cbn [Nat.eqb]. rewrite btoa_shape, strip_padding_body.
  - rewrite length_map.
    destruct (length (sextets_of b) mod 4 =? 1) eqn:E.
    + apply Nat.eqb_eq in E. now apply sextets_of_length in E.
    + rewrite sextets_digits by now apply sextets_of_small.
      now rewrite b64_bytes_sextets.
  - apply forallb_forall. intros c Hc. apply in_map_iff in Hc as (v & <- & _).
    now rewrite (proj2 (b64_digit_alphabet v)).
  - apply padding_cases.
Qed.

Lemma base64ToBytes_btoa (b : bytes) :
  forallb is_byte b = true -> base64ToBytes (btoa b) = Some b.
Proof.
  intros Hb. unfold base64ToBytes.
  rewrite remove_none; [now apply atob_btoa|].
  eapply forallb_impl; [|apply btoa_alphabet].
  intros c Hc. now rewrite (proj1 (base64_not_space c Hc)).
Qed.

(** X6. Base64 round trip: for every buffer of bytes, decoding what
    [bytesToBase64] wrote with [base64ToBytes] succeeds and gives the buffer
    back. *)
Theorem base64_round_trip (b : bytes) :
  forallb is_byte b = true -> base64ToBytes (bytesToBase64 b) = Some b.
Proof.
  intros Hb. unfold bytesToBase64. now apply base64ToBytes_btoa.
Qed.

Lemma base64_round_trip_witness :
  base64ToBytes (bytesToBase64 [0; 255; 16; 7]%N) = Some [0; 255; 16; 7]%N.
Proof. apply (base64_round_trip [0; 255; 16; 7]%N). reflexivity. Defined.

(** X7. The text [bytesToBase64] writes holds only characters of the base64
    alphabet and [=], hence none that the scanner removes, and its length
    is four characters for every three bytes, the last group being padded. *)
Theorem base64_text_shape (b : bytes) :
  forallb is_base64 (bytesToBase64 b) = true /\
  strip_mask (bytesToBase64 b) = bytesToBase64 b /\
  length (bytesToBase64 b) = 4 * ((length b + 2) / 3).
Proof.
  unfold bytesToBase64. split; [apply btoa_alphabet|]. split; [|apply btoa_length].
  apply remove_none. eapply forallb_impl; [|apply btoa_alphabet].
  intros c Hc. destruct (base64_not_space c Hc) as (-> & _ & ->). reflexivity.
Qed.

(** X8. The mask and the base64 layer are transparent: whatever bytes the
    compressor gave and whatever mask offsets the block has, cleaning and
    decoding the text that export writes inside the quotes amounts to
    inflating those bytes, in the order of the framings. *)
Theorem exported_payload_is_decoded (pako : Pako) (deflated : bytes)
        (starPositions : list nat) :
  forallb is_byte deflated = true ->
  let finalB64 := reinsertStars (bytesToBase64 deflated) starPositions in
  strip_mask finalB64 = bytesToBase64 deflated /\
  forallb is_payload finalB64 = true /\
  decodeZlibBase64 pako (strip_mask finalB64)
  = match first_inflated pako deflated with
    | Some out => Ok (TextDecoder_decode out)
    | None => Fail UnableToInflate
    end.
Proof.
  intros Hb finalB64.
  assert (Hplain : forallb plain (bytesToBase64 deflated) = true).
  { eapply forallb_impl; [|apply btoa_alphabet].
    intros c Hc. unfold plain.
    destruct (base64_not_space c Hc) as (-> & _ & ->). reflexivity. }
  destruct (strip_reinsert (bytesToBase64 deflated) starPositions Hplain) as [Hs _].
  split; [exact Hs|]. split.
  - apply forallb_forall. intros c Hc.
    destruct (is_star c) eqn:Est.
    + unfold is_payload. rewrite Est. now rewrite !orb_true_r.
    + assert (Hin : In c (remove_all is_star finalB64)).
      { unfold remove_all. apply filter_In. now rewrite Est. }
      unfold finalB64 in Hin. rewrite reinsert_keeps_text in Hin.
      unfold remove_all in Hin. apply filter_In in Hin as [Hin _].
      pose proof (btoa_alphabet deflated) as Ha. rewrite forallb_forall in Ha.
      specialize (Ha c Hin).
      change (is_payload c) with (is_base64 c || is_space c || is_star c).
      now rewrite Ha.
  - unfold finalB64. rewrite Hs, decode_first_inflated. unfold bytesToBase64.
    now rewrite base64ToBytes_btoa.
Qed.

Lemma exported_payload_is_decoded_witness :
  decodeZlibBase64 Reference.pako
    (strip_mask (reinsertStars
                   (bytesToBase64 [120; 1; 1; 1; 0; 254; 255; 65; 0; 66; 0; 66]%N)
                   [3; 3; 9]))
  = Ok [65%N].
Proof.
  apply (proj2 (proj2 (@exported_payload_is_decoded Reference.pako
                         [120; 1; 1; 1; 0; 254; 255; 65; 0; 66; 0; 66]%N [3; 3; 9]
                         eq_refl))).
Defined.

(** ** Lines *)

Lemma split_from_nonempty (s : jsstring) : forall cur, split_from cur s <> [].
Proof.
  induction s as [|c s IH]; intros cur; simpl; [discriminate|].
  destruct (ceq c 10%N); [discriminate|].
  destruct (ceq c 13%N); [|apply IH].
  destruct s as [|d s']; [apply IH|].
  destruct (ceq d 10%N); [discriminate|apply IH].
Qed.

Lemma join_cons (sep p : jsstring) (rest : list jsstring) :
  rest <> [] -> join sep (p :: rest) = p ++ sep ++ join sep rest.
Proof. destruct rest; [congruence|reflexivity]. Qed.

Lemma join_split_from (s : jsstring) :
  forall cur, join [10%N] (split_from cur s) = rev cur ++ normalize_newlines s.
Proof.
  induction s as [|c s IH]; intros cur.
  - simpl. now rewrite app_nil_r.
  - cbn [split_from normalize_newlines].
    destruct (ceq c 10%N) eqn:E10.
    + apply ceq_eq in E10. subst c.
      rewrite join_cons by apply split_from_nonempty.
      rewrite IH. reflexivity.
    + destruct (ceq c 13%N) eqn:E13.
      * destruct s as [|d s'].
        -- reflexivity.
        -- destruct (ceq d 10%N) eqn:Ed.
           ++ specialize (IH []). cbn [split_from normalize_newlines] in IH.
              rewrite Ed in IH.
              replace (ceq d 13%N) with false in IH
                by (apply ceq_eq in Ed; now subst d).
              rewrite join_cons in IH by apply split_from_nonempty.
              rewrite join_cons by apply split_from_nonempty.
              apply ceq_eq in Ed. subst d. simpl in IH |- *.
              injection IH as IH. now rewrite IH.
           ++ rewrite IH. simpl. now rewrite <- app_assoc.
      * rewrite IH. simpl. now rewrite <- app_assoc.
Qed.

(** X9. Splitting a text into lines and joining them again with LF gives
    the text in which every CR LF pair has become a single LF, and changes
    nothing else; there is always at least one line. Every line edit
    therefore rewrites the line ends of the whole block. *)
Theorem join_split_normalizes (text : jsstring) :
  join [10%N] (split_lines text) = normalize_newlines text /\
  split_lines text <> [].
Proof.
  split; [apply (join_split_from text [])|apply split_from_nonempty].
Qed.

Lemma split_from_line (l : jsstring) :
  forallb no_break l = true ->
  forall cur rest,
    split_from cur l = [rev cur ++ l] /\
    split_from cur (l ++ 10%N :: rest) = (rev cur ++ l) :: split_from [] rest.
Proof.
  induction l as [|c l IH]; intros Hl cur rest.
  - simpl. now rewrite app_nil_r.
  - cbn [forallb] in Hl. apply andb_true_iff in Hl as [Hc Hl].
    unfold no_break in Hc. apply andb_true_iff in Hc as [H10 H13].
    apply negb_true_iff in H10, H13.
    destruct (IH Hl (c :: cur) rest) as [IH1 IH2].
    cbn [app split_from]. rewrite H10, H13.
    simpl in IH1, IH2. rewrite <- !app_assoc in IH1, IH2. simpl in IH1, IH2.
    split.
    + destruct l; exact IH1.
    + destruct (l ++ 10%N :: rest) eqn:E; [destruct l; discriminate|].
      exact IH2.
Qed.

Lemma split_join_lines (ls : list jsstring) :
  ls <> [] ->
  Forall (fun l => forallb no_break l = true) ls ->
  split_lines (join [10%N] ls) = ls.
Proof.
  unfold split_lines. induction ls as [|l ls IH]; intros Hne Hls; [congruence|].
  inversion Hls as [|? ? Hl Hls']; subst.
  destruct ls as [|l2 ls'].
  - simpl. now destruct (split_from_line l Hl [] []) as [-> _].
  - rewrite join_cons by discriminate.
    destruct (split_from_line l Hl [] (join [10%N] (l2 :: ls'))) as [_ H].
    cbn [rev app] in H.
    change (l ++ [10%N] ++ join [10%N] (l2 :: ls'))
      with (l ++ 10%N :: join [10%N] (l2 :: ls')).
    rewrite H. f_equal. apply IH; [discriminate|assumption].
Qed.

(** X10. Joining lines with LF and splitting the result gives the lines
    back, when there is at least one line and no line holds a LF or a CR. *)
Theorem split_join_round_trip (ls : list jsstring) :
  ls <> [] ->
  Forall (fun l => forallb no_break l = true) ls ->
  split_lines (join [10%N] ls) = ls.
Proof. apply split_join_lines. Qed.

Lemma split_join_round_trip_witness :
  split_lines (join [10%N] [str "a"; []; str "b c"]) = [str "a"; []; str "b c"].
Proof.
  apply (split_join_round_trip (ls := [str "a"; []; str "b c"])).
  - discriminate.
  - repeat constructor.
Defined.




(** A line of the block that ends with a CR does not survive the edit of
    another line: in the text a CR CR LF c the first line is a CR, and
    after the second line is set to d the lines are a and d. *)
Example line_edit_needs_no_cr :
  let lines := split_lines [97; 13; 13; 10; 99]%N in
  lines = [[97; 13]; [99]]%N /\
  applyLineEdit lines (Some 1) [100%N] = Some [97; 13; 10; 100]%N /\
  split_lines [97; 13; 10; 100]%N = [[97]; [100]]%N.
Proof. repeat split; vm_compute; reflexivity. Qed.

(** ** Waves *)

Module WaveFacts.
Import WaveParser WaveEdit.

Local Arguments isWaveStart : simpl never.
Local Arguments eventType : simpl never.
Local Arguments start_word : simpl never.

Lemma length_mapi_from (A B : Type) (f : A -> nat -> B) (l : list A) :
  forall i, length (mapi_from i f l) = length l.
Proof. induction l as [|x l IH]; intros i; simpl; auto. Qed.

Lemma wave_start_word (line : jsstring) (i : nat) :
  isWaveStart line i = false -> start_word line = false.
Proof.
  unfold isWaveStart, start_word. intros H.
  apply orb_false_iff in H as [H _]. apply orb_false_iff in H as [H _].
  exact H.
Qed.

Lemma orphan_events_ok (ls : list jsstring) :
  Forall (fun l => start_word l = false) ls ->
  forall i, Forall event_ok (mapi_from i orphan_event ls).
Proof.
  induction 1 as [|l ls Hl _ IH]; intros i; simpl; constructor; auto.
  split; [reflexivity|exact Hl].
Qed.

Lemma orphan_wave_ok (ls : list jsstring) (n : nat) (c : jsstring) :
  Forall (fun l => start_word l = false) ls ->
  wave_ok {| w_index := n; w_content := c; events := mapi orphan_event ls |}.
Proof.
  intros H. split; simpl.
  - unfold mapi. rewrite length_mapi_from. apply mapi_from_content.
  - now apply orphan_events_ok.
Qed.

Lemma wave_lines_app (a b : list Wave) :
  wave_lines (a ++ b) = wave_lines a ++ wave_lines b.
Proof. unfold wave_lines. apply flat_map_app. Qed.

Lemma expected_lines_snoc (l0 : jsstring) (ls : list jsstring) (line : jsstring) :
  expected_lines ((l0 :: ls) ++ [line]) = expected_lines (l0 :: ls) ++ [line].
Proof. simpl. now destruct (isWaveStart l0 0). Qed.

Lemma seq_snoc (n : nat) : seq 0 (S n) = seq 0 n ++ [n].
Proof. now rewrite seq_S. Qed.

Lemma step_inv (processed : list jsstring) (st : LoopState) (line : jsstring) :
  Inv processed st -> Inv (processed ++ [line]) (step st line (length processed)).
Proof.
  unfold Inv, step. destruct st as [ws cur orph]. cbn [waves currentWave orphanedLines].
  destruct cur as [w|].
  - (* a wave is open *)
    intros (-> & Hidx & Hok & Hlines).
    assert (Hne : exists l0 ls, processed = l0 :: ls).
    { destruct processed as [|l0 ls]; [|eauto].
      simpl in Hlines. destruct ws; discriminate. }
    destruct Hne as (l0 & ls & ->).
    destruct (isWaveStart line (length (l0 :: ls))) eqn:E; cbn.
    + split; [reflexivity|]. rewrite !length_app in *. cbn in *.
      split; [|split].
      * rewrite map_app, Hidx. cbn.
        replace (length ws + 1 + 1) with (S (length ws + 1)) by lia.
        now rewrite (seq_snoc (length ws + 1)).
      * apply Forall_app. split; [exact Hok|]. repeat constructor.
      * rewrite wave_lines_app, Hlines. cbn.
        now destruct (isWaveStart l0 0).
    + split; [reflexivity|]. rewrite !length_app in *. cbn in *.
      apply Forall_app in Hok as [Hws Hw]. inversion Hw as [|? ? [Hwi Hwe] _]; subst.
      rewrite map_app in Hidx. cbn in Hidx.
      split; [|split].
      * now rewrite map_app.
      * apply Forall_app. split; [exact Hws|]. constructor; [|constructor].
        split; cbn.
        -- rewrite map_app, length_app, Hwi. cbn.
           replace (length (events w) + 1) with (S (length (events w))) by lia.
           now rewrite seq_snoc.
        -- apply Forall_app. split; [exact Hwe|]. constructor; [|constructor].
           split; [reflexivity|]. cbn. eapply wave_start_word; eauto.
      * rewrite wave_lines_app in *. cbn in *.
        rewrite map_app. cbn.
        destruct (isWaveStart l0 0).
        -- rewrite app_nil_r in *. rewrite app_comm_cons, app_assoc, Hlines.
           reflexivity.
        -- rewrite app_nil_r in *. rewrite app_comm_cons, app_assoc, Hlines.
           reflexivity.
  - (* no wave yet *)
    intros (-> & -> & Hquiet & Hfirst).
    destruct (isWaveStart line (length processed)) eqn:E.
    + destruct processed as [|l0 ls]; cbn.
      * split; [reflexivity|]. split; [reflexivity|]. split.
        -- repeat constructor.
        -- cbn in E. now rewrite E.
      * split; [reflexivity|]. split; [reflexivity|]. split.
        -- constructor; [exact (orphan_wave_ok 0 (str "Wave 1") Hquiet)|].
           repeat constructor.
        -- rewrite Hfirst. now rewrite (proj1 (mapi_from_content ls 1)).
    + replace ((0 <? length processed) && is_null (@None Wave)) with
        (0 <? length processed) by now rewrite andb_true_r.
      cbn. split; [reflexivity|]. split; [reflexivity|]. split.
      * apply Forall_app. split; [exact Hquiet|]. constructor; [|constructor].
        eapply wave_start_word; eauto.
      * destruct processed as [|l0 ls]; [|exact Hfirst]. exact E.
Qed.


Lemma forEach_inv (lines : list jsstring) :
  forall processed st,
    Inv processed st ->
    Inv (processed ++ lines) (forEach_from (length processed) lines st).
Proof.
  induction lines as [|line lines IH]; intros processed st H; simpl.
  - now rewrite app_nil_r.
  - replace (S (length processed)) with (length (processed ++ [line]))
      by (rewrite length_app; simpl; lia).
    replace (processed ++ line :: lines) with ((processed ++ [line]) ++ lines)
      by (now rewrite <- app_assoc).
    apply IH. now apply step_inv.
Qed.

Lemma finish_inv (processed : list jsstring) (st : LoopState) :
  Inv processed st ->
  map w_index (finish st) = seq 0 (length (finish st)) /\
  Forall wave_ok (finish st) /\
  wave_lines (finish st) = expected_lines processed.
Proof.
  unfold Inv, finish. destruct st as [ws cur orph].
  cbn [waves currentWave orphanedLines]. destruct cur as [w|].
  - intros (-> & Hidx & Hok & Hlines). cbn. auto.
  - intros (-> & -> & Hquiet & Hfirst).
    destruct processed as [|l0 ls]; cbn.
    + repeat split; constructor.
    + rewrite Hfirst. rewrite (proj1 (mapi_from_content ls 1)).
      repeat split.
      * constructor; [exact (orphan_wave_ok 0 (str "Wave 1") Hquiet)|constructor].
      * now rewrite app_nil_r.
Qed.

Lemma parse_lines_inv (lines : list jsstring) :
  map w_index (parse_lines lines) = seq 0 (length (parse_lines lines)) /\
  Forall wave_ok (parse_lines lines) /\
  wave_lines (parse_lines lines) = expected_lines lines.
Proof.
  unfold parse_lines. apply finish_inv.
  apply (forEach_inv lines [] initial).
  cbn. repeat split; constructor.
Qed.

(** X12. The waves [parseWaves] returns are numbered from 0 in their order,
    and so are the events of each wave. *)
Theorem waves_are_numbered (decodedText : jsstring) :
  map w_index (parseWaves decodedText)
  = seq 0 (length (parseWaves decodedText)) /\
  forall w, In w (parseWaves decodedText) ->
            map index (events w) = seq 0 (length (events w)).
Proof.
  unfold parseWaves.
  destruct (parse_lines_inv (filter non_blank (split_lines decodedText)))
    as (H1 & H2 & _).
  split; [exact H1|]. intros w Hw. rewrite Forall_forall in H2.
  now destruct (H2 w Hw).
Qed.

(** X13. No event is a wave header: the line of an event holds neither
    [AddWave] nor [CreateTrain], for such a line always opens a wave. The
    kind of an event is the one its line gives, and it is [AddBloon],
    [FollowBezier] or [Unknown], never [CreateTrain]. *)
Theorem events_are_not_headers (decodedText : jsstring) (w : Wave) (e : Event) :
  In w (parseWaves decodedText) -> In e (events w) ->
  includes (content e) (str "AddWave") = false /\
  includes (content e) (str "CreateTrain") = false /\
  type e = eventType (content e) /\
  (type e = str "AddBloon" \/ type e = str "FollowBezier" \/
   type e = str "Unknown").
Proof.
  unfold parseWaves. intros Hw He.
  destruct (parse_lines_inv (filter non_blank (split_lines decodedText)))
    as (_ & H2 & _).
  rewrite Forall_forall in H2. destruct (H2 w Hw) as [_ Hev].
  rewrite Forall_forall in Hev. destruct (Hev e He) as [Ht Hs].
  unfold start_word in Hs. apply orb_false_iff in Hs as [Ha Hc].
  repeat split; auto.
  rewrite Ht. unfold eventType. rewrite Hc.
  destruct (includes (content e) (str "AddBloon")); auto.
  destruct (includes (content e) (str "FollowBezier")); auto.
Qed.

Lemma events_are_not_headers_witness :
  let e := {| index := 0; type := str "AddBloon";
              content := str "AddBloon(Blue)" |} in
  type e = eventType (content e) /\
  includes (content e) (str "CreateTrain") = false.
Proof.
  intros e.
  destruct (@events_are_not_headers (join [10%N] sample_lines)
              {| w_index := 1; w_content := str "AddWave(2)"; events := [e] |} e)
    as (_ & H2 & H3 & _).
  - vm_compute. right. left. reflexivity.
  - left. reflexivity.
  - split; [exact H3|exact H2].
Defined.

Lemma join_app (sep : jsstring) (l1 l2 : list jsstring) :
  l1 <> [] -> l2 <> [] ->
  join sep (l1 ++ l2) = join sep l1 ++ sep ++ join sep l2.
Proof.
  intros H1 H2. induction l1 as [|x l1 IH]; [congruence|].
  destruct l1 as [|y l1].
  - cbn [app]. now rewrite join_cons.
  - change ((x :: y :: l1) ++ l2) with (x :: (y :: l1) ++ l2).
    rewrite !join_cons by discriminate.
    rewrite IH by discriminate. now rewrite <- !app_assoc.
Qed.

Lemma join_of_joins (sep : jsstring) (lss : list (list jsstring)) :
  Forall (fun ls => ls <> []) lss ->
  join sep (map (join sep) lss) = join sep (concat lss).
Proof.
  induction 1 as [|ls lss Hls Hlss IH]; [reflexivity|].
  destruct lss as [|ls2 lss'].
  - simpl. now rewrite app_nil_r.
  - inversion Hlss as [|? ? Hls2 _]; subst.
    change (map (join sep) (ls :: ls2 :: lss'))
      with (join sep ls :: map (join sep) (ls2 :: lss')).
    rewrite join_cons by discriminate.
    rewrite IH.
    change (concat (ls :: ls2 :: lss')) with (ls ++ concat (ls2 :: lss')).
    rewrite join_app; auto.
    cbn [concat]. destruct ls2; [congruence|discriminate].
Qed.

Lemma waveText_lines (ws : list Wave) : waveText ws = join [10%N] (wave_lines ws).
Proof.
  unfold waveText, wave_lines. rewrite flat_map_concat_map.
  rewrite <- join_of_joins.
  - now rewrite map_map.
  - apply Forall_forall. intros ls Hls. apply in_map_iff in Hls as (w & <- & _).
    discriminate.
Qed.

(** X14. Parsing loses no line and adds at most a header: the headers and
    events of the waves of a text, in order, are its non-blank lines, under
    the header [Wave 1] when the first of them opens no wave. The text that
    export rebuilds from unedited waves is these lines joined by LF. *)
Theorem no_line_is_lost (decodedText : jsstring) :
  let lines := filter non_blank (split_lines decodedText) in
  wave_lines (parseWaves decodedText) = expected_lines lines /\
  waveText (parseWaves decodedText) = join [10%N] (expected_lines lines).
Proof.
  intros lines. unfold parseWaves. fold lines.
  destruct (parse_lines_inv lines) as (_ & _ & H).
  split; [exact H|]. now rewrite waveText_lines, H.
Qed.

Lemma list_update_spec (A : Type) (f : A -> A) (l : list A) :
  forall i x,
    nth_error l i = Some x ->
    length (list_update l i f) = length l /\
    nth_error (list_update l i f) i = Some (f x) /\
    (forall j, j <> i -> nth_error (list_update l i f) j = nth_error l j) /\
    (f x = x -> list_update l i f = l).
Proof.
  induction l as [|a l IH]; intros [|i] x H; simpl in H; try discriminate.
  - injection H as ->. simpl. repeat split; auto.
    + intros [|j] Hj; [congruence|reflexivity].
    + intros ->. reflexivity.
  - destruct (IH i x H) as (H1 & H2 & H3 & H4). simpl. repeat split; auto.
    + intros [|j] Hj; [reflexivity|]. simpl. apply H3. congruence.
    + intros Hf. now rewrite H4.
Qed.

Lemma list_update_map (A B : Type) (g : A -> B) (f : A -> A) (l : list A) :
  (forall x, g (f x) = g x) ->
  forall i, map g (list_update l i f) = map g l.
Proof.
  intros Hg. induction l as [|a l IH]; intros [|i]; simpl; auto.
  - now rewrite Hg.
  - now rewrite IH.
Qed.

(** X15. Applying an event edit rewrites the content of the selected event
    and nothing else: the waves keep their number, numbers and headers, the
    other waves and the other events of the wave are untouched, and the
    selected event keeps its number and its kind, whatever the new content.
    Applying the draft that selecting the event has set changes nothing. *)
Theorem event_edit_changes_one_event (ws : list Wave) (i j : nat)
        (eventDraft : jsstring) (w : Wave) (e : Event) :
  nth_error ws i = Some w -> nth_error (events w) j = Some e ->
  exists newWaves w',
    handleApplyEventEdit ws (Some i) (Some j) eventDraft = Updated newWaves /\
    length newWaves = length ws /\
    map w_index newWaves = map w_index ws /\
    map w_content newWaves = map w_content ws /\
    (forall i', i' <> i -> nth_error newWaves i' = nth_error ws i') /\
    nth_error newWaves i = Some w' /\
    length (events w') = length (events w) /\
    nth_error (events w') j
    = Some {| index := index e; type := type e; content := eventDraft |} /\
    (forall j', j' <> j -> nth_error (events w') j' = nth_error (events w) j') /\
    handleApplyEventEdit ws (Some i) (Some j) (handleSelectEvent ws (Some i) j)
    = Updated ws.
Proof.
  intros Hw He. unfold handleApplyEventEdit, handleSelectEvent. rewrite Hw, He.
  set (fe := fun d (e0 : Event) =>
               {| index := index e0; type := type e0; content := d |}).
  set (fw := fun d (w0 : Wave) =>
               {| w_index := w_index w0; w_content := w_content w0;
                  events := list_update (events w0) j (fe d) |}).
  destruct (list_update_spec (fw eventDraft) ws i Hw) as (H1 & H2 & H3 & _).
  destruct (list_update_spec (fe eventDraft) (events w) j He) as (G1 & G2 & G3 & _).
  exists (list_update ws i (fw eventDraft)), (fw eventDraft w).
  repeat split; auto.
  - now apply list_update_map.
  - now apply list_update_map.
  - f_equal.
    destruct (list_update_spec (fw (content e)) ws i Hw) as (_ & _ & _ & H4).
    apply H4. unfold fw.
    destruct (list_update_spec (fe (content e)) (events w) j He) as (_ & _ & _ & G4).
    rewrite G4; [now destruct w|]. unfold fe. now destruct e.
Qed.

Lemma event_edit_changes_one_event_witness :
  exists newWaves,
    handleApplyEventEdit (parse_lines sample_lines) (Some 1) (Some 0)
                         (str "CreateTrain(9)") = Updated newWaves /\
    map (fun w => map type (events w)) newWaves
    = [[str "AddBloon"]; [str "AddBloon"]] /\
    wave_lines newWaves
    = [str "CreateTrain(1)"; str "AddBloon(Red)"; str "AddWave(2)";
       str "CreateTrain(9)"].
Proof.
  destruct (@event_edit_changes_one_event (parse_lines sample_lines) 1 0
              (str "CreateTrain(9)")
              {| w_index := 1; w_content := str "AddWave(2)";
                 events := [ {| index := 0; type := str "AddBloon";
                                content := str "AddBloon(Blue)" |} ] |}
              {| index := 0; type := str "AddBloon";
                 content := str "AddBloon(Blue)" |})
    as (newWaves & w' & H & _).
  - vm_compute. reflexivity.
  - reflexivity.
  - exists newWaves. split; [exact H|].
    vm_compute in H. injection H as <-. split; vm_compute; reflexivity.
Defined.

Example event_edit_out_of_range :
  handleApplyEventEdit (parse_lines sample_lines) (Some 0) (Some 5) [] = Threw /\
  handleApplyEventEdit (parse_lines sample_lines) (Some 2) (Some 0) [] = Threw /\
  handleApplyEventEdit (parse_lines sample_lines) None (Some 0) [] = NoSelection.
Proof. repeat split; vm_compute; reflexivity. Qed.

Lemma isWaveStart_later (line : jsstring) (i j : nat) :
  i <> 0 -> j <> 0 -> isWaveStart line i = isWaveStart line j.
Proof.
  intros Hi Hj. unfold isWaveStart.
  apply Nat.eqb_neq in Hi, Hj. now rewrite Hi, Hj.
Qed.

Lemma isWaveStart_first (line : jsstring) (i : nat) :
  isWaveStart line 0 = false -> isWaveStart line i = false.
Proof.
  unfold isWaveStart. intros H.
  apply orb_false_iff in H as [H H4]. rewrite H. simpl.
  simpl in H4. rewrite andb_true_r in H4. rewrite H4. reflexivity.
Qed.

Lemma mapi_from_snoc (A B : Type) (f : A -> nat -> B) (l : list A) (x : A) :
  forall i, mapi_from i f (l ++ [x]) = mapi_from i f l ++ [f x (i + length l)].
Proof.
  induction l as [|a l IH]; intros i; simpl.
  - now rewrite Nat.add_0_r.
  - rewrite IH. now rewrite Nat.add_succ_r.
Qed.

Lemma step_adopted (st : LoopState) (line : jsstring) (i : nat) :
  i <> 0 -> waiting st ->
  step (adopted st) line (S i) = adopted (step st line i) /\
  waiting (step st line i).
Proof.
  intros Hi Hw. unfold step, adopted, waiting in *.
  rewrite (@isWaveStart_later line (S i) i) by auto.
  destruct st as [ws cur orph]. cbn [waves currentWave orphanedLines] in *.
  destruct (isWaveStart line i); destruct cur as [w|].
  - cbn [waves currentWave orphanedLines is_null andb].
    rewrite andb_false_r. cbn [currentWave waves orphanedLines].
    split; [reflexivity|discriminate].
  - destruct (Hw eq_refl) as [-> Ho].
    destruct orph as [|o orph]; [congruence|].
    cbn. split; [reflexivity|discriminate].
  - cbn. split; [reflexivity|discriminate].
  - destruct (Hw eq_refl) as [-> Ho]. cbn. split.
    + unfold mapi. rewrite mapi_from_snoc, length_mapi_from. reflexivity.
    + intros _. split; [reflexivity|]. now destruct orph.
Qed.

Lemma forEach_adopted (lines : list jsstring) :
  forall st i,
    i <> 0 -> waiting st ->
    forEach_from (S i) lines (adopted st) = adopted (forEach_from i lines st) /\
    waiting (forEach_from i lines st).
Proof.
  induction lines as [|line lines IH]; intros st i Hi Hw; simpl; [auto|].
  destruct (step_adopted line Hi Hw) as [-> Hw']. now apply IH.
Qed.

Lemma finish_adopted (st : LoopState) :
  waiting st -> finish (adopted st) = finish st.
Proof.
  unfold waiting, finish, adopted. destruct st as [ws cur orph].
  cbn [waves currentWave orphanedLines]. destruct cur as [w|]; [reflexivity|].
  intros H. destruct (H eq_refl) as [-> Ho].
  destruct orph as [|o orph]; [congruence|]. reflexivity.
Qed.

(** The header [Wave 1] that parsing puts above leading events changes
    nothing when it is parsed again. *)
Lemma parse_expected_lines (lines : list jsstring) :
  parse_lines (expected_lines lines) = parse_lines lines.
Proof.
  destruct lines as [|l0 ls]; [reflexivity|]. cbn [expected_lines].
  destruct (isWaveStart l0 0) eqn:E; [reflexivity|].
  unfold parse_lines. cbn [forEach_from].
  assert (H0 : step initial l0 0
               = {| waves := []; currentWave := None; orphanedLines := [l0] |}).
  { unfold step. rewrite E. reflexivity. }
  assert (H1 : step (step initial (str "Wave 1") 0) l0 1
               = adopted (step initial l0 0)).
  { rewrite H0. replace (step initial (str "Wave 1") 0)
      with {| waves := [];
              currentWave := Some {| w_index := 0; w_content := str "Wave 1";
                                     events := [] |};
              orphanedLines := [] |} by (vm_compute; reflexivity).
    unfold step. rewrite (isWaveStart_first l0 1 E). reflexivity. }
  rewrite H1.
  assert (Hw : waiting (step initial l0 0)).
  { rewrite H0. intros _. split; [reflexivity|discriminate]. }
  destruct (@forEach_adopted ls (step initial l0 0) 1) as [-> Hw']; auto.
  now apply finish_adopted.
Qed.

Lemma non_blank_expected (lines : list jsstring) :
  filter non_blank lines = lines ->
  filter non_blank (expected_lines lines) = expected_lines lines.
Proof.
  intros H. destruct lines as [|l0 ls]; [reflexivity|]. cbn [expected_lines].
  destruct (isWaveStart l0 0); [exact H|].
  change (filter non_blank (str "Wave 1" :: l0 :: ls))
    with (if non_blank (str "Wave 1")
          then str "Wave 1" :: filter non_blank (l0 :: ls)
          else filter non_blank (l0 :: ls)).
  replace (non_blank (str "Wave 1")) with true by reflexivity.
  now rewrite H.
Qed.

Lemma filter_idem (A : Type) (p : A -> bool) (l : list A) :
  filter p (filter p l) = filter p l.
Proof.
  induction l as [|x l IH]; [reflexivity|]. simpl.
  destruct (p x) eqn:E; [|exact IH]. simpl. now rewrite E, IH.
Qed.

Lemma no_break_expected (lines : list jsstring) :
  Forall (fun l => forallb no_break l = true) lines ->
  Forall (fun l => forallb no_break l = true) (expected_lines lines).
Proof.
  intros H. destruct lines as [|l0 ls]; [constructor|]. cbn [expected_lines].
  destruct (isWaveStart l0 0); [exact H|]. constructor; [reflexivity|exact H].
Qed.

(** X16. Export and reopen give the same waves: the text rebuilt from
    the waves of a text parses to these very waves, when no non-blank
    line of the text holds a CR. The header [Wave 1] that parsing puts
    above leading events is read back as the header of the same wave. *)
Theorem waves_reopen (decodedText : jsstring) :
  Forall (fun l => forallb no_break l = true)
         (filter non_blank (split_lines decodedText)) ->
  parseWaves (waveText (parseWaves decodedText)) = parseWaves decodedText.
Proof.
  intros Hnb. unfold parseWaves at 1 3.
  set (lines := filter non_blank (split_lines decodedText)) in *.
  unfold parseWaves. fold lines.
  destruct (parse_lines_inv lines) as (_ & _ & Hl).
  rewrite waveText_lines, Hl.
  destruct lines as [|l0 ls] eqn:El; [reflexivity|].
  rewrite split_join_lines.
  - rewrite non_blank_expected.
    + apply parse_expected_lines.
    + rewrite <- El. unfold lines. apply filter_idem.
  - cbn [expected_lines]. destruct (isWaveStart l0 0); discriminate.
  - now apply no_break_expected.
Qed.

Lemma waves_reopen_witness :
  parseWaves (waveText (parseWaves (str "AddBloon(Red)
AddWave(2)

AddBloon(Blue)")))
  = parseWaves (str "AddBloon(Red)
AddWave(2)

AddBloon(Blue)").
Proof.
  apply waves_reopen. vm_compute. repeat constructor.
Defined.

(** A line that ends with a CR loses it on the way. *)
Example waves_reopen_needs_no_cr :
  let decodedText := [97; 13; 13; 10; 98]%N in
  map (fun w => map content (events w)) (parseWaves decodedText)
  = [[[97; 13]; [98]]]%N /\
  map (fun w => map content (events w))
      (parseWaves (waveText (parseWaves decodedText)))
  = [[[97]; [98]]]%N.
Proof. split; vm_compute; reflexivity. Qed.

Lemma wave_starts_snoc (lines : list jsstring) (line : jsstring) :
  forall i,
    wave_starts_from i (lines ++ [line])
    = wave_starts_from i lines
      ++ (if isWaveStart line (i + length lines) then [line] else []).
Proof.
  induction lines as [|l lines IH]; intros i; simpl.
  - rewrite Nat.add_0_r. now destruct (isWaveStart line i).
  - rewrite IH, Nat.add_succ_r. simpl. now destruct (isWaveStart l i).
Qed.

Lemma wave_starts_later (lines : list jsstring) :
  forall i j, i <> 0 -> j <> 0 ->
              wave_starts_from i lines = wave_starts_from j lines.
Proof.
  induction lines as [|l lines IH]; intros i j Hi Hj; simpl; [reflexivity|].
  rewrite (isWaveStart_later l Hi Hj), (IH (S i) (S j)) by auto. reflexivity.
Qed.

(** Once a wave is open, the headers are the wave-start lines read so far. *)
Lemma step_headers (processed : list jsstring) (st : LoopState) (line : jsstring)
      (w : Wave) :
  currentWave st = Some w ->
  map w_content (waves st ++ [w]) = wave_starts_from 0 processed ->
  exists w',
    currentWave (step st line (length processed)) = Some w' /\
    map w_content (waves (step st line (length processed)) ++ [w'])
    = wave_starts_from 0 (processed ++ [line]).
Proof.
  intros Hcur Hh. rewrite wave_starts_snoc. cbn [Nat.add].
  unfold step. destruct (isWaveStart line (length processed)).
  - rewrite Hcur. rewrite andb_false_r. rewrite Hcur.
    eexists. split; [reflexivity|].
    cbn [waves]. rewrite map_app, Hh. reflexivity.
  - rewrite Hcur. eexists. split; [reflexivity|].
    cbn [waves]. rewrite app_nil_r, <- Hh, !map_app. reflexivity.
Qed.

Lemma forEach_headers (lines : list jsstring) :
  forall processed st w,
    currentWave st = Some w ->
    map w_content (waves st ++ [w]) = wave_starts_from 0 processed ->
    map w_content (finish (forEach_from (length processed) lines st))
    = wave_starts_from 0 (processed ++ lines).
Proof.
  induction lines as [|line lines IH]; intros processed st w Hcur Hh.
  - cbn [forEach_from]. rewrite app_nil_r. unfold finish. rewrite Hcur.
    rewrite andb_false_r. exact Hh.
  - cbn [forEach_from].
    destruct (step_headers processed st line Hcur Hh) as (w' & Hcur' & Hh').
    replace (S (length processed)) with (length (processed ++ [line]))
      by (rewrite length_app; simpl; lia).
    replace (processed ++ line :: lines) with ((processed ++ [line]) ++ lines)
      by (now rewrite <- app_assoc).
    now apply IH with (w := w').
Qed.

Lemma headers_of_started (l0 : jsstring) (ls : list jsstring) :
  isWaveStart l0 0 = true ->
  map w_content (parse_lines (l0 :: ls)) = wave_starts_from 0 (l0 :: ls).
Proof.
  intros H0. unfold parse_lines. cbn [forEach_from].
  apply (@forEach_headers ls [l0] (step initial l0 0)
           {| w_index := 0; w_content := l0; events := [] |}).
  - unfold step. rewrite H0. reflexivity.
  - unfold step. rewrite H0. simpl. now rewrite H0.
Qed.

(** X22. Waves are opened by the wave-start lines and by nothing else: the
    headers of the waves of a text are, in order, its non-blank lines for
    which the wave-start test holds at their index, after the header
    [Wave 1] when the first non-blank line fails the test. *)
Theorem headers_are_wave_starts (decodedText : jsstring) :
  let lines := filter non_blank (split_lines decodedText) in
  map w_content (parseWaves decodedText)
  = match lines with
    | [] => []
    | l0 :: _ =>
        if isWaveStart l0 0 then wave_starts_from 0 lines
        else str "Wave 1" :: wave_starts_from 0 lines
    end.
Proof.
  intros lines. unfold parseWaves. fold lines.
  destruct lines as [|l0 ls]; [reflexivity|].
  destruct (isWaveStart l0 0) eqn:E0.
  - now apply headers_of_started.
  - rewrite <- parse_expected_lines. cbn [expected_lines]. rewrite E0.
    rewrite headers_of_started by reflexivity.
    cbn [wave_starts_from].
    replace (isWaveStart (str "Wave 1") 0) with true by reflexivity.
    f_equal. rewrite (isWaveStart_first l0 1 E0), E0.
    apply wave_starts_later; discriminate.
Qed.

End WaveFacts.

(** ** Opening an exported file *)

Section ReopenFacts.
Variable pako : Pako.
Variable HINTS : list jsstring.

Lemma exec_loop_host_blocks (segs : list Segment) :
  forall (content pre g : jsstring) (fuel idx : nat),
    content = pre ++ g ++ flat_map render segs ->
    quiet g = true ->
    forallb well_formed segs = true ->
    length content < length pre + fuel ->
    exec_loop pako HINTS fuel content (length pre) idx
    = host_blocks pako HINTS idx (length pre + length g) segs.
Proof.
  induction segs as [|seg segs IH]; intros content pre g fuel idx Hc Hg Hw Hf.
  - simpl in *. rewrite app_nil_r in Hc.
    destruct fuel as [|fuel]; [reflexivity|]. simpl.
    unfold exec. replace (length pre <=? length content) with true.
    + subst content. rewrite skipn_app, skipn_all, Nat.sub_diag. simpl.
      now rewrite search_gap_end.
    + symmetry. apply Nat.leb_le. subst content. rewrite length_app. lia.
  - cbn [forallb] in Hw. apply andb_true_iff in Hw as [Hseg Hw].
    unfold well_formed in Hseg.
    apply andb_true_iff in Hseg as [Hseg Hgap].
    apply andb_true_iff in Hseg as [Hseg Hlen].
    apply andb_true_iff in Hseg as [Hq Hi].
    apply Nat.leb_le in Hlen.
    destruct seg as [q inner gap]. simpl in Hq, Hi, Hlen, Hgap.
    cbn [flat_map render s_quote s_inner s_gap] in Hc.
    destruct fuel as [|fuel].
    { exfalso. subst content. rewrite !length_app in Hf. simpl in Hf. lia. }
    cbn [exec_loop].
    assert (E : exec rx content (length pre)
                = Some (rx_result (length pre + length g) q inner)).
    { unfold exec. replace (length pre <=? length content) with true.
      - subst content. rewrite skipn_app, skipn_all, Nat.sub_diag. simpl.
        rewrite <- !app_assoc. simpl.
        now apply search_gap_literal.
      - symmetry. apply Nat.leb_le. subst content. rewrite length_app. lia. }
    rewrite E. cbn [host_blocks s_quote s_inner]. f_equal.
    specialize (IH content (pre ++ g ++ q :: inner ++ [q]) gap fuel (S idx)).
    assert (Hlen' : length (pre ++ g ++ q :: inner ++ [q])
                    = length pre + length g + length inner + 2).
    { rewrite !length_app. simpl. rewrite length_app. simpl. lia. }
    rewrite Hlen' in IH.
    replace (m_end (rx_result (length pre + length g) q inner))
      with (length pre + length g + length inner + 2) by (simpl; lia).
    rewrite IH; auto.
    + f_equal. rewrite render_length. simpl. lia.
    + subst content. rewrite <- !app_assoc. simpl. rewrite <- !app_assoc.
      reflexivity.
    + lia.
Qed.

Lemma parseBlocks_host (g0 : jsstring) (segs : list Segment) :
  quiet g0 = true -> forallb well_formed segs = true ->
  parseBlocks pako HINTS (host g0 segs) = host_blocks pako HINTS 0 (length g0) segs.
Proof.
  intros Hg Hw. unfold parseBlocks.
  apply (@exec_loop_host_blocks segs (host g0 segs) [] g0); auto; simpl; lia.
Qed.

Lemma host_blocks_length (segs : list Segment) :
  forall idx pos, length (host_blocks pako HINTS idx pos segs) = length segs.
Proof. induction segs as [|seg segs IH]; intros idx pos; simpl; auto. Qed.

Lemma host_blocks_app (a b : list Segment) :
  forall idx pos,
    host_blocks pako HINTS idx pos (a ++ b)
    = host_blocks pako HINTS idx pos a
      ++ host_blocks pako HINTS (idx + length a)
                     (pos + length (flat_map render a)) b.
Proof.
  induction a as [|seg a IH]; intros idx pos.
  - simpl. now rewrite !Nat.add_0_r.
  - cbn [app host_blocks flat_map length]. f_equal. rewrite IH.
    f_equal. f_equal; [lia|]. rewrite length_app. lia.
Qed.

Lemma host_blocks_rebase (from to : nat) (segs : list Segment) :
  forall idx pos,
    from <= pos ->
    host_blocks pako HINTS idx (pos - from + to) segs
    = map (rebase from to) (host_blocks pako HINTS idx pos segs).
Proof.
  induction segs as [|seg segs IH]; intros idx pos H; [reflexivity|].
  cbn [host_blocks map]. f_equal.
  - unfold rebase, block_of.
    cbn [index quote innerStart innerEnd original cleanedB64 starsAt decodedText
         likely m_index rx_result].
    change (group (rx_result (pos - from + to) (s_quote seg) (s_inner seg)) 2)
      with (s_inner seg).
    change (group (rx_result pos (s_quote seg) (s_inner seg)) 2)
      with (s_inner seg).
    f_equal; lia.
  - rewrite <- IH by lia. f_equal. lia.
Qed.

Lemma reinsert_is_payload (reB64 : jsstring) (starPositions : list nat) :
  forallb is_base64 reB64 = true ->
  forallb is_payload (reinsertStars reB64 starPositions) = true.
Proof.
  intros Ha. apply forallb_forall. intros c Hc.
  destruct (is_star c) eqn:Est.
  - unfold is_payload. rewrite Est. now rewrite !orb_true_r.
  - assert (Hin : In c (remove_all is_star (reinsertStars reB64 starPositions))).
    { unfold remove_all. apply filter_In. now rewrite Est. }
    rewrite reinsert_keeps_text in Hin.
    unfold remove_all in Hin. apply filter_In in Hin as [Hin _].
    rewrite forallb_forall in Ha. specialize (Ha c Hin).
    change (is_payload c) with (is_base64 c || is_space c || is_star c).
    now rewrite Ha.
Qed.

End ReopenFacts.

(** X17. An exported file opens again with the same blocks. Take a file
    made of payload literals between quiet stretches and export new base64
    text of at least 64 characters into one of its blocks: the scanner
    finds in the new file the blocks before it unchanged, then a block with
    the same number, quote and start whose inner content is the new text
    under the old mask, whose clean text is the new text and whose decoded
    text is what the new text decodes to, then the blocks after it, the
    same but for their offsets, which move with the length of the inner
    content. *)
Theorem reopen_after_export (pako : Pako) (HINTS : list jsstring)
        (g0 : jsstring) (before : list Segment) (seg : Segment)
        (after : list Segment) (reB64 : jsstring) :
  quiet g0 = true ->
  forallb well_formed (before ++ seg :: after) = true ->
  forallb is_base64 reB64 = true -> 64 <= length reB64 ->
  let content := host g0 (before ++ seg :: after) in
  exists bs1 blk bs2,
    parseBlocks pako HINTS content = bs1 ++ blk :: bs2 /\
    length bs1 = length before /\ original blk = s_inner seg /\
    let finalB64 := reinsertStars reB64 (starsAt blk) in
    exists blk',
      parseBlocks pako HINTS (splice content blk reB64)
      = bs1 ++ blk' ::
            map (rebase (innerEnd blk) (innerStart blk + length finalB64)) bs2 /\
      index blk' = index blk /\ quote blk' = quote blk /\
      innerStart blk' = innerStart blk /\
      original blk' = finalB64 /\ cleanedB64 blk' = reB64 /\
      decodedText blk' = match decodeZlibBase64 pako reB64 with
                         | Ok text => Some text
                         | Fail _ => None
                         end.
Proof.
  intros Hg Hw Hb Hlen content.
  pose proof Hw as Hw0.
  rewrite forallb_app in Hw. apply andb_true_iff in Hw as [Hbefore Hw].
  cbn [forallb] in Hw. apply andb_true_iff in Hw as [Hseg Hafter].
  destruct seg as [q inner gap].
  set (p := length g0 + length (flat_map render before)).
  set (blk := block_of pako HINTS (length before) (rx_result p q inner)).
  set (finalB64 := reinsertStars reB64 (collectStarIndices inner)).
  set (seg' := {| s_quote := q; s_inner := finalB64; s_gap := gap |}).
  assert (Hfinal : forallb is_payload finalB64 = true)
    by now apply reinsert_is_payload.
  assert (Hplain : forallb plain reB64 = true).
  { eapply forallb_impl; [|exact Hb].
    intros c Hc. unfold plain.
    destruct (base64_not_space c Hc) as (-> & _ & ->). reflexivity. }
  destruct (strip_reinsert reB64 (collectStarIndices inner) Hplain) as [Hstrip _].
  assert (Hfl : 64 <= length finalB64).
  { unfold finalB64. rewrite reinsertStars_fold, fold_ins_length. lia. }
  assert (Hseg' : well_formed seg' = true).
  { unfold well_formed in Hseg |- *. unfold seg'.
    cbn [s_quote s_inner s_gap] in Hseg |- *.
    apply andb_true_iff in Hseg as [Hseg Hgap].
    apply andb_true_iff in Hseg as [Hseg _].
    apply andb_true_iff in Hseg as [Hq _].
    apply Nat.leb_le in Hfl. rewrite Hq, Hfinal, Hgap, Hfl. reflexivity. }
  assert (Hw' : forallb well_formed (before ++ seg' :: after) = true).
  { rewrite forallb_app. cbn [forallb]. now rewrite Hbefore, Hseg', Hafter. }
  assert (Hold : parseBlocks pako HINTS content
                 = host_blocks pako HINTS 0 (length g0) before
                   ++ blk :: host_blocks pako HINTS (S (length before))
                                         (p + length (render (Build_Segment q inner gap)))
                                         after).
  { unfold content. rewrite parseBlocks_host by assumption.
    rewrite host_blocks_app. cbn [host_blocks s_quote s_inner Nat.add].
    reflexivity. }
  exists (host_blocks pako HINTS 0 (length g0) before), blk,
         (host_blocks pako HINTS (S (length before))
                      (p + length (render (Build_Segment q inner gap))) after).
  split; [exact Hold|]. split; [apply host_blocks_length|].
  split; [reflexivity|].
  change (starsAt blk) with (collectStarIndices inner). fold finalB64.
  cbv zeta.
  exists (block_of pako HINTS (length before) (rx_result p q finalB64)).
  assert (Hsplice : splice content blk reB64 = host g0 (before ++ seg' :: after)).
  { rewrite (@splice_scanned content (g0 ++ flat_map render before) q
                              (gap ++ flat_map render after) blk reB64).
    - unfold host, seg'. rewrite flat_map_app.
      cbn [flat_map render s_quote s_inner s_gap].
      change (starsAt blk) with (collectStarIndices inner). fold finalB64.
      unfold render. cbn [s_quote s_inner s_gap].
      repeat (cbn [app]; rewrite <- ?app_assoc). reflexivity.
    - unfold content, host. rewrite flat_map_app.
      cbn [flat_map render s_quote s_inner s_gap].
      change (original blk) with inner.
      unfold render. cbn [s_quote s_inner s_gap].
      repeat (cbn [app]; rewrite <- ?app_assoc). reflexivity.
    - change (innerStart blk) with (p + 1). unfold p. now rewrite length_app.
    - reflexivity. }
  split.
  - rewrite Hsplice, parseBlocks_host by assumption.
    rewrite host_blocks_app. cbn [host_blocks s_quote s_inner Nat.add].
    fold p. f_equal. f_equal.
    change (innerEnd blk) with (p + 1 + length inner).
    change (innerStart blk) with (p + 1).
    rewrite <- host_blocks_rebase by (rewrite render_length; simpl; lia).
    f_equal. rewrite !render_length. simpl. lia.
  - repeat split.
    + change (cleanedB64 (block_of pako HINTS (length before) (rx_result p q finalB64)))
        with (strip_mask finalB64).
      exact Hstrip.
    + change (decodedText (block_of pako HINTS (length before) (rx_result p q finalB64)))
        with (match decodeZlibBase64 pako (strip_mask finalB64) with
              | Ok text => Some text
              | Fail _ => None
              end).
      unfold finalB64. now rewrite Hstrip.
Qed.

Lemma reopen_after_export_witness :
  let content := host (str "data = ") sample_segments in
  exists blk blk2 blk',
    parseBlocks Reference.pako WAVY_HINTS content = [blk; blk2] /\
    parseBlocks Reference.pako WAVY_HINTS (splice content blk sample_reB64)
    = [blk'; rebase 98 77 blk2] /\
    cleanedB64 blk' = sample_reB64 /\ decodedText blk' = Some [].
Proof.
  intros content.
  destruct (@reopen_after_export Reference.pako WAVY_HINTS (str "data = ") []
              {| s_quote := 39%N;
                 s_inner := str "eAEB*NgDJ/0NyZWF0ZVRyYWluKDEpCkFkZEJsb29uKFJlZCkKQWRkV2F2ZSgyKQpBZGRCbG9vbihCbHVlKeWJEV0=*";
                 s_gap := str "; env = " |}
              [ {| s_quote := 34%N;
                   s_inner := str "eAEBNgDJ/3ZhciBzcGVlZCA9IDM7CnRoaXMuZGVidWcgPSB0cnVlOwpjb25zdCBzaXplcyA9IFsxLDJdO+joEVM=";
                   s_gap := str ";" |} ]
              sample_reB64)
    as (bs1 & blk & bs2 & Hold & Hlen & _ & blk' & Hnew & _ & _ & _ & _ & Hc & Hd).
  - reflexivity.
  - vm_compute. reflexivity.
  - vm_compute. reflexivity.
  - apply Nat.leb_le. vm_compute. reflexivity.
  - destruct bs1 as [|b bs1]; [|discriminate Hlen].
    change (host (str "data = ") ([] ++ _)) with content in Hold, Hnew.
    assert (Hb : exists blk2, bs2 = [blk2] /\
                   innerEnd blk = 98 /\
                   innerStart blk + length (reinsertStars sample_reB64 (starsAt blk))
                   = 77).
    { vm_compute in Hold. injection Hold as <- <-. eexists.
      split; [reflexivity|]. split; vm_compute; reflexivity. }
    destruct Hb as (blk2 & -> & He & Hs).
    exists blk, blk2, blk'. cbv zeta in Hnew. rewrite He, Hs in Hnew.
    split; [exact Hold|]. split; [exact Hnew|]. split; [exact Hc|].
    rewrite Hd. vm_compute. reflexivity.
Defined.

(** ** Patterns *)

Lemma startsWith_split (p s : jsstring) :
  startsWith s p = true -> s = p ++ skipn (length p) s.
Proof.
  revert s. induction p as [|x p IH]; intros s H; [reflexivity|].
  destruct s as [|y s]; [discriminate|]. simpl in H.
  apply andb_true_iff in H as [Hxy H]. apply ceq_eq in Hxy. subst y.
  simpl. f_equal. now apply IH.
Qed.

Lemma rep_greedy_sound (R : Type) (p : char -> bool) (min : nat)
      (k : nat -> jsstring -> option R) (x : R) (s : jsstring) :
  forall count pos,
    rep_greedy p min count pos s k = Some x ->
    exists w rest,
      s = w ++ rest /\ forallb p w = true /\ min <= count + length w /\
      k (pos + length w) rest = Some x.
Proof.
  assert (Hstop : forall count pos s0,
             (if min <=? count then k pos s0 else None) = Some x ->
             exists w rest,
               s0 = w ++ rest /\ forallb p w = true /\ min <= count + length w /\
               k (pos + length w) rest = Some x).
  { intros count pos s0 H. destruct (min <=? count) eqn:E; [|discriminate].
    apply Nat.leb_le in E. exists [], s0. simpl. rewrite !Nat.add_0_r. auto. }
  induction s as [|c s IH]; intros count pos; simpl; [apply Hstop|].
  destruct (p c) eqn:Hc; [|apply Hstop].
  destruct (rep_greedy p min (S count) (S pos) s k) as [y|] eqn:E; [|apply Hstop].
  intros H. injection H as ->.
  apply IH in E as (w & rest & -> & Hw & Hmin & Hk).
  exists (c :: w), rest. simpl. rewrite Hc, Hw.
  rewrite !Nat.add_succ_r. repeat split; auto.
Qed.

Lemma rmatch_sound (R : Type) (r : regex) :
  forall pos s g (k : nat -> jsstring -> captures -> option R) (x : R),
    rmatch r pos s g k = Some x ->
    exists w rest g',
      s = w ++ rest /\ sem r pos g w rest g' /\
      k (pos + length w) rest g' = Some x.
Proof.
  induction r as [|p|r1 IH1 r2 IH2|r1 IH1 r2 IH2|r1 IH1|min p|n r1 IH1|n| |];
    intros pos s g k x H; cbn [rmatch] in H.
  - exists [], s, g. simpl. rewrite Nat.add_0_r. auto.
  - destruct s as [|c t]; [discriminate|].
    destruct (p c) eqn:Hc; [|discriminate].
    exists [c], t, g. simpl. rewrite Nat.add_1_r. repeat split; eauto.
  - apply IH1 in H as (w1 & rest1 & g1 & -> & H1 & H).
    apply IH2 in H as (w2 & rest & g' & -> & H2 & H).
    exists (w1 ++ w2), rest, g'. rewrite <- app_assoc. split; [reflexivity|].
    split.
    + cbn [sem]. exists w1, w2, g1. auto.
    + rewrite length_app, Nat.add_assoc. exact H.
  - destruct (rmatch r1 pos s g k) as [y|] eqn:E.
    + injection H as ->. apply IH1 in E as (w & rest & g' & -> & H1 & H).
      exists w, rest, g'. cbn [sem]. auto.
    + apply IH2 in H as (w & rest & g' & -> & H2 & H).
      exists w, rest, g'. cbn [sem]. auto.
  - destruct (rmatch r1 pos s g k) as [y|] eqn:E.
    + injection H as ->. apply IH1 in E as (w & rest & g' & -> & H1 & H).
      exists w, rest, g'. cbn [sem]. auto.
    + exists [], s, g. cbn [sem]. simpl. rewrite Nat.add_0_r. auto.
  - apply rep_greedy_sound in H as (w & rest & -> & Hw & Hmin & H).
    exists w, rest, g. cbn [sem]. auto.
  - apply IH1 in H as (w & rest & g1 & -> & H1 & H).
    exists w, rest, ((n, w) :: g1). split; [reflexivity|]. split.
    + cbn [sem]. eauto.
    + replace (pos + length w - pos) with (length w) in H by lia.
      now rewrite firstn_app, firstn_all, Nat.sub_diag, app_nil_r in H.
  - destruct (get_cap n g) as [v|] eqn:E.
    + destruct (startsWith s v) eqn:Es; [|discriminate].
      exists v, (skipn (length v) s), g. cbn [sem]. rewrite E.
      split; [now apply startsWith_split|]. auto.
    + exists [], s, g. cbn [sem]. rewrite E. simpl. rewrite Nat.add_0_r. auto.
  - destruct (pos =? 0) eqn:E; [|discriminate]. apply Nat.eqb_eq in E.
    exists [], s, g. cbn [sem]. simpl. rewrite Nat.add_0_r. auto.
  - destruct s as [|c t]; [|discriminate].
    exists [], [], g. cbn [sem]. simpl. rewrite Nat.add_0_r. auto.
Qed.

(** What [exec] finds is a stretch of the text that the pattern can match,
    with the captures of that match. *)
Lemma exec_sound (r : regex) (s : jsstring) (m : MatchResult) :
  exec r s 0 = Some m ->
  exists pre w rest,
    s = pre ++ w ++ rest /\ sem r (length pre) [] w rest (m_groups m) /\
    m_index m = length pre /\ m_end m = length pre + length w.
Proof.
  unfold exec. simpl. intros H.
  apply search_found in H as (pre & post & -> & H).
  unfold match_at in H.
  apply rmatch_sound in H as (w & rest & g' & -> & Hs & H).
  injection H as <-. exists pre, w, rest. simpl. auto.
Qed.

Lemma rep_greedy_max (R : Type) (p : char -> bool) (min : nat)
      (k : nat -> jsstring -> option R) (x : R) (s : jsstring) :
  forall count pos a r,
    span p s = (a, r) -> min <= count + length a ->
    k (pos + length a) r = Some x ->
    rep_greedy p min count pos s k = Some x.
Proof.
  induction s as [|c s IH]; intros count pos a r Hs Hmin Hk; simpl in *.
  - injection Hs as <- <-. simpl in *. rewrite Nat.add_0_r in *.
    apply Nat.leb_le in Hmin. now rewrite Hmin.
  - destruct (p c).
    + destruct (span p s) as [a' r'] eqn:E. injection Hs as <- <-.
      simpl in Hmin, Hk. rewrite Nat.add_succ_r in Hmin, Hk.
      now rewrite (IH (S count) (S pos) a' r' eq_refl Hmin Hk).
    + injection Hs as <- <-. simpl in *. rewrite Nat.add_0_r in *.
      apply Nat.leb_le in Hmin. now rewrite Hmin.
Qed.

Section Greedy.
Variable R : Type.
Variable g : captures.
Variable k : nat -> jsstring -> captures -> option R.
Variable x : R.

Lemma rmatch_cat (r1 r2 : regex) (pos : nat) (s : jsstring) :
  rmatch (r1 +++ r2) pos s g k
  = rmatch r1 pos s g (fun pos' s' g' => rmatch r2 pos' s' g' k).
Proof. reflexivity. Qed.

Lemma rmatch_chars (l t : jsstring) (pos : nat) :
  rmatch (fold_right (fun c r => Cls (ceq c) +++ r) Eps l) pos (l ++ t) g k
  = k (pos + length l) t g.
Proof.
  revert pos. induction l as [|c l IH]; intros pos; simpl.
  - now rewrite Nat.add_0_r.
  - rewrite ceq_refl, IH. now rewrite Nat.add_succ_r.
Qed.

Lemma rmatch_rep_max (p : char -> bool) (min pos : nat) (s a r : jsstring) :
  span p s = (a, r) -> min <= length a ->
  k (pos + length a) r g = Some x ->
  rmatch (Rep min p) pos s g k = Some x.
Proof.
  intros Hs Hmin Hk. cbn [rmatch].
  now apply rep_greedy_max with (a := a) (r := r).
Qed.

Lemma rmatch_group_max (n : nat) (p : char -> bool) (min pos : nat)
      (s a r : jsstring) :
  span p s = (a, r) -> min <= length a ->
  k (pos + length a) r ((n, a) :: g) = Some x ->
  rmatch (Grp n (Rep min p)) pos s g k = Some x.
Proof.
  intros Hs Hmin Hk. cbn [rmatch].
  apply rep_greedy_max with (a := a) (r := r); auto.
  replace (pos + length a - pos) with (length a) by lia.
  pose proof (span_spec p s) as [Hsplit _]. rewrite Hs in Hsplit. simpl in Hsplit.
  rewrite Hsplit, firstn_app, firstn_all, Nat.sub_diag. simpl.
  now rewrite app_nil_r.
Qed.

Lemma rmatch_class (p : char -> bool) (pos : nat) (c : char) (t : jsstring) :
  p c = true -> k (S pos) t g = Some x -> rmatch (Cls p) pos (c :: t) g k = Some x.
Proof. intros Hc Hk. cbn [rmatch]. now rewrite Hc. Qed.

Lemma rmatch_alt_left (r1 r2 : regex) (pos : nat) (s : jsstring) :
  rmatch r1 pos s g k = Some x -> rmatch (Alt r1 r2) pos s g k = Some x.
Proof. intros H. cbn [rmatch]. now rewrite H. Qed.

Lemma rmatch_alt_right (r1 r2 : regex) (pos : nat) (s : jsstring) :
  rmatch r1 pos s g k = None -> rmatch r2 pos s g k = Some x ->
  rmatch (Alt r1 r2) pos s g k = Some x.
Proof. intros H1 H2. cbn [rmatch]. now rewrite H1. Qed.
End Greedy.

Lemma search_here (r : regex) (pos : nat) (s : jsstring) (m : MatchResult) :
  match_at r pos s = Some m -> search r pos s = Some m.
Proof. intros H. destruct s; simpl; now rewrite H. Qed.

(** ** Declarations *)

Module EnvFacts.
Import EnvParser EnvEdit.

Lemma nonempty_length (A : Type) (l : list A) : 1 <= length l -> l <> [].
Proof. destruct l; simpl; [lia|discriminate]. Qed.

Lemma sem_core (pos : nat) (g : captures) (w rest : jsstring) (g' : captures) :
  sem core pos g w rest g' ->
  exists name raw,
    declares w name raw /\ get_cap 1 g' = Some name /\ get_cap 2 g' = Some raw.
Proof.
  unfold core, tail. cbn [sem].
  intros (name & w2 & g1 & -> & (g0 & [[Hn1 Hn2] ->] & ->) &
          ws1 & w3 & g2 & -> & [[_ Hs1] ->] &
          c1 & w4 & g3 & -> & [(c & -> & Hc) ->] &
          ws2 & w5 & g4 & -> & [[_ Hs2] ->] &
          raw & semi & g5 & -> & (g6 & [[Hr1 Hr2] ->] & ->) & Hopt).
  assert (Hg : g' = (2, raw) :: (1, name) :: g) by (destruct Hopt as [[_ ->]|[_ ->]]; reflexivity).
  exists name, raw. subst g'. repeat split; try reflexivity.
  exists [], ws1, c, ws2, semi.
  assert (Hc' : c = 58%N \/ c = 61%N).
  { apply orb_true_iff in Hc as [Hc|Hc]; apply ceq_eq in Hc; auto. }
  apply nonempty_length in Hn1, Hr1. simpl. repeat split; auto.
Qed.

Lemma sem_patterns (r : regex) (pos : nat) (w rest : jsstring) (g' : captures) :
  In r patterns -> sem r pos [] w rest g' ->
  exists name raw,
    declares w name raw /\ get_cap 1 g' = Some name /\ get_cap 2 g' = Some raw.
Proof.
  assert (Hpre : forall p0 w' name raw,
             declares w' name raw -> declares (p0 ++ w') name raw).
  { intros p0 w' name raw (pre & ws1 & c & ws2 & post & -> & H).
    exists (p0 ++ pre), ws1, c, ws2, post. now rewrite <- app_assoc. }
  intros [<-|[<-|[<-|[]]]] H.
  - destruct H as (w1 & w2 & g1 & -> & _ & w3 & w4 & g2 & -> & _ & H).
    apply sem_core in H as (name & raw & H & H1 & H2).
    exists name, raw. auto.
  - destruct H as (w1 & w2 & g1 & -> & _ & H).
    apply sem_core in H as (name & raw & H & H1 & H2).
    exists name, raw. auto.
  - now apply sem_core in H.
Qed.

Lemma first_match_declares (ps : list regex) (line : jsstring)
      (v : EnvironmentVariable) :
  incl ps patterns ->
  first_match ps line = Some v ->
  rawLine v = line /\ type v = type_of (value v) /\
  category v = category_of (name v) /\
  exists raw, declares line (name v) raw /\ value v = cleanValue_of raw.
Proof.
  induction ps as [|p ps IH]; intros Hin; cbn [first_match]; [discriminate|].
  destruct (exec p line 0) as [m|] eqn:E.
  - intros H. injection H as <-. cbn [rawLine type value category name].
    repeat split.
    apply exec_sound in E as (pre & w & rest & -> & Hs & _).
    apply sem_patterns in Hs as (name & raw & Hd & H1 & H2);
      [|apply Hin; now left].
    unfold group. rewrite H1, H2. exists raw. split; [|reflexivity].
    destruct Hd as (p0 & ws1 & c & ws2 & post & -> & Hd).
    exists (pre ++ p0), ws1, c, ws2, (post ++ rest).
    split; [|exact Hd]. rewrite <- !app_assoc. cbn [app].
    now rewrite <- !app_assoc.
  - apply IH. intros x Hx. apply Hin. now right.
Qed.

Lemma trimStart_stable (s : jsstring) :
  match s with c :: _ => is_space c = false | [] => True end ->
  trimStart s = s.
Proof. destruct s as [|c s]; [reflexivity|]. simpl. now intros ->. Qed.

Lemma trimStart_head (s : jsstring) :
  match trimStart s with c :: _ => is_space c = false | [] => True end.
Proof.
  induction s as [|c s IH]; simpl; [exact I|].
  destruct (is_space c) eqn:E; [exact IH|exact E].
Qed.

Lemma trimStart_suffix (s : jsstring) :
  exists sp, s = sp ++ trimStart s /\ forallb is_space sp = true.
Proof.
  induction s as [|c s (sp & IH & Hsp)]; [now exists []|]. simpl.
  destruct (is_space c) eqn:E.
  - exists (c :: sp). simpl. rewrite E, Hsp. split; [now f_equal|reflexivity].
  - now exists [].
Qed.

Lemma trimStart_idem (s : jsstring) : trimStart (trimStart s) = trimStart s.
Proof. apply trimStart_stable, trimStart_head. Qed.

Lemma trimEnd_prefix (s : jsstring) :
  exists sp, s = trimEnd s ++ sp /\ forallb is_space sp = true.
Proof.
  unfold trimEnd. destruct (trimStart_suffix (rev s)) as (sp & H & Hsp).
  exists (rev sp). split.
  - rewrite <- rev_app_distr, <- H. now rewrite rev_involutive.
  - rewrite forallb_forall in *. intros x Hx. apply Hsp. now apply in_rev.
Qed.

(** [trim] does nothing to a trimmed text. *)
Lemma trim_idem (s : jsstring) : trim (trim s) = trim s.
Proof.
  assert (Hend : trimStart (rev (trim s)) = rev (trim s)).
  { unfold trim, trimEnd. rewrite rev_involutive. apply trimStart_idem. }
  assert (Hstart : trimStart (trim s) = trim s).
  { apply trimStart_stable. unfold trim.
    pose proof (trimStart_head s) as Hh.
    destruct (trimEnd_prefix (trimStart s)) as (sp & H & _).
    destruct (trimEnd (trimStart s)) as [|c t]; [exact I|].
    rewrite H in Hh. exact Hh. }
  unfold trim at 1. rewrite Hstart. unfold trimEnd. rewrite Hend.
  apply rev_involutive.
Qed.

Lemma parse_line_record (line : jsstring) (v : EnvironmentVariable) :
  parse_line line = Some v ->
  rawLine v = trim line /\ rawLine v <> [] /\
  startsWith (rawLine v) (str "//") = false /\
  startsWith (rawLine v) (str "/*") = false /\
  type v = type_of (value v) /\ category v = category_of (name v) /\
  exists raw, declares (rawLine v) (name v) raw /\ value v = cleanValue_of raw.
Proof.
  unfold parse_line. destruct (trim line) as [|c t] eqn:Et; [discriminate|].
  destruct (startsWith (c :: t) (str "//")) eqn:E1; [discriminate|].
  destruct (startsWith (c :: t) (str "/*")) eqn:E2; [discriminate|].
  cbn [orb]. intros H.
  apply first_match_declares in H as (Hr & Ht & Hc & raw & Hd & Hv);
    [|apply incl_refl].
  rewrite Hr. repeat split; auto; [discriminate|].
  exists raw. auto.
Qed.

Lemma In_parse (decodedText : jsstring) (v : EnvironmentVariable) :
  In v (parseEnvironmentVariables decodedText) ->
  exists line, In line (split_lines decodedText) /\ parse_line line = Some v.
Proof.
  unfold parseEnvironmentVariables. intros H.
  apply in_flat_map in H as (line & Hl & H).
  destruct (parse_line line) as [v'|] eqn:E; [|contradiction].
  destruct H as [<-|[]]. eauto.
Qed.

Lemma In_cleanValue (x : char) (raw : jsstring) :
  In x (cleanValue_of raw) -> In x raw /\ x <> 59%N /\ x <> 44%N.
Proof.
  unfold cleanValue_of. intros H. apply In_trim in H.
  unfold remove_all in H. apply filter_In in H as [H Hx]. split; [exact H|].
  apply negb_true_iff, orb_false_iff in Hx as [H1 H2].
  split; intros ->; discriminate.
Qed.

(** X18. Every record comes from a declaration of its line: the raw line
    holds the name, a non-empty run of word characters, then optional
    whitespace, a colon or an equals sign, optional whitespace and a
    non-empty raw value without line terminators, and the value of the
    record is this raw value without its semicolons and commas, trimmed. *)
Theorem record_is_declared (decodedText : jsstring) (v : EnvironmentVariable) :
  In v (parseEnvironmentVariables decodedText) ->
  exists pre ws1 c ws2 raw post,
    rawLine v = pre ++ name v ++ ws1 ++ c :: ws2 ++ raw ++ post /\
    name v <> [] /\ forallb is_word (name v) = true /\
    forallb is_space ws1 = true /\ (c = 58%N \/ c = 61%N) /\
    forallb is_space ws2 = true /\
    raw <> [] /\ forallb is_dot raw = true /\
    value v = cleanValue_of raw.
Proof.
  intros H. apply In_parse in H as (line & _ & H).
  apply parse_line_record in H as (_ & _ & _ & _ & _ & _ & raw & Hd & Hv).
  destruct Hd as (pre & ws1 & c & ws2 & post & H).
  exists pre, ws1, c, ws2, raw, post. tauto.
Qed.

Lemma record_is_declared_witness :
  exists pre ws1 c ws2 raw post,
    str "this.debug = true;" = pre ++ str "debug" ++ ws1 ++ c :: ws2 ++ raw ++ post /\
    str "true" = cleanValue_of raw.
Proof.
  destruct (@record_is_declared (str "var speed = 3;
this.debug = true;")
              {| name := str "debug"; value := str "true"; type := TBoolean;
                 category := str "Debug"; rawLine := str "this.debug = true;" |})
    as (pre & ws1 & c & ws2 & raw & post & H1 & _ & _ & _ & _ & _ & _ & _ & H2).
  - vm_compute. right. left. reflexivity.
  - exists pre, ws1, c, ws2, raw, post. split; [exact H1|exact H2].
Defined.

Lemma parse_length (decodedText : jsstring) :
  length (parseEnvironmentVariables decodedText)
  <= length (split_lines decodedText).
Proof.
  unfold parseEnvironmentVariables.
  induction (split_lines decodedText) as [|l ls IH]; simpl; [lia|].
  rewrite length_app. destruct (parse_line l); simpl; lia.
Qed.

(** X19. The fields of a record: the raw line is a line of the text,
    trimmed, not empty and not a comment; the value is trimmed and holds
    no semicolon, no comma and no line terminator; the kind and the
    category are those of the value and of the name. No line gives more
    than one record. *)
Theorem record_fields (decodedText : jsstring) (v : EnvironmentVariable) :
  In v (parseEnvironmentVariables decodedText) ->
  (exists line, In line (split_lines decodedText) /\ rawLine v = trim line) /\
  rawLine v <> [] /\
  startsWith (rawLine v) (str "//") = false /\
  startsWith (rawLine v) (str "/*") = false /\
  trim (value v) = value v /\
  forallb (fun c => is_dot c && negb (ceq c 59%N) && negb (ceq c 44%N))
          (value v) = true /\
  type v = type_of (value v) /\ category v = category_of (name v) /\
  length (parseEnvironmentVariables decodedText)
  <= length (split_lines decodedText).
Proof.
  intros H. apply In_parse in H as (line & Hl & H).
  apply parse_line_record in H
    as (Hr & Hne & Hc1 & Hc2 & Ht & Hc & raw & Hd & Hv).
  repeat split; eauto.
  - rewrite Hv. unfold cleanValue_of. apply trim_idem.
  - apply forallb_forall. intros x Hx. rewrite Hv in Hx.
    apply In_cleanValue in Hx as (Hx & H1 & H2).
    destruct Hd as (_ & _ & _ & _ & _ & _ & _ & _ & _ & _ & _ & _ & Hdot).
    rewrite forallb_forall in Hdot. rewrite (Hdot x Hx). simpl.
    apply andb_true_iff. split; apply negb_true_iff.
    + destruct (ceq x 59%N) eqn:E; [apply ceq_eq in E; contradiction|reflexivity].
    + destruct (ceq x 44%N) eqn:E; [apply ceq_eq in E; contradiction|reflexivity].
  - apply parse_length.
Qed.

Lemma record_fields_witness :
  let v := {| name := str "sizes"; value := str "[12]"; type := TArray;
              category := str "Layout"; rawLine := str "const sizes = [1,2];" |} in
  trim (value v) = value v /\ type v = type_of (value v) /\
  category v = category_of (name v).
Proof.
  intros v.
  destruct (@record_fields (str "  const sizes = [1,2];
var speed=3") v) as (_ & _ & _ & _ & H1 & _ & H2 & H3 & _).
  - vm_compute. left. reflexivity.
  - auto.
Defined.

Lemma word_not_space (c : char) : is_word c = true -> is_space c = false.
Proof.
  intros H.
  assert (Hr : (48 <= c <= 122)%N).
  { unfold is_word, is_upper, is_lower, is_digit, in_range, ceq in H.
    repeat (apply orb_true_iff in H as [H|H]);
      try (apply andb_true_iff in H as [H1 H2];
           apply N.leb_le in H1; apply N.leb_le in H2; lia).
    apply N.eqb_eq in H. lia. }
  unfold is_space, in_range, ceq.
  repeat (apply orb_false_iff; split);
    try (apply N.eqb_neq; lia);
    try (apply andb_false_iff; (left; apply N.leb_gt; lia) || (right; apply N.leb_gt; lia)).
Qed.

Lemma word_no_break (c : char) : is_word c = true -> no_break c = true.
Proof.
  intros H.
  assert (Hr : (48 <= c <= 122)%N).
  { unfold is_word, is_upper, is_lower, is_digit, in_range, ceq in H.
    repeat (apply orb_true_iff in H as [H|H]);
      try (apply andb_true_iff in H as [H1 H2];
           apply N.leb_le in H1; apply N.leb_le in H2; lia).
    apply N.eqb_eq in H. lia. }
  unfold no_break, ceq. apply andb_true_iff.
  split; apply negb_true_iff, N.eqb_neq; lia.
Qed.

Lemma dot_no_break (c : char) : is_dot c = true -> no_break c = true.
Proof.
  unfold is_dot, no_break. intros H.
  apply negb_true_iff in H.
  apply orb_false_iff in H as [H _]. apply orb_false_iff in H as [H _].
  apply orb_false_iff in H as [H1 H2]. now rewrite H1, H2.
Qed.

Lemma value_head (value : jsstring) :
  trim value = value ->
  match value ++ str ";" with c :: _ => is_space c = false | [] => True end.
Proof.
  intros H. destruct value as [|c t]; [reflexivity|].
  pose proof (trimStart_head (c :: t)) as Hh.
  assert (Hs : trimStart (c :: t) = c :: t).
  { rewrite <- H at 2. rewrite <- H at 1.
    apply trimStart_stable. unfold trim.
    pose proof (trimStart_head (c :: t)) as Hh'.
    destruct (trimEnd_prefix (trimStart (c :: t))) as (sp & Hp & _).
    destruct (trimEnd (trimStart (c :: t))) as [|c' t']; [exact I|].
    rewrite Hp in Hh'. exact Hh'. }
  rewrite Hs in Hh. exact Hh.
Qed.

Lemma core_matches (pos : nat) (name value : jsstring) (g : captures) :
  name <> [] -> forallb is_word name = true ->
  trim value = value -> forallb is_dot value = true ->
  forall (R : Type) (k : nat -> jsstring -> captures -> option R) (f : nat -> R),
    (forall e, k e [] ((2, value ++ str ";") :: (1, name) :: g) = Some (f e)) ->
    exists e,
      rmatch core pos (name ++ str " = " ++ value ++ str ";") g k = Some (f e).
Proof.
  intros Hne Hw Ht Hd R k f Hk. unfold core, tail. eexists.
  rewrite rmatch_cat.
  apply rmatch_group_max with (a := name) (r := str " = " ++ value ++ str ";").
  { now apply span_stop. }
  { destruct name; [congruence|simpl; lia]. }
  rewrite rmatch_cat.
  apply rmatch_rep_max
    with (a := [32%N]) (r := 61%N :: 32%N :: value ++ str ";");
    [reflexivity|simpl; lia|].
  rewrite rmatch_cat. apply rmatch_class; [reflexivity|].
  rewrite rmatch_cat.
  apply rmatch_rep_max with (a := [32%N]) (r := value ++ str ";").
  { apply (span_stop is_space [32%N] (value ++ str ";") eq_refl).
    now apply value_head. }
  { simpl. lia. }
  rewrite rmatch_cat.
  apply rmatch_group_max with (a := value ++ str ";") (r := []).
  { rewrite <- (app_nil_r (value ++ str ";")) at 1. apply span_stop; [|exact I].
    rewrite forallb_app, Hd. reflexivity. }
  { rewrite length_app. simpl. lia. }
  cbn [rmatch]. apply Hk.
Qed.

(** On the line export writes with [var] or [const], the first pattern
    matches at the start of the line and captures the name and the value
    with its semicolon. *)
Lemma exec_declaration (keyword name value : jsstring) :
  keyword = str "var" \/ keyword = str "const" ->
  name <> [] -> forallb is_word name = true ->
  trim value = value -> forallb is_dot value = true ->
  exists m,
    exec declaration (keyword ++ 32%N :: name ++ str " = " ++ value ++ str ";") 0
    = Some m /\
    m_groups m = [(2, value ++ str ";"); (1, name)].
Proof.
  intros Hkw Hne Hw Ht Hd.
  set (line := keyword ++ 32%N :: name ++ str " = " ++ value ++ str ";").
  set (k := fun (e : nat) (_ : jsstring) (g : captures) =>
              Some {| m_index := 0; m_end := e; m_groups := g |}).
  assert (Hfirst : match name ++ str " = " ++ value ++ str ";" with
                   | c :: _ => is_space c = false
                   | [] => True
                   end).
  { destruct name as [|c name]; [congruence|]. simpl in Hw.
    apply andb_true_iff in Hw as [Hc _]. now apply word_not_space. }
  assert (Hrest : forall pos,
             exists e,
               rmatch (Rep 1 is_space +++ core) pos
                      (32%N :: name ++ str " = " ++ value ++ str ";") [] k
               = Some {| m_index := 0; m_end := e;
                         m_groups := [(2, value ++ str ";"); (1, name)] |}).
  { intros pos.
    destruct (@core_matches (pos + 1) name value [] Hne Hw Ht Hd _ k
                (fun e => {| m_index := 0; m_end := e;
                             m_groups := [(2, value ++ str ";"); (1, name)] |}))
      as [e He]; [reflexivity|].
    exists e. rewrite rmatch_cat.
    apply rmatch_rep_max
      with (a := [32%N]) (r := name ++ str " = " ++ value ++ str ";").
    - now apply (span_stop is_space [32%N] _ eq_refl).
    - simpl; lia.
    - exact He. }
  assert (Hm : exists m, match_at declaration 0 line = Some m /\
                         m_groups m = [(2, value ++ str ";"); (1, name)]).
  { unfold match_at, declaration. fold k. rewrite rmatch_cat. cbn [alts].
    destruct Hkw as [Hkw|Hkw]; subst keyword line.
    - destruct (Hrest (0 + length (str "var"))) as [e He].
      exists {| m_index := 0; m_end := e;
                m_groups := [(2, value ++ str ";"); (1, name)] |}.
      split; [|reflexivity].
      apply rmatch_alt_left. unfold lit. rewrite rmatch_chars. exact He.
    - destruct (Hrest (0 + length (str "const"))) as [e He].
      exists {| m_index := 0; m_end := e;
                m_groups := [(2, value ++ str ";"); (1, name)] |}.
      split; [|reflexivity].
      apply rmatch_alt_right; [reflexivity|].
      apply rmatch_alt_left. unfold lit. rewrite rmatch_chars. exact He. }
  destruct Hm as (m & Hm & Hg). exists m. split; [|exact Hg].
  unfold exec. cbn [Nat.leb skipn]. now apply search_here.
Qed.

Lemma filter_all_true (A : Type) (p : A -> bool) (l : list A) :
  forallb p l = true -> filter p l = l.
Proof.
  induction l as [|x l IH]; simpl; [reflexivity|].
  intros H. apply andb_true_iff in H as [-> H]. now rewrite IH.
Qed.

Lemma cleanValue_semicolon (value : jsstring) :
  trim value = value ->
  forallb (fun c => negb (ceq c 59%N || ceq c 44%N)) value = true ->
  cleanValue_of (value ++ str ";") = value.
Proof.
  intros Ht Hs. unfold cleanValue_of, remove_all.
  rewrite filter_app, filter_all_true by exact Hs.
  simpl. now rewrite app_nil_r.
Qed.

Lemma trim_stable (s : jsstring) :
  trimStart s = s -> trimStart (rev s) = rev s -> trim s = s.
Proof.
  intros H1 H2. unfold trim, trimEnd. rewrite H1, H2. apply rev_involutive.
Qed.

Lemma parse_declaration (keyword : jsstring) (v : EnvironmentVariable) :
  keyword = str "var" \/ keyword = str "const" ->
  clean v ->
  let line := keyword ++ 32%N :: name v ++ str " = " ++ value v ++ str ";" in
  parse_line line
  = Some {| name := name v; value := value v; type := type v;
            category := category v; rawLine := line |}.
Proof.
  intros Hkw (Hne & Hw & Ht & Hv & Hty & Hcat) line.
  assert (Hd : forallb is_dot (value v) = true).
  { eapply forallb_impl; [|exact Hv]. intros c Hc.
    apply andb_true_iff in Hc as [Hc _]. now apply andb_true_iff in Hc as [Hc _]. }
  assert (Hs : forallb (fun c => negb (ceq c 59%N || ceq c 44%N)) (value v) = true).
  { eapply forallb_impl; [|exact Hv]. intros c Hc.
    apply andb_true_iff in Hc as [Hc H2]. apply andb_true_iff in Hc as [_ H1].
    rewrite negb_orb. now rewrite H1, H2. }
  destruct (@exec_declaration keyword (name v) (value v) Hkw Hne Hw Ht Hd)
    as (m & Hm & Hg).
  fold line in Hm.
  assert (Htrim : trim line = line).
  { apply trim_stable.
    - destruct Hkw; subst keyword; reflexivity.
    - unfold line. rewrite rev_app_distr. cbn [rev app].
      rewrite !rev_app_distr. reflexivity. }
  assert (Hc1 : startsWith line (str "//") = false)
    by (destruct Hkw; subst keyword; reflexivity).
  assert (Hc2 : startsWith line (str "/*") = false)
    by (destruct Hkw; subst keyword; reflexivity).
  assert (Hnil : line <> [])
    by (destruct Hkw; subst keyword; discriminate).
  clearbody line.
  unfold parse_line. rewrite Htrim.
  destruct line as [|c t] eqn:El; [congruence|]. rewrite Hc1, Hc2.
  cbn [orb]. change patterns with (declaration :: tl patterns).
  cbn [first_match]. rewrite Hm.
  unfold group. rewrite Hg. cbn [get_cap Nat.eqb].
  rewrite (cleanValue_semicolon Ht Hs), <- Hty, <- Hcat. reflexivity.
Qed.

Lemma export_line_keyword (v : EnvironmentVariable) :
  keyworded v = true ->
  exists keyword,
    (keyword = str "var" \/ keyword = str "const") /\
    export_line v
    = keyword ++ 32%N :: name v ++ str " = " ++ value v ++ str ";".
Proof.
  unfold keyworded, export_line, envText. cbn [map join]. intros H.
  destruct (includes (rawLine v) (str "var ")).
  - exists (str "var"). split; [now left|reflexivity].
  - simpl in H. rewrite H. exists (str "const"). split; [now right|reflexivity].
Qed.

Lemma envText_lines (vars : list EnvironmentVariable) :
  envText vars = join [10%N] (map export_line vars).
Proof. reflexivity. Qed.

Lemma parse_export_line (v : EnvironmentVariable) :
  clean v -> keyworded v = true ->
  parse_line (export_line v) = Some (reread v) /\
  forallb no_break (export_line v) = true.
Proof.
  intros Hc Hk. destruct (export_line_keyword v Hk) as (keyword & Hkw & He).
  split.
  - unfold reread. rewrite He. now apply parse_declaration.
  - rewrite He. destruct Hc as (_ & Hw & _ & Hv & _).
    assert (Hn : forallb no_break (name v) = true).
    { eapply forallb_impl; [|exact Hw]. apply word_no_break. }
    assert (Hd : forallb no_break (value v) = true).
    { eapply forallb_impl; [|exact Hv]. intros c Hc.
      apply andb_true_iff in Hc as [Hc _]. apply andb_true_iff in Hc as [Hc _].
      now apply dot_no_break. }
    rewrite forallb_app. cbn [forallb]. rewrite !forallb_app, Hn, Hd.
    destruct Hkw; subst keyword; reflexivity.
Qed.

Lemma parse_export_lines (vars : list EnvironmentVariable) :
  Forall clean vars -> forallb keyworded vars = true ->
  parseEnvironmentVariables (envText vars) = map reread vars.
Proof.
  intros Hc Hk. destruct vars as [|v0 vs]; [reflexivity|].
  unfold parseEnvironmentVariables. rewrite envText_lines, split_join_lines.
  - revert Hc Hk. generalize (v0 :: vs). intros l Hc.
    induction Hc as [|v l Hv Hl IH]; intros Hk; [reflexivity|].
    cbn [forallb] in Hk. apply andb_true_iff in Hk as [Hkv Hk].
    cbn [map flat_map].
    destruct (parse_export_line Hv Hkv) as [-> _]. cbn [app].
    f_equal. now apply IH.
  - discriminate.
  - revert Hc Hk. generalize (v0 :: vs). intros l Hc.
    induction Hc as [|v l Hv Hl IH]; intros Hk; [constructor|].
    cbn [forallb] in Hk. apply andb_true_iff in Hk as [Hkv Hk].
    cbn [map]. constructor; [|now apply IH].
    now destruct (parse_export_line Hv Hkv).
Qed.

Lemma parsed_clean (decodedText : jsstring) (v : EnvironmentVariable) :
  In v (parseEnvironmentVariables decodedText) -> clean v.
Proof.
  intros H. apply In_parse in H as (line & _ & H).
  apply parse_line_record in H as (_ & _ & _ & _ & Ht & Hc & raw & Hd & Hv).
  destruct Hd as (_ & _ & _ & _ & _ & _ & Hne & Hw & _ & _ & _ & _ & Hdot).
  unfold clean. repeat split; auto.
  - rewrite Hv. unfold cleanValue_of. apply trim_idem.
  - apply forallb_forall. intros x Hx. rewrite Hv in Hx.
    apply In_cleanValue in Hx as (Hx & H1 & H2).
    rewrite forallb_forall in Hdot. rewrite (Hdot x Hx). simpl.
    apply andb_true_iff. split; apply negb_true_iff.
    + destruct (ceq x 59%N) eqn:E; [apply ceq_eq in E; contradiction|reflexivity].
    + destruct (ceq x 44%N) eqn:E; [apply ceq_eq in E; contradiction|reflexivity].
Qed.

(** X20. Declarations exported with [var] or [const] are read back as they
    were: when the raw line of every record of a text holds [var ] or
    [const ], the text export rebuilds from the records parses to the same
    records, name, value, kind and category, each with its exported line as
    raw line. *)
Theorem declarations_reopen (decodedText : jsstring) :
  let vars := parseEnvironmentVariables decodedText in
  forallb keyworded vars = true ->
  parseEnvironmentVariables (envText vars) = map reread vars.
Proof.
  intros vars Hk. apply parse_export_lines; [|exact Hk].
  apply Forall_forall. intros v Hv. now apply parsed_clean in Hv.
Qed.

Lemma declarations_reopen_witness :
  parseEnvironmentVariables
    (envText (parseEnvironmentVariables (str "  const sizes = [1,2];
var speed=3")))
  = map reread (parseEnvironmentVariables (str "  const sizes = [1,2];
var speed=3")).
Proof.
  apply (@declarations_reopen (str "  const sizes = [1,2];
var speed=3")).
  vm_compute. reflexivity.
Defined.

(** Without [var] or [const] the exported line can read back as another
    declaration: the value of [a], without its comma, holds a [let]. *)
Example other_declarations_change :
  map (fun v => (name v, value v))
      (parseEnvironmentVariables (str "a = [let, b = 2]"))
  = [(str "a", str "[let b = 2]")] /\
  envText (parseEnvironmentVariables (str "a = [let, b = 2]"))
  = str "a = [let b = 2];" /\
  map (fun v => (name v, value v))
      (parseEnvironmentVariables
         (envText (parseEnvironmentVariables (str "a = [let, b = 2]"))))
  = [(str "b", str "2]")].
Proof. repeat split; vm_compute; reflexivity. Qed.

End EnvFacts.
